(** * Thompson construction and graph traversals of automata-scripts

    A shallow embedding of [src/automaton.ts] (classes [State], [Edge],
    [Automaton]) and [src/nfa.ts] (class [NFA]: [build] with its inner
    [generateGraph], and [enclosure]).

    JavaScript objects have identity and are mutated in place, so the
    embedding keeps a store: the heap of every [State] object created so far,
    in allocation order, and the [label] counter of [NFA.build].  A reference
    to a [State] is its position in the heap.  Code that reads or writes
    objects runs in a small state-and-exception monad over that store. *)

From stdpp Require Import base option list strings relations.
From Stdlib Require Import ZArith Lia.

Local Open Scope string_scope.
Local Open Scope list_scope.

Set Warnings "-register-all".

(** ** Data model (src/automaton.ts) *)

(** A reference to a [State] object: its index in the heap. *)
Abbreviation addr := nat (only parsing).

(** A JavaScript value that is either a [State] reference or [undefined]. *)
Abbreviation value := (option nat) (only parsing).

(** [class Edge]: [symbol] is typed [string], but [generateGraph] stores
    [st_node.text] there unchecked, which is [undefined] when the field is
    missing; [None] stands for [undefined]. *)
Record Edge := mkEdge { symbol : option string; to : addr }.

(** [class State]: [label] is a JavaScript number.  Labels are counted up from
    0 one by one, so they are integers, and they stay far below 2^53, where
    numbers stop being exact, for any automaton that fits in memory; they are
    modelled as unbounded integers. *)
Record State := mkState { label : Z; next : list Edge }.

(** The store: every [State] allocated so far, oldest first, and the variable
    [label] that [NFA.build] declares and [generateGraph] captures. *)
Record store := mkStore { heap : list State; counter : Z }.

(** ** The monad of the embedding *)

(** The runtime errors of the code are the [TypeError]s raised by the language
    itself; [what] records the operation that failed. *)
Inductive error := TypeError (what : string).

(** [Diverge] is the outcome of a traversal whose recursion budget ran out; it
    is a device of the model and the traversals are proved never to end
    there. *)
Inductive result (A : Type) :=
| Ok (a : A)
| Throw (e : error)
| Diverge.
Arguments Ok {A} a.
Arguments Throw {A} e.
Arguments Diverge {A}.

Definition M (A : Type) : Type := store -> result A * store.

Definition ret {A} (a : A) : M A := fun s => (Ok a, s).

Definition bind {A B} (m : M A) (k : A -> M B) : M B :=
  fun s =>
    match m s with
    | (Ok a, s') => k a s'
    | (Throw e, s') => (Throw e, s')
    | (Diverge, s') => (Diverge, s')
    end.

Definition throw {A} (e : error) : M A := fun s => (Throw e, s).

Definition diverge {A} : M A := fun s => (Diverge, s).

Notation "x <- m ;; k" := (bind m (fun x => k))
  (at level 100, m at next level, right associativity).
Notation "m ;;; k" := (bind m (fun _ => k))
  (at level 100, right associativity).

(** [for (const x of xs) body(x)] for a body that returns nothing. *)
Fixpoint for_of {A} (xs : list A) (body : A -> M unit) : M unit :=
  match xs with
  | [] => ret tt
  | x :: rest => body x ;;; for_of rest body
  end.

(** ** Primitive operations on states *)

(** The empty-transition marker, the string the source writes as a lunate
    epsilon (U+03F5, two bytes in UTF-8). *)
Definition epsilon : string := "ϵ".

(** [new State(l)]: the new object goes to the end of the heap with an empty
    [next] array. *)
Definition new_State (l : Z) : M addr :=
  fun s => (Ok (length (heap s)),
            mkStore (heap s ++ [mkState l []]) (counter s)).

(** [++label]: increments the captured counter and yields the new value. *)
Definition pre_increment_label : M Z :=
  fun s => (Ok (counter s + 1)%Z, mkStore (heap s) (counter s + 1)%Z).

(** [let label = l] and reading [label]. *)
Definition let_label (l : Z) : M unit :=
  fun s => (Ok tt, mkStore (heap s) l).

Definition read_label : M Z := fun s => (Ok (counter s), s).

(** [new State(++label)]. *)
Definition new_State_next_label : M addr :=
  l <- pre_increment_label ;; new_State l.

(** [State.addNext]: pushes a new [Edge] on the receiver's [next] array.
    Calling it on [undefined] raises a [TypeError].  A reference always points
    into the heap, so the update is always in range. *)
Definition addNext (this : value) (sym : option string) (state : addr)
  : M unit :=
  match this with
  | None => throw (TypeError "addNext")
  | Some a =>
      fun s =>
        (Ok tt,
         mkStore
           (alter (fun st => mkState (label st) (next st ++ [mkEdge sym state]))
                  a (heap s))
           (counter s))
  end.

(** ** Syntax trees *)

(** Modelled from the spec: the interface [SyntaxTreeNode] of [./regex], which
    is not among the sources.  [generateGraph] reads the fields [type],
    [text], [parts] and [sub], casting the last three ([as string],
    [as Array<SyntaxTreeNode>], [as SyntaxTreeNode]), so they are optional;
    [None] is a missing field. *)
Inductive SyntaxTreeNode :=
| Node (type : string) (text : option string)
       (parts : option (list SyntaxTreeNode)) (sub : option SyntaxTreeNode).

Definition type (n : SyntaxTreeNode) : string :=
  match n with Node ty _ _ _ => ty end.
Definition text (n : SyntaxTreeNode) : option string :=
  match n with Node _ tx _ _ => tx end.
Definition parts (n : SyntaxTreeNode) : option (list SyntaxTreeNode) :=
  match n with Node _ _ ps _ => ps end.
Definition sub (n : SyntaxTreeNode) : option SyntaxTreeNode :=
  match n with Node _ _ _ sb => sb end.

(** Nodes of the documented kinds. *)
Definition empty_node : SyntaxTreeNode := Node "empty" None None None.
Definition text_node (c : string) : SyntaxTreeNode :=
  Node "text" (Some c) None None.
Definition or_node (ps : list SyntaxTreeNode) : SyntaxTreeNode :=
  Node "or" None (Some ps) None.
Definition cat_node (ps : list SyntaxTreeNode) : SyntaxTreeNode :=
  Node "cat" None (Some ps) None.
Definition star_node (x : SyntaxTreeNode) : SyntaxTreeNode :=
  Node "star" None None (Some x).
Definition plus_node (x : SyntaxTreeNode) : SyntaxTreeNode :=
  Node "plus" None None (Some x).
Definition optional_node (x : SyntaxTreeNode) : SyntaxTreeNode :=
  Node "optional" None None (Some x).

(** ** Thompson construction (src/nfa.ts, NFA.build) *)

Section Loops.
(** The two loops of [generateGraph] call [generateGraph] itself; here it is
    the variable [gen]. *)
Variable gen : SyntaxTreeNode -> value -> M value.

(** The first loop of case ["or"]; [last_states] is the array being
    filled. *)
Fixpoint or_loop (initial_state : value) (ps : list SyntaxTreeNode)
         (last_states : list value) : M (list value) :=
  match ps with
  | [] => ret last_states
  | part :: rest =>
      next_state <- new_State_next_label ;;
      addNext initial_state (Some epsilon) next_state ;;;
      last_state <- gen part (Some next_state) ;;
      or_loop initial_state rest (last_states ++ [last_state])
  end.

(** The loop of case ["cat"]. *)
Fixpoint cat_loop (prev_state : value) (ps : list SyntaxTreeNode)
  : M value :=
  match ps with
  | [] => ret prev_state
  | part :: rest =>
      prev_state' <- gen part prev_state ;;
      cat_loop prev_state' rest
  end.
End Loops.

(** The inner function [generateGraph] of [NFA.build].  The [switch] compares
    [st_node.type] with each case label in turn; with no [default], a type
    that matches none falls out of the [switch] and the function returns
    [undefined].  Iterating over missing [parts] raises a [TypeError]; a
    missing [sub] is passed on as [undefined] and the recursive call raises a
    [TypeError] on reading its [type]. *)
Fixpoint generateGraph (st_node : SyntaxTreeNode) (initial_state : value)
  : M value :=
  match st_node with
  | Node ty tx ps sb =>
      if String.eqb ty "empty" then
        accept_state <- new_State_next_label ;;
        addNext initial_state (Some epsilon) accept_state ;;;
        ret (Some accept_state)
      else if String.eqb ty "text" then
        accept_state <- new_State_next_label ;;
        addNext initial_state tx accept_state ;;;
        ret (Some accept_state)
      else if String.eqb ty "or" then
        match ps with
        | None => throw (TypeError "parts is not iterable")
        | Some l =>
            last_states <- or_loop generateGraph initial_state l [] ;;
            accept_state <- new_State_next_label ;;
            for_of last_states
                   (fun state => addNext state (Some epsilon) accept_state) ;;;
            ret (Some accept_state)
        end
      else if String.eqb ty "cat" then
        match ps with
        | None => throw (TypeError "parts is not iterable")
        | Some l => cat_loop generateGraph initial_state l
        end
      else if String.eqb ty "star" || String.eqb ty "plus"
              || String.eqb ty "optional" then
        temp_initial_state <- new_State_next_label ;;
        addNext initial_state (Some epsilon) temp_initial_state ;;;
        temp_accept_state <-
          match sb with
          | None => throw (TypeError "type")
          | Some x => generateGraph x (Some temp_initial_state)
          end ;;
        (if String.eqb ty "star" || String.eqb ty "plus"
         then addNext temp_accept_state (Some epsilon) temp_initial_state
         else ret tt) ;;;
        accept_state <- new_State_next_label ;;
        addNext temp_accept_state (Some epsilon) accept_state ;;;
        (if String.eqb ty "star" || String.eqb ty "optional"
         then addNext initial_state (Some epsilon) accept_state
         else ret tt) ;;;
        ret (Some accept_state)
      else
        ret None
  end.

(** The store in which a build starts: no state yet; the counter is set by
    [build]. *)
Definition empty_store : store := mkStore [] 0%Z.

(** [NFA.build], from the parsed tree on ([parseRegex] is an external
    collaborator): [let label = 0], the initial state [new State(label)], then
    [generateGraph] on the root. *)
Definition build (st : SyntaxTreeNode) : M (addr * value) :=
  let_label 0 ;;;
  initial_state <- (l <- read_label ;; new_State l) ;;
  accept_state <- generateGraph st (Some initial_state) ;;
  ret (initial_state, accept_state).

(** [class Automaton]: the constructor stores the pair that [build] returns. *)
Record Automaton := mkAutomaton { initial_state : addr; accept_state : value }.

Definition new_NFA (st : SyntaxTreeNode) : M Automaton :=
  p <- build st ;; ret (mkAutomaton (fst p) (snd p)).

(** ** Reading states *)

(** [state.next] and [state.label].  Every reference the code can hold points
    into the heap; the model answers a reference that does not as the language
    answers a property read on [undefined]. *)
Definition get_next (state : addr) : M (list Edge) :=
  fun s =>
    match heap s !! state with
    | Some st => (Ok (next st), s)
    | None => (Throw (TypeError "next"), s)
    end.

Definition get_label (state : addr) : M Z :=
  fun s =>
    match heap s !! state with
    | Some st => (Ok (label st), s)
    | None => (Throw (TypeError "label"), s)
    end.

(** A JavaScript [Set] of object references: it keeps insertion order and
    holds each reference once. *)
Definition Set_has (x : addr) (set : list addr) : bool :=
  bool_decide (x ∈ set).
Definition Set_add (x : addr) (set : list addr) : list addr :=
  if Set_has x set then set else set ++ [x].

(** [for (const x of xs) body(x)] for a body that updates local variables,
    here the accumulator [acc]. *)
Fixpoint for_fold {A B} (xs : list A) (acc : B) (body : A -> B -> M B)
  : M B :=
  match xs with
  | [] => ret acc
  | x :: rest => acc' <- body x acc ;; for_fold rest acc' body
  end.

(** The recursion budget that the entry points give their traversal: one more
    than the number of states in the heap.  JavaScript has no such budget; it
    only makes the recursion structural, and [Diverge] marks its exhaustion. *)
Definition budget : M nat := fun s => (Ok (S (length (heap s))), s).

(** ** Closure (src/nfa.ts, NFA.enclosure) *)

(** [edge.symbol == symbol]: a string equals a string by content, and
    [undefined] equals no string. *)
Definition symbol_eq (edge_symbol : option string) (sym : string) : bool :=
  match edge_symbol with
  | Some c => String.eqb c sym
  | None => false
  end.

Module Enclosure.
(** The inner function [DFS] of [enclosure]; the captured set
    [reacheable_states] is passed in and out. *)
Fixpoint DFS (fuel : nat) (sym : string) (state : addr)
         (reacheable_states : list addr) : M (list addr) :=
  match fuel with
  | O => diverge
  | S fuel' =>
      if Set_has state reacheable_states then ret reacheable_states
      else
        edges <- get_next state ;;
        for_fold edges (Set_add state reacheable_states)
                 (fun edge set =>
                    if symbol_eq (symbol edge) sym
                    then DFS fuel' sym (to edge) set
                    else ret set)
  end.
End Enclosure.

(** The argument [T : State | State[]]. *)
Inductive StateOrArray :=
| OneState (state : addr)
| StateArray (states : list addr).

(** [NFA.enclosure(T, symbol)]; [Array.from] lists the set in insertion
    order. *)
Definition enclosure (T : StateOrArray) (sym : string) : M (list addr) :=
  fuel <- budget ;;
  match T with
  | StateArray states =>
      for_fold states [] (fun state set => Enclosure.DFS fuel sym state set)
  | OneState state => Enclosure.DFS fuel sym state []
  end.

(** ** Export (src/automaton.ts, Automaton.cytograph) *)

(** The two shapes of object that [cytograph] pushes:
    [{ data: { id, label } }] and [{ data: { source, target, label } }]. *)
Inductive descriptor :=
| vertex_data (id : Z) (lbl : Z)
| edge_data (source : Z) (target : Z) (lbl : option string).

Module Cytograph.
(** The inner function [DFS] of [cytograph]; the captured [visited] set and
    [states] array are passed in and out.  Both kinds of descriptor are
    pushed on [states]. *)
Fixpoint DFS (fuel : nat) (state : addr)
         (vs : list addr * list descriptor)
  : M (list addr * list descriptor) :=
  match fuel with
  | O => diverge
  | S fuel' =>
      if Set_has state (fst vs) then ret vs
      else
        l <- get_label state ;;
        edges <- get_next state ;;
        for_fold edges
                 (Set_add state (fst vs), snd vs ++ [vertex_data l l])
                 (fun edge vs' =>
                    source <- get_label state ;;
                    target <- get_label (to edge) ;;
                    DFS fuel' (to edge)
                        (fst vs',
                         snd vs' ++ [edge_data source target (symbol edge)]))
  end.
End Cytograph.

(** [Automaton.cytograph]: the array [edges] is never pushed to. *)
Definition cytograph (this : Automaton) : M (list descriptor) :=
  let edges : list descriptor := [] in
  fuel <- budget ;;
  vs <- Cytograph.DFS fuel (initial_state this) ([], []) ;;
  ret (snd vs ++ edges).

(** * Vocabulary of the statements *)

(** ** Syntax trees *)

(** The kinds that the [switch] of [generateGraph] has a case for. *)
Definition documented_kind (ty : string) : bool :=
  String.eqb ty "empty" || String.eqb ty "text" || String.eqb ty "or"
  || String.eqb ty "cat" || String.eqb ty "star" || String.eqb ty "plus"
  || String.eqb ty "optional".

(** Trees of the shape the builder trusts: every node is of a documented kind,
    an or/cat node has its [parts] and a repetition node has its [sub]. *)
Fixpoint shaped (n : SyntaxTreeNode) : bool :=
  match n with
  | Node ty tx ps sb =>
      if String.eqb ty "empty" || String.eqb ty "text" then true
      else if String.eqb ty "or" || String.eqb ty "cat" then
        match ps with
        | Some l => forallb shaped l
        | None => false
        end
      else if String.eqb ty "star" || String.eqb ty "plus"
              || String.eqb ty "optional" then
        match sb with
        | Some x => shaped x
        | None => false
        end
      else false
  end.

(** The number of states and of transitions that the construction rules
    create for a tree, read off the rules. *)
Fixpoint states_of (n : SyntaxTreeNode) : nat :=
  match n with
  | Node ty tx ps sb =>
      if String.eqb ty "empty" || String.eqb ty "text" then 1
      else if String.eqb ty "or" then
        match ps with
        | Some l => sum_list_with (fun p => S (states_of p)) l + 1
        | None => 0
        end
      else if String.eqb ty "cat" then
        match ps with
        | Some l => sum_list_with states_of l
        | None => 0
        end
      else if String.eqb ty "star" || String.eqb ty "plus"
              || String.eqb ty "optional" then
        match sb with
        | Some x => states_of x + 2
        | None => 0
        end
      else 0
  end.

Fixpoint transitions_of (n : SyntaxTreeNode) : nat :=
  match n with
  | Node ty tx ps sb =>
      if String.eqb ty "empty" || String.eqb ty "text" then 1
      else if String.eqb ty "or" then
        match ps with
        | Some l => sum_list_with (fun p => S (S (transitions_of p))) l
        | None => 0
        end
      else if String.eqb ty "cat" then
        match ps with
        | Some l => sum_list_with transitions_of l
        | None => 0
        end
      else if String.eqb ty "star" then
        match sb with
        | Some x => transitions_of x + 4
        | None => 0
        end
      else if String.eqb ty "plus" || String.eqb ty "optional" then
        match sb with
        | Some x => transitions_of x + 3
        | None => 0
        end
      else 0
  end.

(** Trees that the construction lets through on empty transitions alone.  A
    text node does so only if its symbol is the empty-transition marker
    itself. *)
Fixpoint nullable (n : SyntaxTreeNode) : bool :=
  match n with
  | Node ty tx ps sb =>
      if String.eqb ty "empty" then true
      else if String.eqb ty "text" then symbol_eq tx epsilon
      else if String.eqb ty "or" then
        match ps with
        | Some l => existsb nullable l
        | None => false
        end
      else if String.eqb ty "cat" then
        match ps with
        | Some l => forallb nullable l
        | None => false
        end
      else if String.eqb ty "star" || String.eqb ty "optional" then true
      else if String.eqb ty "plus" then
        match sb with
        | Some x => nullable x
        | None => false
        end
      else false
  end.

(** Induction on syntax trees: the type is nested through [option] and [list],
    so its induction principle is written by hand. *)
Section NodeInduction.
Variable P : SyntaxTreeNode -> Prop.

Definition parts_all (ps : option (list SyntaxTreeNode)) : Prop :=
  match ps with Some l => Forall P l | None => True end.

Definition sub_all (sb : option SyntaxTreeNode) : Prop :=
  match sb with Some x => P x | None => True end.

Hypothesis step_case :
  forall ty tx ps sb, parts_all ps -> sub_all sb -> P (Node ty tx ps sb).

Fixpoint node_induction (n : SyntaxTreeNode) : P n :=
  match n with
  | Node ty tx ps sb =>
      step_case ty tx ps sb
        (match ps return parts_all ps with
         | Some l =>
             (fix go (l : list SyntaxTreeNode) : Forall P l :=
                match l with
                | [] => List.Forall_nil P
                | x :: r => List.Forall_cons P x r (node_induction x) (go r)
                end) l
         | None => I
         end)
        (match sb return sub_all sb with
         | Some x => node_induction x
         | None => I
         end)
  end.
End NodeInduction.

(** ** Runs *)

(** A run that returns, with a postcondition on its value and final store. *)
Definition returns {A} (m : M A) (s : store) (Q : A -> store -> Prop) : Prop :=
  exists a s', m s = (Ok a, s') /\ Q a s'.

(** A property of the store that a run keeps, whatever its outcome. *)
Definition preserves (I : store -> Prop) {A} (m : M A) : Prop :=
  forall s, I s -> I (snd (m s)).

(** A run that leaves the store as it found it. *)
Definition readonly {A} (m : M A) : Prop := forall s, snd (m s) = s.

(** The result of the pure traversal as an outcome of a run. *)
Definition outcome {A} (o : option A) : result A :=
  match o with
  | Some a => Ok a
  | None => Diverge
  end.

(** What a run changes: the states it appends to the heap and the transitions
    it adds. *)
Definition count_transitions (h : list State) : nat :=
  sum_list_with (fun st => length (next st)) h.

Definition states_allocated {A} (m : M A) (s : store) : nat :=
  length (heap (snd (m s))) - length (heap s).

Definition transitions_created {A} (m : M A) (s : store) : nat :=
  count_transitions (heap (snd (m s))) - count_transitions (heap s).

(** The labels of the states a run allocates, in allocation order. *)
Definition labels_allocated {A} (m : M A) (s : store) : list Z :=
  label <$> drop (length (heap s)) (heap (snd (m s))).

(** The labels of a build in progress whose first state is at position [b] of
    the heap: the states from [b] on are labelled 0, 1, 2, ... in allocation
    order and the counter holds the label given last. *)
Definition labels_inv (b : nat) (s : store) : Prop :=
  b < length (heap s)
  /\ drop b (label <$> heap s) = seqZ 0 (Z.of_nat (length (heap s) - b))
  /\ counter s = (Z.of_nat (length (heap s) - b) - 1)%Z.

(** ** Heaps under construction *)

(** [State.addNext] as a function on states. *)
Definition push_edge (e : Edge) (st : State) : State :=
  mkState (label st) (next st ++ [e]).

(** The heap after [new State(++label)] followed by [x.addNext(sym, it)]:
    one more state, and one more transition, from [x] to that state. *)
Definition linked (h : list State) (x : addr) (sym : option string) (l : Z)
  : list State :=
  alter (push_edge (mkEdge sym (length h))) x (h ++ [mkState l []]).

(** How one call of the recursive builder, given the state [i] to start at,
    takes the heap [h] to [h']: states are only appended, the states that
    existed keep their label and transitions, except that [i] may have gained
    transitions, and every transition added, to [i] or to a new state, leads
    to a new state. *)
Definition extends (i : addr) (h h' : list State) : Prop :=
  length h <= length h'
  /\ (forall x, x < length h -> x <> i -> h' !! x = h !! x)
  /\ (forall st, h !! i = Some st ->
        exists es, h' !! i = Some (mkState (label st) (next st ++ es))
                   /\ forall e, e ∈ es -> length h <= to e < length h')
  /\ (forall x st e, length h <= x -> h' !! x = Some st -> e ∈ next st ->
        length h <= to e < length h').

(** [extends], with the number [k] of states appended and the number [m] of
    transitions added. *)
Definition grown (i : addr) (h : list State) (k m : nat) (h' : list State)
  : Prop :=
  extends i h h'
  /\ length h' = length h + k
  /\ count_transitions h' = count_transitions h + m.

(** The outcome of [generateGraph t (Some i)] run in store [s]: the accept
    state [a] and the final store [s'].  The accept state is the given state
    or a new one, and when the given state was the newest state so is the
    accept state. *)
Definition built (t : SyntaxTreeNode) (i : addr) (s : store)
           (a : addr) (s' : store) : Prop :=
  grown i (heap s) (states_of t) (transitions_of t) (heap s')
  /\ (a = i \/ length (heap s) <= a)
  /\ a < length (heap s')
  /\ (S i = length (heap s) -> S a = length (heap s')).

(** What the induction gives for a part or a sub-tree. *)
Definition builds (p : SyntaxTreeNode) : Prop :=
  shaped p = true ->
  forall i s, i < length (heap s) ->
    returns (generateGraph p (Some i)) s
            (fun v s' => exists a, v = Some a /\ built p i s a s').

(** A value that is a state allocated since the heap was [h]. *)
Definition new_state (h hc : list State) (v : value) : Prop :=
  exists a, v = Some a /\ length h <= a < length hc.

(** The shared case of ["star"], ["plus"] and ["optional"], with its two
    conditions as parameters: [loop] is [type == "star" || type == "plus"]
    and [bypass] is [type == "star" || type == "optional"]. *)
Definition repetition (loop bypass : bool) (x : SyntaxTreeNode)
           (initial_state : value) : M value :=
  temp_initial_state <- new_State_next_label ;;
  addNext initial_state (Some epsilon) temp_initial_state ;;;
  temp_accept_state <- generateGraph x (Some temp_initial_state) ;;
  (if loop
   then addNext temp_accept_state (Some epsilon) temp_initial_state
   else ret tt) ;;;
  accept_state <- new_State_next_label ;;
  addNext temp_accept_state (Some epsilon) accept_state ;;;
  (if bypass
   then addNext initial_state (Some epsilon) accept_state
   else ret tt) ;;;
  ret (Some accept_state).

(** ** Transitions and reachability *)

(** A heap in which every transition points to a state of the heap, as object
    references always do. *)
Definition closed_heap (h : list State) : Prop :=
  forall x st e, h !! x = Some st -> e ∈ next st -> to e < length h.

(** [closed_heap] as a check. *)
Definition closed_heapb (h : list State) : bool :=
  forallb (fun st => forallb (fun e => Nat.ltb (to e) (length h)) (next st)) h.

(** The states that a traversal moves to from [x], in order: the targets of
    the transitions of [x] that it follows. *)
Definition targets (h : list State) (follow : Edge -> bool) (x : addr)
  : list addr :=
  match h !! x with
  | Some st => to <$> List.filter follow (next st)
  | None => []
  end.

Definition follow_symbol (sym : string) (e : Edge) : bool :=
  symbol_eq (symbol e) sym.

Definition follow_all (e : Edge) : bool := true.

(** The transitions that the closure follows by default. *)
Definition follow_epsilon : Edge -> bool := follow_symbol epsilon.

(** [x] has a transition to [y] that the traversal follows. *)
Definition step (h : list State) (follow : Edge -> bool) (x y : addr) : Prop :=
  y ∈ targets h follow x.

(** Zero or more such transitions lead from [x] to [y]. *)
Definition reach (h : list State) (follow : Edge -> bool) : relation addr :=
  rtc (step h follow).

(** There is a set of states of [h'] that holds [i] and not [a] and that no
    followed transition to a state at position [n] or later leaves. *)
Definition avoiding (h' : list State) (follow : Edge -> bool) (n : nat)
           (i a : addr) : Prop :=
  exists C : addr -> Prop,
    C i /\ ~ C a
    /\ (forall x, C x -> (x = i \/ n <= x) /\ x < length h')
    /\ (forall x y, C x -> step h' follow x y -> n <= y -> C y).

(** What the induction gives for a part or a sub-tree about its empty
    transitions: from the state it starts at, the accept state of a nullable
    tree is reached on empty transitions, and that of a tree that is not
    nullable is kept apart from it. *)
Definition passes (p : SyntaxTreeNode) : Prop :=
  shaped p = true ->
  forall i s a s',
    closed_heap (heap s) -> i < length (heap s) ->
    generateGraph p (Some i) s = (Ok (Some a), s') ->
    (nullable p = true -> reach (heap s') follow_epsilon i a)
    /\ (nullable p = false ->
        avoiding (heap s') follow_epsilon (length (heap s)) i a).

(** ** Traversals *)

(** The states that [enclosure] starts from. *)
Definition roots (T : StateOrArray) : list addr :=
  match T with
  | OneState state => [state]
  | StateArray states => states
  end.

(** The order in which a depth-first traversal with a visited set discovers
    states, over an arbitrary successor function; both [DFS] functions of the
    source are proved to follow it.  [None] is an exhausted budget. *)
Section Visit.
Variable succs : addr -> list addr.

Fixpoint visit_all (go : addr -> list addr -> option (list addr))
         (ys : list addr) (V : list addr) : option (list addr) :=
  match ys with
  | [] => Some V
  | y :: rest =>
      match go y V with
      | Some V' => visit_all go rest V'
      | None => None
      end
  end.

Fixpoint visit (fuel : nat) (x : addr) (V : list addr)
  : option (list addr) :=
  match fuel with
  | O => None
  | S fuel' =>
      if Set_has x V then Some V
      else visit_all (visit fuel') (succs x) (Set_add x V)
  end.
End Visit.

(** A visited set of a graph of [n] states: no state twice, none outside. *)
Definition inside (n : nat) (V : list addr) : Prop :=
  NoDup V /\ forall y, y ∈ V -> y < n.

(** What a traversal that took the visited set from [V] to [V'] found, for a
    successor function [succs]: it appended the states [D], all reachable
    from one of the states [from] it was started at, and every successor of a
    state of [D] is in [V']. *)
Definition discovered (succs : addr -> list addr) (from : list addr)
           (V V' : list addr) : Prop :=
  exists D,
    V' = V ++ D
    /\ (NoDup V -> NoDup V')
    /\ (forall y, y ∈ from -> y ∈ V')
    /\ (forall y, y ∈ D ->
          exists r, r ∈ from /\ rtc (fun a b => b ∈ succs a) r y)
    /\ (forall y z, y ∈ D -> z ∈ succs y -> z ∈ V').

(** The descriptors that [cytograph] builds for a state and for its
    transitions. *)
Definition vertex_of (h : list State) (x : addr) : list descriptor :=
  match h !! x with
  | Some st => [vertex_data (label st) (label st)]
  | None => []
  end.

Definition target_label (h : list State) (e : Edge) : Z :=
  match h !! to e with
  | Some st => label st
  | None => 0%Z
  end.

(** The edge descriptor that [Cytograph.DFS] pushes for the transition [e] of
    the state [st]. *)
Definition edge_descriptor (h : list State) (st : State) (e : Edge)
  : descriptor :=
  edge_data (label st) (target_label h e) (symbol e).

Definition edges_of (h : list State) (x : addr) : list descriptor :=
  match h !! x with
  | Some st =>
      (fun e => edge_data (label st) (target_label h e) (symbol e))
        <$> next st
  | None => []
  end.

Definition is_vertex (d : descriptor) : bool :=
  match d with vertex_data _ _ => true | edge_data _ _ _ => false end.

Definition is_edge (d : descriptor) : bool := negb (is_vertex d).

(** [xs] lists all its vertex descriptors before all its edge descriptors: no
    edge descriptor stands before a vertex descriptor. *)
Definition vertices_first (xs : list descriptor) : Prop :=
  forall i j d d',
    i < j -> xs !! i = Some d -> xs !! j = Some d' ->
    is_edge d = true -> is_vertex d' = false.

(** What [Cytograph.DFS] added to the array [states] while the visited set
    went from [V] to [V']: the vertex descriptor of each state it appended to
    the visited set, in that order, and, in some order, the edge descriptors
    [extra] and those of all transitions of each such state. *)
Definition emitted (h : list State) (V V' : list addr)
           (out out' : list descriptor) (extra : list descriptor) : Prop :=
  exists D,
    V' = V ++ D
    /\ List.filter is_vertex out'
       = List.filter is_vertex out ++ concat (vertex_of h <$> D)
    /\ List.filter is_edge out'
       ≡ₚ List.filter is_edge out ++ extra ++ concat (edges_of h <$> D).

(** ** Further vocabulary *)

(** The number of nodes of a tree, whatever their kind. *)
Fixpoint node_count (n : SyntaxTreeNode) : nat :=
  match n with
  | Node ty tx ps sb =>
      1 + match ps with
          | Some l => sum_list_with node_count l
          | None => 0
          end
        + match sb with
          | Some x => node_count x
          | None => 0
          end
  end.

(** Trees in which every or node has at least one part. *)
Fixpoint or_nonempty (n : SyntaxTreeNode) : bool :=
  match n with
  | Node ty tx ps sb =>
      (if String.eqb ty "or"
       then match ps with Some [] => false | _ => true end
       else true)
      && match ps with
         | Some l => forallb or_nonempty l
         | None => true
         end
      && match sb with
         | Some x => or_nonempty x
         | None => true
         end
  end.

(** The symbols that [generateGraph] reads from the text nodes of a tree. *)
Fixpoint text_symbols (n : SyntaxTreeNode) : list (option string) :=
  match n with
  | Node ty tx ps sb =>
      if String.eqb ty "empty" then []
      else if String.eqb ty "text" then [tx]
      else if String.eqb ty "or" || String.eqb ty "cat" then
        match ps with
        | Some l => concat (text_symbols <$> l)
        | None => []
        end
      else if String.eqb ty "star" || String.eqb ty "plus"
              || String.eqb ty "optional" then
        match sb with
        | Some x => text_symbols x
        | None => []
        end
      else []
  end.

(** [x] has no transition in [h]. *)
Definition final (h : list State) (x : addr) : Prop :=
  forall y, ~ step h follow_all x y.

(** What the induction gives for a part or a sub-tree about its accept
    state: either nothing was done and the given state is returned, or the
    accept state is a new state without transitions. *)
Definition ends (p : SyntaxTreeNode) : Prop :=
  shaped p = true ->
  forall i s a s',
    i < length (heap s) ->
    generateGraph p (Some i) s = (Ok (Some a), s') ->
    (a = i /\ s' = s) \/ (length (heap s) <= a /\ final (heap s') a).

(** What the induction gives for a part or a sub-tree about reachability:
    every state it allocates is reached from the state it starts at. *)
Definition spans (p : SyntaxTreeNode) : Prop :=
  shaped p = true -> or_nonempty p = true ->
  forall i s a s',
    i < length (heap s) ->
    generateGraph p (Some i) s = (Ok (Some a), s') ->
    forall x, length (heap s) <= x < length (heap s') ->
              reach (heap s') follow_all i x.

(** Every transition of a state at position [b] or later carries a symbol
    of [A]. *)
Definition symbols_within (A : option string -> Prop) (b : nat) (s : store)
  : Prop :=
  forall x st e,
    b <= x -> heap s !! x = Some st -> e ∈ next st -> A (symbol e).


(** Every transition in the store carries a symbol of [A] or was a transition
    of the same state in the heap [h0]. *)
Definition symbols_added (A : option string -> Prop) (h0 : list State)
           (s : store) : Prop :=
  forall x st e,
    heap s !! x = Some st -> e ∈ next st ->
    A (symbol e) \/ exists st0, h0 !! x = Some st0 /\ e ∈ next st0.


(** The state [x] of [h] has the transition [e]. *)
Definition has_edge (h : list State) (x : addr) (e : Edge) : Prop :=
  exists st, h !! x = Some st /\ e ∈ next st.

(** What the induction gives for a part or a sub-tree about its symbols:
    each text of a text node is carried by a transition of the given state or
    of a new state. *)
Definition carries (p : SyntaxTreeNode) : Prop :=
  shaped p = true ->
  forall i s a s',
    i < length (heap s) ->
    generateGraph p (Some i) s = (Ok (Some a), s') ->
    forall c, c ∈ text_symbols p ->
      exists x e, (x = i \/ length (heap s) <= x)
                  /\ has_edge (heap s') x e /\ symbol e = c.


(** Nodes whose kind the [switch] of [generateGraph] has no case for, and
    nodes that are of the trusted shape or of such a kind. *)
Definition unrecognized (p : SyntaxTreeNode) : bool :=
  negb (documented_kind (type p)).

Definition tolerated (p : SyntaxTreeNode) : bool :=
  shaped p || unrecognized p.


(** A heap moved behind the heap [h0]: the targets of its transitions are
    shifted by the length of [h0]; labels and symbols stay. *)
Definition shift_edge (b : nat) (e : Edge) : Edge :=
  mkEdge (symbol e) (b + to e).

Definition shift_state (b : nat) (st : State) : State :=
  mkState (label st) (shift_edge b <$> next st).

Definition shift_value (b : nat) (v : value) : value :=
  (fun a => b + a) <$> v.

Definition relocate (h0 : list State) (s : store) : store :=
  mkStore (h0 ++ (shift_state (length h0) <$> heap s)) (counter s).

(** The outcome of a run, moved behind [h0]; [f] moves the result. *)
Definition relocated {A} (f : A -> A) (h0 : list State)
           (r : result A * store) : result A * store :=
  (match fst r with
   | Ok a => Ok (f a)
   | Throw e => Throw e
   | Diverge => Diverge
   end,
   relocate h0 (snd r)).

(** [m'] does behind [h0] what [m] does. *)
Definition simulates {A} (h0 : list State) (f : A -> A) (m m' : M A)
  : Prop :=
  forall s, m' (relocate h0 s) = relocated f h0 (m s).

(** A builder that, given the moved state, does behind [h0] what it does
    given the state. *)
Definition moves (h0 : list State) (gen : value -> M value) : Prop :=
  forall v,
    simulates h0 (shift_value (length h0))
              (gen v) (gen (shift_value (length h0) v)).


(** The store in which a build whose root is a repetition runs
    [generateGraph] on the sub-tree: the initial state of the build, labelled
    0, and the state the sub-tree is built from, labelled 1, have been
    allocated behind the heap of [s], and the first has its empty transition
    to the second. *)
Definition sub_entry (s : store) : store :=
  mkStore (linked (heap s ++ [mkState 0 []]) (length (heap s))
                  (Some epsilon) 1)
          1.

(** What the export pushes while it goes through the transitions [es] of a
    state labelled [src], in their order, with [V] the states visited so
    far.  Each transition gives its edge descriptor at once, whether its
    target has been visited or not; a target that has not is visited then
    and there: its vertex descriptor follows, then what the export pushes
    for its own transitions, and only then the descriptors of the
    transitions left in [es].  [V'] is the states visited in the end. *)
Inductive sweep (h : list State)
  : list addr -> Z -> list Edge -> list descriptor -> list addr -> Prop :=
| sweep_done V src : sweep h V src [] [] V
| sweep_seen V src e es ste ds V' :
    h !! to e = Some ste -> to e ∈ V ->
    sweep h V src es ds V' ->
    sweep h V src (e :: es)
          (edge_data src (label ste) (symbol e) :: ds) V'
| sweep_new V src e es ste d1 V1 d2 V' :
    h !! to e = Some ste -> to e ∉ V ->
    sweep h (V ++ [to e]) (label ste) (next ste) d1 V1 ->
    sweep h V1 src es d2 V' ->
    sweep h V src (e :: es)
          (edge_data src (label ste) (symbol e)
             :: vertex_data (label ste) (label ste) :: d1 ++ d2)
          V'.

(** What one call of the inner function of the export on the state [x]
    pushes: nothing when [x] has been visited, else the vertex descriptor of
    [x] and then the descriptors of the sweep through its transitions. *)
Definition arrive (h : list State) (V : list addr) (x : addr)
           (ds : list descriptor) (V' : list addr) : Prop :=
  (x ∈ V /\ ds = [] /\ V' = V)
  \/ ((x ∉ V)
      /\ exists st d1,
          h !! x = Some st
          /\ ds = vertex_data (label st) (label st) :: d1
          /\ sweep h (V ++ [x]) (label st) (next st) d1 V').

(** The vertex descriptor of every state of [V] is in [pre]. *)
Definition shown (h : list State) (pre : list descriptor) (V : list addr)
  : Prop :=
  forall y st,
    y ∈ V -> h !! y = Some st -> vertex_data (label st) (label st) ∈ pre.


(** * Properties *)

(** ** Running the monad *)

Lemma bind_Ok {A B} (m : M A) (k : A -> M B) s a s' :
  m s = (Ok a, s') -> bind m k s = k a s'.
Proof. intros H. unfold bind. rewrite H. reflexivity. Qed.

Lemma bind_Throw {A B} (m : M A) (k : A -> M B) s e s' :
  m s = (Throw e, s') -> bind m k s = (Throw e, s').
Proof. intros H. unfold bind. rewrite H. reflexivity. Qed.

Lemma bind_Diverge {A B} (m : M A) (k : A -> M B) s s' :
  m s = (Diverge, s') -> bind m k s = (Diverge, s').
Proof. intros H. unfold bind. rewrite H. reflexivity. Qed.

(** ** Unrecognized and malformed nodes *)

Lemma documented_kind_false ty :
  documented_kind ty = false ->
  String.eqb ty "empty" = false /\ String.eqb ty "text" = false
  /\ String.eqb ty "or" = false /\ String.eqb ty "cat" = false
  /\ String.eqb ty "star" = false /\ String.eqb ty "plus" = false
  /\ String.eqb ty "optional" = false.
Proof.
  unfold documented_kind. intros H.
  repeat (apply orb_false_elim in H; destruct H as [H ?]).
  repeat split; assumption.
Qed.

(** C2, the claim as stated fails: a root of an unrecognized kind raises no
    error; [build] returns the initial state with [undefined] as accept
    state. *)
Lemma unrecognized_kind_no_error :
  build (Node "group" None None None) empty_store
  = (Ok (0, None), mkStore [mkState 0 []] 0)
  /\ ~ (exists e, fst (build (Node "group" None None None) empty_store)
                  = Throw e).
Proof.
  split; [reflexivity|]. intros [e He]. vm_compute in He. discriminate.
Qed.

(** C2, as the code has it: on a node whose kind is none of the documented
    ones the recursive builder raises no error, allocates no state, adds no
    transition and returns [undefined]; at the root, [build] then returns the
    pair of the initial state, labelled 0, and [undefined]. *)
Theorem unrecognized_kind_returns_undefined ty tx ps sb :
  documented_kind ty = false ->
  (forall i s, generateGraph (Node ty tx ps sb) i s = (Ok None, s))
  /\ (forall s, build (Node ty tx ps sb) s
                = (Ok (length (heap s), None),
                   mkStore (heap s ++ [mkState 0 []]) 0)).
Proof.
  intros H. apply documented_kind_false in H.
  destruct H as (H1 & H2 & H3 & H4 & H5 & H6 & H7).
  assert (G : forall i s, generateGraph (Node ty tx ps sb) i s = (Ok None, s)).
  { intros i s. simpl. rewrite H1, H2, H3, H4, H5, H6, H7. reflexivity. }
  split; [exact G|].
  intros s. unfold build.
  erewrite bind_Ok by reflexivity.
  erewrite bind_Ok by reflexivity.
  erewrite bind_Ok by apply G.
  reflexivity.
Qed.

Lemma unrecognized_kind_returns_undefined_witness :
  documented_kind "group" = false
  /\ generateGraph (Node "group" None None None) (Some 0)
                   (mkStore [mkState 0 []] 0)
     = (Ok None, mkStore [mkState 0 []] 0).
Proof.
  split; [reflexivity|].
  apply (unrecognized_kind_returns_undefined "group" None None None).
  reflexivity.
Defined.

(** C3, the claim as stated fails: an or node with an empty parts list builds
    without any error, and yields an accept state that nothing leads to. *)
Lemma malformed_node_no_error :
  build (or_node []) empty_store
  = (Ok (0, Some 1), mkStore [mkState 0 []; mkState 1 []] 1)
  /\ ~ (exists e, fst (build (or_node []) empty_store) = Throw e).
Proof.
  split; [reflexivity|]. intros [e He]. vm_compute in He. discriminate.
Qed.

(** C3, as the code has it: nodes are not validated.  An or node with empty
    parts allocates its accept state alone, adds no transition and returns
    that state; a cat node with empty parts changes nothing and returns the
    state it was given; a text node without symbol adds a transition whose
    symbol is [undefined]; none of them raises an error.  A repetition node
    without sub ends in the language's [TypeError] for reading [type] of
    [undefined], raised after the inner initial state has been allocated and
    linked from the given state. *)
Theorem malformed_node_behaviour :
  (forall tx sb i s,
      generateGraph (Node "or" tx (Some []) sb) i s
      = (Ok (Some (length (heap s))),
         mkStore (heap s ++ [mkState (counter s + 1) []]) (counter s + 1)))
  /\ (forall tx sb i s,
         generateGraph (Node "cat" tx (Some []) sb) i s = (Ok i, s))
  /\ (forall ps sb a s,
         generateGraph (Node "text" None ps sb) (Some a) s
         = (Ok (Some (length (heap s))),
            mkStore
              (alter (fun st => mkState (label st)
                                  (next st ++ [mkEdge None (length (heap s))]))
                     a (heap s ++ [mkState (counter s + 1) []]))
              (counter s + 1)))
  /\ Forall
       (fun ty =>
          forall tx ps a s,
            generateGraph (Node ty tx ps None) (Some a) s
            = (Throw (TypeError "type"),
               mkStore
                 (alter (fun st =>
                           mkState (label st)
                             (next st
                              ++ [mkEdge (Some epsilon) (length (heap s))]))
                        a (heap s ++ [mkState (counter s + 1) []]))
                 (counter s + 1)))
       ["star"; "plus"; "optional"].
Proof.
  split; [|split; [|split]].
  - reflexivity.
  - reflexivity.
  - reflexivity.
  - repeat constructor.
Qed.

(** ** Export: order of the descriptors *)

(** C4, the code at the automaton of the one-letter expression [a]: the edge
    descriptor of its only transition is pushed between the two vertex
    descriptors, on the same array, so the export does not list the vertices
    first. *)
Theorem cytograph_interleaves :
  let s := snd (build (text_node "a") empty_store) in
  cytograph (mkAutomaton 0 (Some 1)) s
  = (Ok [vertex_data 0 0; edge_data 0 1 (Some "a"); vertex_data 1 1], s)
  /\ ~ vertices_first
        [vertex_data 0 0; edge_data 0 1 (Some "a"); vertex_data 1 1].
Proof.
  split; [reflexivity|].
  intros H.
  specialize (H 1 2 (edge_data 0 1 (Some "a")) (vertex_data 1 1)).
  simpl in H. discriminate H; auto.
Qed.


(** ** Properties kept by every run, whatever its outcome *)

Section Preserves.
Variable I : store -> Prop.

Lemma preserves_ret {A} (a : A) : preserves I (ret a).
Proof. intros s H. exact H. Qed.

Lemma preserves_throw {A} e : preserves I (@throw A e).
Proof. intros s H. exact H. Qed.

Lemma preserves_bind {A B} (m : M A) (k : A -> M B) :
  preserves I m -> (forall a, preserves I (k a)) -> preserves I (bind m k).
Proof.
  intros Hm Hk s Hs. unfold bind.
  specialize (Hm s Hs). destruct (m s) as [[a|e|] s1]; simpl in *; auto.
  apply Hk. exact Hm.
Qed.

Lemma preserves_for_of {A} (xs : list A) body :
  (forall x, preserves I (body x)) -> preserves I (for_of xs body).
Proof.
  intros Hb. induction xs as [|x xs IH]; simpl.
  - apply preserves_ret.
  - apply preserves_bind; auto.
Qed.

Hypothesis new_ok : preserves I new_State_next_label.
Hypothesis addNext_ok : forall this sym x, preserves I (addNext this sym x).

Lemma preserves_or_loop gen i ps :
  Forall (fun p => forall j, preserves I (gen p j)) ps ->
  forall acc, preserves I (or_loop gen i ps acc).
Proof.
  induction 1 as [|p ps Hp _ IH]; intros acc; simpl.
  - apply preserves_ret.
  - apply preserves_bind; [apply new_ok|]. intros n.
    apply preserves_bind; [apply addNext_ok|]. intros _.
    apply preserves_bind; [apply Hp|]. intros a. apply IH.
Qed.

Lemma preserves_cat_loop gen ps :
  Forall (fun p => forall j, preserves I (gen p j)) ps ->
  forall i, preserves I (cat_loop gen i ps).
Proof.
  induction 1 as [|p ps Hp _ IH]; intros i; simpl.
  - apply preserves_ret.
  - apply preserves_bind; [apply Hp|]. intros a. apply IH.
Qed.

Lemma preserves_generateGraph st :
  forall i, preserves I (generateGraph st i).
Proof.
  induction st as [ty tx ps sb IHps IHsb] using node_induction.
  intros i. simpl.
  repeat match goal with
         | |- preserves _ (if ?b then _ else _) => destruct b
         | |- preserves _ (bind _ _) => apply preserves_bind; [|intros ?]
         | |- preserves _ (ret _) => apply preserves_ret
         | |- preserves _ (throw _) => apply preserves_throw
         | |- preserves _ new_State_next_label => apply new_ok
         | |- preserves _ (addNext _ _ _) => apply addNext_ok
         | |- preserves _ (for_of _ _) => apply preserves_for_of; intros ?
         | |- preserves _ (match ?o with Some _ => _ | None => _ end) =>
             destruct o; simpl in *
         | |- preserves _ (or_loop _ _ _ _) => apply preserves_or_loop
         | |- preserves _ (cat_loop _ _ _) => apply preserves_cat_loop
         | |- preserves _ (generateGraph _ _) => solve [auto]
         | |- Forall _ _ => solve [auto]
         end.
Qed.
End Preserves.

(** ** Labels *)

Lemma new_State_next_label_run s :
  new_State_next_label s
  = (Ok (length (heap s)),
     mkStore (heap s ++ [mkState (counter s + 1) []]) (counter s + 1)).
Proof. reflexivity. Qed.

Lemma addNext_run a sym y s :
  addNext (Some a) sym y s
  = (Ok tt,
     mkStore (alter (fun st => mkState (label st) (next st ++ [mkEdge sym y]))
                    a (heap s))
             (counter s)).
Proof. reflexivity. Qed.

Lemma label_alter_edge (h : list State) a e :
  label <$> alter (fun st => mkState (label st) (next st ++ [e])) a h
  = label <$> h.
Proof.
  apply list_eq. intros j. rewrite !list_lookup_fmap.
  destruct (decide (a = j)) as [->|Hne].
  - rewrite list_lookup_alter_eq. destruct (h !! j); reflexivity.
  - rewrite list_lookup_alter_ne by exact Hne. reflexivity.
Qed.

Lemma labels_inv_new b : preserves (labels_inv b) new_State_next_label.
Proof.
  intros s (Hb & Hl & Hc). rewrite new_State_next_label_run. simpl.
  unfold labels_inv. simpl. rewrite length_app, fmap_app. simpl.
  split; [lia|]. split.
  - rewrite drop_app_le by (rewrite length_fmap; lia).
    rewrite Hl.
    replace (length (heap s) + 1 - b) with (S (length (heap s) - b)) by lia.
    rewrite seqZ_S. f_equal. f_equal. lia.
  - lia.
Qed.

Lemma labels_inv_addNext b this sym x :
  preserves (labels_inv b) (addNext this sym x).
Proof.
  intros s H. destruct this as [a|]; [|exact H].
  rewrite addNext_run. simpl. destruct H as (Hb & Hl & Hc).
  unfold labels_inv. simpl. rewrite length_alter, label_alter_edge. auto.
Qed.

Lemma labels_inv_generateGraph b st i :
  preserves (labels_inv b) (generateGraph st i).
Proof.
  apply preserves_generateGraph.
  - apply labels_inv_new.
  - apply labels_inv_addNext.
Qed.

Lemma build_unfold st s :
  build st s
  = bind (generateGraph st (Some (length (heap s))))
         (fun accept_state => ret (length (heap s), accept_state))
         (mkStore (heap s ++ [mkState 0 []]) 0).
Proof. reflexivity. Qed.

Lemma labels_inv_build st s :
  labels_inv (length (heap s)) (snd (build st s)).
Proof.
  rewrite build_unfold.
  apply preserves_bind.
  - apply labels_inv_generateGraph.
  - intros a. apply preserves_ret.
  - unfold labels_inv. simpl. rewrite length_app, fmap_app. simpl.
    split; [lia|]. split; [|lia].
    rewrite drop_app_length' by (rewrite length_fmap; reflexivity).
    replace (length (heap s) + 1 - length (heap s)) with 1 by lia.
    reflexivity.
Qed.

(** C1: the labels of the states that one build allocates, taken in
    allocation order, are 0, 1, 2, ...: the first of them is the label 0 of the
    initial state that [build] returns, they are non-negative, strictly
    increasing and pairwise distinct.  This holds for every tree and whether
    the build returns or raises. *)
Theorem build_labels st s :
  let L := labels_allocated (build st) s in
  L = seqZ 0 (Z.of_nat (length L))
  /\ L !! 0 = Some 0%Z
  /\ (forall p a, fst (build st s) = Ok (p, a) ->
        label <$> heap (snd (build st s)) !! p = Some 0%Z)
  /\ Forall (fun l => (0 <= l)%Z) L
  /\ (forall j k a b, j < k -> L !! j = Some a -> L !! k = Some b -> (a < b)%Z)
  /\ NoDup L.
Proof.
  intros L.
  destruct (labels_inv_build st s) as (Hb & Hl & Hc).
  assert (HL : L = seqZ 0 (Z.of_nat (length L))).
  { subst L. unfold labels_allocated.
    rewrite fmap_drop, Hl. rewrite length_seqZ, Nat2Z.id. reflexivity. }
  assert (Hlen : 0 < length L).
  { subst L. unfold labels_allocated.
    rewrite length_fmap, length_drop. lia. }
  assert (H0 : L !! 0 = Some 0%Z).
  { rewrite HL. rewrite lookup_seqZ_lt by lia. reflexivity. }
  split; [exact HL|]. split; [exact H0|]. split; [|split; [|split]].
  - intros p a Hrun.
    assert (p = length (heap s)) as ->.
    { rewrite build_unfold in Hrun. unfold bind in Hrun.
      destruct (generateGraph st _ _) as [[v|e|] s1]; simpl in Hrun;
        inversion Hrun; reflexivity. }
    unfold L, labels_allocated in H0.
    rewrite list_lookup_fmap, lookup_drop in H0.
    rewrite Nat.add_0_r in H0. exact H0.
  - rewrite HL. apply Forall_seqZ. intros; lia.
  - intros j k a b Hjk Hj Hk. rewrite HL in Hj, Hk.
    apply lookup_seqZ in Hj, Hk. lia.
  - rewrite HL. apply NoDup_seqZ.
Qed.

(** ** Runs that return *)

Lemma returns_ret {A} (a : A) s (Q : A -> store -> Prop) :
  Q a s -> returns (ret a) s Q.
Proof. intros H. exists a, s. split; [reflexivity|exact H]. Qed.

Lemma returns_bind {A B} (m : M A) (k : A -> M B) s (Q : B -> store -> Prop) :
  returns m s (fun a s1 => returns (k a) s1 Q) -> returns (bind m k) s Q.
Proof.
  intros (a & s1 & Hm & b & s2 & Hk & HQ).
  exists b, s2. split; [|exact HQ]. rewrite (bind_Ok _ _ _ _ _ Hm). exact Hk.
Qed.

Lemma returns_mono {A} (m : M A) s (Q Q' : A -> store -> Prop) :
  returns m s Q -> (forall a s', Q a s' -> Q' a s') -> returns m s Q'.
Proof. intros (a & s' & Hm & HQ) H. exists a, s'. auto. Qed.

Lemma returns_new s (Q : addr -> store -> Prop) :
  Q (length (heap s))
    (mkStore (heap s ++ [mkState (counter s + 1) []]) (counter s + 1)) ->
  returns new_State_next_label s Q.
Proof. intros H. eexists _, _. split; [reflexivity|exact H]. Qed.

Lemma returns_addNext a sym y s (Q : unit -> store -> Prop) :
  Q tt (mkStore (alter (push_edge (mkEdge sym y)) a (heap s)) (counter s)) ->
  returns (addNext (Some a) sym y) s Q.
Proof. intros H. eexists _, _. split; [reflexivity|exact H]. Qed.

Lemma returns_inv {A} (m : M A) s (Q : A -> store -> Prop) a s' :
  returns m s Q -> m s = (Ok a, s') -> Q a s'.
Proof. intros (a0 & s0 & Hm & HQ) E. rewrite E in Hm. congruence. Qed.

(** ** How the builder grows the heap *)

Lemma push_edge_id st : mkState (label st) (next st ++ []) = st.
Proof. destruct st. simpl. rewrite app_nil_r. reflexivity. Qed.

Lemma extends_refl i h : extends i h h.
Proof.
  split; [lia|]. split; [auto|]. split.
  - intros st Hst. exists []. rewrite push_edge_id. split; [exact Hst|].
    intros e He. inversion He.
  - intros x st e Hx Hst. apply lookup_lt_Some in Hst. lia.
Qed.

Lemma extends_new i h hc l :
  extends i h hc -> extends i h (hc ++ [mkState l []]).
Proof.
  intros (Hlen & Hold & Hi & Hnew).
  split; [rewrite length_app; lia|]. split; [|split].
  - intros x Hx Hne. rewrite lookup_app_l by lia. auto.
  - intros st Hst. destruct (Hi st Hst) as (es & Hes & Hto).
    exists es. split.
    + rewrite lookup_app_l by (apply lookup_lt_Some in Hes; lia). exact Hes.
    + intros e He. specialize (Hto e He). rewrite length_app. simpl. lia.
  - intros x st e Hx Hst He. rewrite length_app. simpl.
    destruct (decide (x < length hc)) as [Hlt|Hge].
    + rewrite lookup_app_l in Hst by lia.
      specialize (Hnew x st e Hx Hst He). lia.
    + rewrite lookup_app_r in Hst by lia.
      destruct (x - length hc) as [|n]; simpl in Hst.
      * inversion Hst; subst. inversion He.
      * rewrite lookup_nil in Hst. discriminate.
Qed.

Lemma extends_addNext i h hc x sym y :
  extends i h hc -> i < length h -> x = i \/ length h <= x ->
  length h <= y < length hc ->
  extends i h (alter (push_edge (mkEdge sym y)) x hc).
Proof.
  intros (Hlen & Hold & Hi & Hnew) Hil Hx Hy.
  split; [rewrite length_alter; lia|]. split; [|split].
  - intros z Hz Hne. rewrite list_lookup_alter_ne by (destruct Hx; lia). auto.
  - intros st Hst. destruct (Hi st Hst) as (es & Hes & Hto).
    rewrite length_alter.
    destruct (decide (x = i)) as [->|Hne].
    + exists (es ++ [mkEdge sym y]). split.
      * rewrite list_lookup_alter_eq, Hes. simpl. unfold push_edge. simpl.
        rewrite app_assoc. reflexivity.
      * intros e He. apply elem_of_app in He. destruct He as [He|He]; auto.
        apply list_elem_of_singleton in He. subst e. simpl. exact Hy.
    + exists es. split; [|exact Hto].
      rewrite list_lookup_alter_ne by exact Hne. exact Hes.
  - intros z st e Hz Hst He. rewrite length_alter.
    destruct (decide (x = z)) as [->|Hne].
    + rewrite list_lookup_alter_eq in Hst.
      destruct (hc !! z) as [st0|] eqn:E; simpl in Hst; [|discriminate].
      inversion Hst; subst st. simpl in He.
      apply elem_of_app in He. destruct He as [He|He].
      * apply (Hnew z st0 e Hz E He).
      * apply list_elem_of_singleton in He. subst e. simpl. exact Hy.
    + rewrite list_lookup_alter_ne in Hst by exact Hne.
      apply (Hnew z st e Hz Hst He).
Qed.

Lemma extends_trans i j h h1 h2 :
  extends i h h1 -> extends j h1 h2 -> i < length h ->
  j = i \/ length h <= j ->
  extends i h h2.
Proof.
  intros (Hlen & Hold & Hi & Hnew) (Hlen' & Hold' & Hj & Hnew') Hil Hij.
  split; [lia|]. split; [|split].
  - intros x Hx Hne. rewrite Hold' by (destruct Hij; lia). auto.
  - intros st Hst. destruct (Hi st Hst) as (es & Hes & Hto).
    destruct (decide (j = i)) as [->|Hne].
    + destruct (Hj _ Hes) as (es' & Hes' & Hto'). simpl in Hes'.
      exists (es ++ es'). split.
      * rewrite Hes', app_assoc. reflexivity.
      * intros e He. apply elem_of_app in He. destruct He as [He|He].
        -- specialize (Hto e He). lia.
        -- specialize (Hto' e He). lia.
    + exists es. split.
      * rewrite Hold' by (apply lookup_lt_Some in Hes; lia || auto).
        exact Hes.
      * intros e He. specialize (Hto e He). lia.
  - intros x st e Hx Hst He.
    destruct (decide (x < length h1)) as [Hlt|Hge].
    + destruct (decide (x = j)) as [->|Hne].
      * destruct (lookup_lt_is_Some_2 h1 j Hlt) as [st1 Hst1].
        destruct (Hj _ Hst1) as (es' & Hes' & Hto').
        rewrite Hes' in Hst. inversion Hst; subst st. simpl in He.
        apply elem_of_app in He. destruct He as [He|He].
        -- specialize (Hnew j st1 e Hx Hst1 He). lia.
        -- specialize (Hto' e He). lia.
      * rewrite Hold' in Hst by lia.
        specialize (Hnew x st e Hx Hst He). lia.
    + specialize (Hnew' x st e ltac:(lia) Hst He). lia.
Qed.

Lemma count_transitions_app h1 h2 :
  count_transitions (h1 ++ h2) = count_transitions h1 + count_transitions h2.
Proof. apply sum_list_with_app. Qed.

Lemma count_transitions_push e x h :
  x < length h ->
  count_transitions (alter (push_edge e) x h) = S (count_transitions h).
Proof.
  revert x. induction h as [|st h IH]; intros x Hx; simpl in Hx; [lia|].
  destruct x as [|x].
  - unfold count_transitions. simpl. rewrite length_app. simpl. lia.
  - specialize (IH x ltac:(lia)). unfold count_transitions in *. simpl.
    change (list_alter (push_edge e) x h) with (alter (push_edge e) x h).
    rewrite IH. lia.
Qed.

Lemma grown_start i h : grown i h 0 0 h.
Proof. split; [apply extends_refl|]. split; lia. Qed.

Lemma grown_new i h k m hc l :
  grown i h k m hc -> grown i h (S k) m (hc ++ [mkState l []]).
Proof.
  intros (He & Hk & Hm). split; [apply extends_new, He|]. split.
  - rewrite length_app. simpl. lia.
  - rewrite count_transitions_app, Hm. unfold count_transitions. simpl. lia.
Qed.

Lemma grown_addNext i h k m hc x sym y :
  grown i h k m hc -> i < length h -> x = i \/ length h <= x ->
  x < length hc -> length h <= y < length hc ->
  grown i h k (S m) (alter (push_edge (mkEdge sym y)) x hc).
Proof.
  intros (He & Hk & Hm) Hi Hx Hxl Hy.
  split; [apply extends_addNext; assumption|]. split.
  - rewrite length_alter. exact Hk.
  - rewrite count_transitions_push by exact Hxl. lia.
Qed.

Lemma grown_sub i j h k m h1 k' m' h2 :
  grown i h k m h1 -> grown j h1 k' m' h2 -> i < length h ->
  j = i \/ length h <= j ->
  grown i h (k + k') (m + m') h2.
Proof.
  intros (He & Hk & Hm) (He' & Hk' & Hm') Hi Hj.
  split; [eapply extends_trans; eassumption|]. split; lia.
Qed.

Lemma grown_eq i h k m k' m' hc :
  grown i h k m hc -> k = k' -> m = m' -> grown i h k' m' hc.
Proof. intros H -> ->. exact H. Qed.

Lemma grown_length i h k m hc : grown i h k m hc -> length hc = length h + k.
Proof. intros (_ & H & _). exact H. Qed.

(** ** The construction rules, one by one *)

Lemma generateGraph_empty tx ps sb i :
  generateGraph (Node "empty" tx ps sb) i
  = (accept_state <- new_State_next_label ;;
     addNext i (Some epsilon) accept_state ;;;
     ret (Some accept_state)).
Proof. reflexivity. Qed.

Lemma generateGraph_text tx ps sb i :
  generateGraph (Node "text" tx ps sb) i
  = (accept_state <- new_State_next_label ;;
     addNext i tx accept_state ;;;
     ret (Some accept_state)).
Proof. reflexivity. Qed.

Lemma generateGraph_or tx l sb i :
  generateGraph (Node "or" tx (Some l) sb) i
  = (last_states <- or_loop generateGraph i l [] ;;
     accept_state <- new_State_next_label ;;
     for_of last_states
            (fun state => addNext state (Some epsilon) accept_state) ;;;
     ret (Some accept_state)).
Proof. reflexivity. Qed.

Lemma generateGraph_cat tx l sb i :
  generateGraph (Node "cat" tx (Some l) sb) i = cat_loop generateGraph i l.
Proof. reflexivity. Qed.

Lemma generateGraph_star tx ps x i :
  generateGraph (Node "star" tx ps (Some x)) i
  = (temp_initial_state <- new_State_next_label ;;
     addNext i (Some epsilon) temp_initial_state ;;;
     temp_accept_state <- generateGraph x (Some temp_initial_state) ;;
     addNext temp_accept_state (Some epsilon) temp_initial_state ;;;
     accept_state <- new_State_next_label ;;
     addNext temp_accept_state (Some epsilon) accept_state ;;;
     addNext i (Some epsilon) accept_state ;;;
     ret (Some accept_state)).
Proof. reflexivity. Qed.

Lemma generateGraph_plus tx ps x i :
  generateGraph (Node "plus" tx ps (Some x)) i
  = (temp_initial_state <- new_State_next_label ;;
     addNext i (Some epsilon) temp_initial_state ;;;
     temp_accept_state <- generateGraph x (Some temp_initial_state) ;;
     addNext temp_accept_state (Some epsilon) temp_initial_state ;;;
     accept_state <- new_State_next_label ;;
     addNext temp_accept_state (Some epsilon) accept_state ;;;
     ret (Some accept_state)).
Proof. reflexivity. Qed.

Lemma generateGraph_optional tx ps x i :
  generateGraph (Node "optional" tx ps (Some x)) i
  = (temp_initial_state <- new_State_next_label ;;
     addNext i (Some epsilon) temp_initial_state ;;;
     temp_accept_state <- generateGraph x (Some temp_initial_state) ;;
     accept_state <- new_State_next_label ;;
     addNext temp_accept_state (Some epsilon) accept_state ;;;
     addNext i (Some epsilon) accept_state ;;;
     ret (Some accept_state)).
Proof. reflexivity. Qed.

Lemma kind_cases ty :
  ty = "empty" \/ ty = "text" \/ ty = "or" \/ ty = "cat" \/ ty = "star"
  \/ ty = "plus" \/ ty = "optional" \/ documented_kind ty = false.
Proof.
  unfold documented_kind.
  destruct (String.eqb_spec ty "empty"); [tauto|].
  destruct (String.eqb_spec ty "text"); [tauto|].
  destruct (String.eqb_spec ty "or"); [tauto|].
  destruct (String.eqb_spec ty "cat"); [tauto|].
  destruct (String.eqb_spec ty "star"); [tauto|].
  destruct (String.eqb_spec ty "plus"); [tauto|].
  destruct (String.eqb_spec ty "optional"); [tauto|].
  do 7 right. reflexivity.
Qed.

Lemma shaped_documented ty tx ps sb :
  shaped (Node ty tx ps sb) = true -> documented_kind ty = true.
Proof.
  simpl. unfold documented_kind.
  destruct (String.eqb ty "empty"), (String.eqb ty "text"),
    (String.eqb ty "or"), (String.eqb ty "cat"), (String.eqb ty "star"),
    (String.eqb ty "plus"), (String.eqb ty "optional"); simpl; congruence.
Qed.

(** ** The builder on trees of the trusted shape *)



Lemma for_of_addNext_grown i h y ls :
  forall k m s,
    Forall (new_state h (heap s)) ls ->
    grown i h k m (heap s) -> i < length h ->
    length h <= y < length (heap s) ->
    returns (for_of ls (fun state => addNext state (Some epsilon) y)) s
            (fun _ s' => grown i h k (m + length ls) (heap s')).
Proof.
  induction ls as [|v ls IH]; intros k m s Hls Hg Hi Hy; simpl.
  - apply returns_ret. eapply grown_eq; [exact Hg|lia|lia].
  - inversion Hls as [|? ? (a & -> & Ha) Hls']; subst.
    apply returns_bind, returns_addNext.
    eapply returns_mono.
    + apply (IH k (S m)); simpl.
      * eapply Forall_impl; [exact Hls'|].
        intros v (b & -> & Hb). exists b. rewrite length_alter. auto.
      * apply grown_addNext; auto; lia.
      * exact Hi.
      * rewrite length_alter. exact Hy.
    + intros u s' Hs'. eapply grown_eq; [exact Hs'|lia|lia].
Qed.

Lemma or_loop_grown ps :
  Forall builds ps -> forallb shaped ps = true ->
  forall i h k m acc s,
    grown i h k m (heap s) -> i < length h ->
    Forall (new_state h (heap s)) acc ->
    returns (or_loop generateGraph (Some i) ps acc) s
            (fun ls s' =>
               grown i h (k + sum_list_with (fun p => S (states_of p)) ps)
                     (m + sum_list_with (fun p => S (transitions_of p)) ps)
                     (heap s')
               /\ Forall (new_state h (heap s')) ls
               /\ length ls = length acc + length ps).
Proof.
  induction 1 as [|p ps Hp _ IH]; intros Hsh i h k m acc s Hg Hi Hacc; simpl.
  - apply returns_ret. split; [|split; [exact Hacc|lia]].
    eapply grown_eq; [exact Hg|lia|lia].
  - simpl in Hsh. apply andb_prop in Hsh. destruct Hsh as [Hshp Hshps].
    pose proof (grown_length _ _ _ _ _ Hg) as Hlen.
    apply returns_bind, returns_new.
    apply returns_bind, returns_addNext. simpl.
    apply returns_bind.
    set (s1 := mkStore _ _).
    assert (Hg1 : grown i h (S k) (S m) (heap s1)).
    { subst s1. simpl. apply grown_addNext; auto.
      - apply grown_new, Hg.
      - rewrite length_app. simpl. lia.
      - rewrite length_app. simpl. lia. }
    assert (Hl1 : length (heap s1) = S (length (heap s))).
    { subst s1. simpl. rewrite length_alter, length_app. simpl. lia. }
    eapply returns_mono.
    + apply (Hp Hshp (length (heap s)) s1). lia.
    + intros v s2 (a & -> & (Hg2 & Ha & Hal & _)).
      pose proof (grown_length _ _ _ _ _ Hg2) as Hlen2.
      eapply returns_mono.
      * apply (IH Hshps i h (S k + states_of p) (S m + transitions_of p)).
        -- eapply grown_sub; [exact Hg1|exact Hg2|exact Hi|]. right. lia.
        -- exact Hi.
        -- apply Forall_app. split.
           ++ eapply Forall_impl; [exact Hacc|].
              intros v (b & -> & Hb). exists b. split; [reflexivity|]. lia.
           ++ constructor; [|constructor]. exists a.
              split; [reflexivity|]. lia.
      * intros ls s3 (Hg3 & Hls & Hll). split; [|split; [exact Hls|]].
        -- eapply grown_eq; [exact Hg3|lia|lia].
        -- rewrite Hll, length_app. simpl. lia.
Qed.

Lemma cat_loop_grown ps :
  Forall builds ps -> forallb shaped ps = true ->
  forall i h k m j s,
    grown i h k m (heap s) -> i < length h ->
    j = i \/ length h <= j -> j < length (heap s) ->
    returns (cat_loop generateGraph (Some j) ps) s
            (fun v s' =>
               exists a,
                 v = Some a
                 /\ grown i h (k + sum_list_with states_of ps)
                          (m + sum_list_with transitions_of ps) (heap s')
                 /\ (a = i \/ length h <= a)
                 /\ a < length (heap s')
                 /\ (S j = length (heap s) -> S a = length (heap s'))).
Proof.
  induction 1 as [|p ps Hp _ IH]; intros Hsh i h k m j s Hg Hi Hj Hjl; simpl.
  - apply returns_ret. exists j. split; [reflexivity|].
    split; [eapply grown_eq; [exact Hg|lia|lia]|]. auto.
  - simpl in Hsh. apply andb_prop in Hsh. destruct Hsh as [Hshp Hshps].
    pose proof (grown_length _ _ _ _ _ Hg) as Hlen.
    apply returns_bind.
    eapply returns_mono; [apply (Hp Hshp j s Hjl)|].
    intros v s1 (a & -> & (Hg1 & Ha & Hal & Hlast)).
    pose proof (grown_length _ _ _ _ _ Hg1) as Hlen1.
    eapply returns_mono.
    + apply (IH Hshps i h (k + states_of p) (m + transitions_of p) a s1).
      * eapply grown_sub; [exact Hg|exact Hg1|exact Hi|exact Hj].
      * exact Hi.
      * destruct Ha as [->|Ha]; [exact Hj|]. right. lia.
      * exact Hal.
    + intros v s2 (b & -> & Hg2 & Hb & Hbl & Hlast2).
      exists b. split; [reflexivity|].
      split; [eapply grown_eq; [exact Hg2|lia|lia]|].
      split; [exact Hb|]. split; [exact Hbl|]. auto.
Qed.

Lemma new_state_alter h hc f x v :
  new_state h hc v -> new_state h (alter f x hc) v.
Proof. intros (a & -> & Ha). exists a. rewrite length_alter. auto. Qed.

Lemma generateGraph_repetition ty tx ps x i :
  ty = "star" \/ ty = "plus" \/ ty = "optional" ->
  generateGraph (Node ty tx ps (Some x)) i
  = repetition (String.eqb ty "star" || String.eqb ty "plus")
               (String.eqb ty "star" || String.eqb ty "optional") x i.
Proof. intros [-> | [-> | ->]]; reflexivity. Qed.

Lemma repetition_grown loop bypass x :
  builds x -> shaped x = true ->
  forall i s, i < length (heap s) ->
    returns (repetition loop bypass x (Some i)) s
            (fun v s' =>
               exists a,
                 v = Some a
                 /\ grown i (heap s) (states_of x + 2)
                          (transitions_of x + 2
                           + (if loop then 1 else 0)
                           + (if bypass then 1 else 0)) (heap s')
                 /\ length (heap s) <= a /\ S a = length (heap s')).
Proof.
  intros Hx Hsh i s Hi. unfold repetition.
  apply returns_bind, returns_new, returns_bind, returns_addNext. simpl.
  apply returns_bind.
  set (s1 := mkStore _ _).
  assert (Hg1 : grown i (heap s) 1 1 (heap s1)).
  { subst s1. simpl. apply grown_addNext; auto.
    - apply grown_new, grown_start.
    - rewrite length_app. simpl. lia.
    - rewrite length_app. simpl. lia. }
  pose proof (grown_length _ _ _ _ _ Hg1) as Hl1.
  eapply returns_mono; [apply (Hx Hsh (length (heap s)) s1); lia|].
  intros v s2 (a & -> & (Hg2 & Ha & Hal & _)).
  pose proof (grown_length _ _ _ _ _ Hg2) as Hl2.
  assert (Hg2' : grown i (heap s) (1 + states_of x) (1 + transitions_of x)
                       (heap s2)).
  { eapply grown_sub; [exact Hg1|exact Hg2|exact Hi|]. right. lia. }
  assert (Ha' : length (heap s) <= a) by lia.
  apply returns_bind.
  assert (Hloop :
            returns (if loop
                     then addNext (Some a) (Some epsilon) (length (heap s))
                     else ret tt) s2
                    (fun _ s3 =>
                       grown i (heap s) (1 + states_of x)
                             (1 + transitions_of x + (if loop then 1 else 0))
                             (heap s3))).
  { destruct loop.
    - apply returns_addNext. simpl.
      eapply grown_eq; [apply grown_addNext; eauto; lia|lia|lia].
    - apply returns_ret. eapply grown_eq; [exact Hg2'|lia|lia]. }
  eapply returns_mono; [exact Hloop|]. clear Hloop.
  intros u s3 Hg3.
  pose proof (grown_length _ _ _ _ _ Hg3) as Hl3.
  apply returns_bind, returns_new, returns_bind, returns_addNext. simpl.
  set (s4 := mkStore _ _).
  assert (Hg4 : grown i (heap s) (2 + states_of x)
                      (2 + transitions_of x + (if loop then 1 else 0))
                      (heap s4)).
  { subst s4. simpl.
    eapply grown_eq; [apply grown_addNext; [apply grown_new, Hg3|..]|lia|lia];
      try rewrite length_app; simpl; auto; lia. }
  pose proof (grown_length _ _ _ _ _ Hg4) as Hl4.
  assert (Hl34 : length (heap s4) = S (length (heap s3))).
  { subst s4. simpl. rewrite length_alter, length_app. simpl. lia. }
  clearbody s4.
  apply returns_bind.
  assert (Hbypass :
            returns (if bypass
                     then addNext (Some i) (Some epsilon) (length (heap s3))
                     else ret tt) s4
                    (fun _ s5 =>
                       grown i (heap s) (states_of x + 2)
                             (transitions_of x + 2
                              + (if loop then 1 else 0)
                              + (if bypass then 1 else 0))
                             (heap s5))).
  { destruct bypass.
    - apply returns_addNext. simpl.
      eapply grown_eq; [apply grown_addNext; eauto; lia|lia|lia].
    - apply returns_ret. eapply grown_eq; [exact Hg4|lia|lia]. }
  eapply returns_mono; [exact Hbypass|]. clear Hbypass.
  intros u' s5 Hg5.
  pose proof (grown_length _ _ _ _ _ Hg5) as Hl5.
  apply returns_ret. eexists. split; [reflexivity|].
  split; [exact Hg5|]. lia.
Qed.

Lemma generateGraph_built t : builds t.
Proof.
  induction t as [ty tx ps sb IHps IHsb] using node_induction.
  intros Hsh i s Hi.
  pose proof (shaped_documented _ _ _ _ Hsh) as Hdoc.
  destruct (kind_cases ty)
    as [-> | [-> | [-> | [-> | [-> | [-> | [-> | Hno]]]]]]]; [..|congruence].
  - (* empty *)
    rewrite generateGraph_empty.
    apply returns_bind, returns_new, returns_bind, returns_addNext.
    apply returns_ret. simpl. eexists; split; [reflexivity|].
    unfold built. simpl. rewrite length_alter, length_app. simpl.
    split; [|lia].
    apply grown_addNext; [apply grown_new, grown_start|..];
      try rewrite length_app; simpl; auto; try lia.
  - (* text *)
    rewrite generateGraph_text.
    apply returns_bind, returns_new, returns_bind, returns_addNext.
    apply returns_ret. simpl. eexists; split; [reflexivity|].
    unfold built. simpl. rewrite length_alter, length_app. simpl.
    split; [|lia].
    apply grown_addNext; [apply grown_new, grown_start|..];
      try rewrite length_app; simpl; auto; try lia.
  - (* or *)
    destruct ps as [l|]; [|discriminate]. simpl in IHps, Hsh.
    rewrite generateGraph_or.
    apply returns_bind.
    eapply returns_mono.
    { apply (or_loop_grown l IHps Hsh i (heap s) 0 0 [] s);
        [apply grown_start|exact Hi|constructor]. }
    intros ls s1 (Hg1 & Hls & Hll). simpl in Hg1, Hll.
    pose proof (grown_length _ _ _ _ _ Hg1) as Hlen1.
    apply returns_bind, returns_new, returns_bind.
    eapply returns_mono.
    { eapply (for_of_addNext_grown i (heap s) (length (heap s1)) ls); simpl.
      - eapply Forall_impl; [exact Hls|].
        intros v (a & -> & Ha). exists a. rewrite length_app. simpl.
        split; [reflexivity|lia].
      - apply grown_new, Hg1.
      - exact Hi.
      - rewrite length_app. simpl. lia. }
    intros u s2 Hg2. apply returns_ret.
    pose proof (grown_length _ _ _ _ _ Hg2) as Hlen2.
    eexists; split; [reflexivity|].
    unfold built. split; [|lia].
    eapply grown_eq; [exact Hg2|simpl; lia|].
    simpl. rewrite Hll. clear.
    induction l as [|p l IH]; simpl; lia.
  - (* cat *)
    destruct ps as [l|]; [|discriminate]. simpl in IHps, Hsh.
    rewrite generateGraph_cat.
    eapply returns_mono.
    { apply (cat_loop_grown l IHps Hsh i (heap s) 0 0 i s);
        [apply grown_start|exact Hi|auto|exact Hi]. }
    intros v s1 (a & -> & Hg1 & Ha & Hal & Hlast).
    exists a. split; [reflexivity|]. unfold built. auto.
  - (* star *)
    destruct sb as [x|]; [|discriminate]. simpl in IHsb, Hsh.
    rewrite generateGraph_repetition by auto.
    eapply returns_mono; [apply (repetition_grown _ _ x IHsb Hsh i s Hi)|].
    intros v s1 (a & -> & Hg & Ha & Hal).
    exists a. split; [reflexivity|]. unfold built.
    split; [|lia]. eapply grown_eq; [exact Hg|reflexivity|simpl; lia].
  - (* plus *)
    destruct sb as [x|]; [|discriminate]. simpl in IHsb, Hsh.
    rewrite generateGraph_repetition by auto.
    eapply returns_mono; [apply (repetition_grown _ _ x IHsb Hsh i s Hi)|].
    intros v s1 (a & -> & Hg & Ha & Hal).
    exists a. split; [reflexivity|]. unfold built.
    split; [|lia]. eapply grown_eq; [exact Hg|reflexivity|simpl; lia].
  - (* optional *)
    destruct sb as [x|]; [|discriminate]. simpl in IHsb, Hsh.
    rewrite generateGraph_repetition by auto.
    eapply returns_mono; [apply (repetition_grown _ _ x IHsb Hsh i s Hi)|].
    intros v s1 (a & -> & Hg & Ha & Hal).
    exists a. split; [reflexivity|]. unfold built.
    split; [|lia]. eapply grown_eq; [exact Hg|reflexivity|simpl; lia].
Qed.

(** ** The accept state of a build *)

Lemma build_returns t s :
  shaped t = true ->
  exists a s',
    build t s = (Ok (length (heap s), Some a), s')
    /\ built t (length (heap s)) (mkStore (heap s ++ [mkState 0 []]) 0) a s'.
Proof.
  intros Hsh.
  destruct (generateGraph_built t Hsh (length (heap s))
              (mkStore (heap s ++ [mkState 0 []]) 0))
    as (v & s' & Hrun & a & -> & Hb).
  { simpl. rewrite length_app. simpl. lia. }
  exists a, s'. split; [|exact Hb].
  rewrite build_unfold. rewrite (bind_Ok _ _ _ _ _ Hrun). reflexivity.
Qed.

(** C9: on a tree of the trusted shape the build returns, and its accept state
    is the state allocated last; its label is the number of states the build
    allocated minus one, and no state of the build has a larger label. *)
Theorem build_accept_label t s :
  shaped t = true ->
  exists a s',
    build t s = (Ok (length (heap s), Some a), s')
    /\ S a = length (heap s')
    /\ label <$> heap s' !! a
       = Some (Z.of_nat (states_allocated (build t) s) - 1)%Z
    /\ length (labels_allocated (build t) s) = states_allocated (build t) s
    /\ Forall (fun l => (l <= Z.of_nat (states_allocated (build t) s) - 1)%Z)
              (labels_allocated (build t) s).
Proof.
  intros Hsh.
  destruct (build_returns t s Hsh) as (a & s' & Hrun & Hg & Ha & Hal & Hlast).
  simpl in Hg, Ha, Hlast. rewrite length_app in Hlast. simpl in Hlast.
  specialize (Hlast ltac:(lia)).
  pose proof (grown_length _ _ _ _ _ Hg) as Hlen.
  rewrite length_app in Hlen. simpl in Hlen.
  pose proof (labels_inv_build t s) as (Hb & Hl & Hc).
  unfold states_allocated, labels_allocated.
  rewrite Hrun in *. simpl in *.
  exists a, s'. split; [reflexivity|]. split; [exact Hlast|].
  assert (HL : label <$> drop (length (heap s)) (heap s')
               = seqZ 0 (Z.of_nat (length (heap s') - length (heap s)))).
  { rewrite fmap_drop. exact Hl. }
  split; [|split].
  - assert (E : a = length (heap s) + (a - length (heap s))) by lia.
    rewrite E at 1. rewrite <- lookup_drop, <- list_lookup_fmap, HL.
    rewrite lookup_seqZ_lt by lia. f_equal. lia.
  - rewrite length_fmap, length_drop. reflexivity.
  - rewrite HL. apply Forall_seqZ. intros; lia.
Qed.

Lemma build_accept_label_witness :
  shaped (cat_node [text_node "a"; star_node (text_node "b")]) = true
  /\ exists a s',
      build (cat_node [text_node "a"; star_node (text_node "b")]) empty_store
      = (Ok (0, Some a), s')
      /\ S a = length (heap s')
      /\ label <$> heap s' !! a
         = Some (Z.of_nat
                   (states_allocated
                      (build (cat_node [text_node "a";
                                        star_node (text_node "b")]))
                      empty_store) - 1)%Z.
Proof.
  split; [reflexivity|].
  destruct (build_accept_label
              (cat_node [text_node "a"; star_node (text_node "b")])
              empty_store) as (a & s' & H1 & H2 & H3 & _); [reflexivity|].
  exists a, s'. auto.
Defined.

(** ** What a construct allocates *)

Lemma generateGraph_sizes t :
  shaped t = true ->
  forall i s, i < length (heap s) ->
    (exists a, fst (generateGraph t (Some i) s) = Ok (Some a))
    /\ states_allocated (generateGraph t (Some i)) s = states_of t
    /\ transitions_created (generateGraph t (Some i)) s = transitions_of t.
Proof.
  intros Hsh i s Hi.
  destruct (generateGraph_built t Hsh i s Hi)
    as (v & s' & Hrun & a & -> & (He & Hk & Hm) & _).
  unfold states_allocated, transitions_created. rewrite Hrun. simpl.
  split; [eauto|]. lia.
Qed.


(** ** The traversals read and never write *)

Lemma readonly_ret {A} (a : A) : readonly (ret a).
Proof. intros s. reflexivity. Qed.

Lemma readonly_throw {A} e : readonly (@throw A e).
Proof. intros s. reflexivity. Qed.

Lemma readonly_diverge {A} : readonly (@diverge A).
Proof. intros s. reflexivity. Qed.

Lemma readonly_bind {A B} (m : M A) (k : A -> M B) :
  readonly m -> (forall a, readonly (k a)) -> readonly (bind m k).
Proof.
  intros Hm Hk s. unfold bind. specialize (Hm s).
  destruct (m s) as [[a|e|] s1]; simpl in *; subst; [apply Hk|..]; reflexivity.
Qed.

Lemma readonly_for_fold {A B} (xs : list A) (body : A -> B -> M B) :
  (forall x acc, readonly (body x acc)) ->
  forall acc, readonly (for_fold xs acc body).
Proof.
  intros Hb. induction xs as [|x xs IH]; intros acc; simpl.
  - apply readonly_ret.
  - apply readonly_bind; auto.
Qed.

Lemma readonly_get_next x : readonly (get_next x).
Proof. intros s. unfold get_next. destruct (heap s !! x); reflexivity. Qed.

Lemma readonly_get_label x : readonly (get_label x).
Proof. intros s. unfold get_label. destruct (heap s !! x); reflexivity. Qed.

Lemma readonly_budget : readonly budget.
Proof. intros s. reflexivity. Qed.

Lemma readonly_Enclosure_DFS fuel sym :
  forall x V, readonly (Enclosure.DFS fuel sym x V).
Proof.
  induction fuel as [|fuel IH]; intros x V; simpl.
  - apply readonly_diverge.
  - destruct (Set_has x V); [apply readonly_ret|].
    apply readonly_bind; [apply readonly_get_next|]. intros edges.
    apply readonly_for_fold. intros e acc.
    destruct (symbol_eq (symbol e) sym); [apply IH|apply readonly_ret].
Qed.

Lemma readonly_Cytograph_DFS fuel :
  forall x vs, readonly (Cytograph.DFS fuel x vs).
Proof.
  induction fuel as [|fuel IH]; intros x vs; simpl.
  - apply readonly_diverge.
  - destruct (Set_has x (fst vs)); [apply readonly_ret|].
    apply readonly_bind; [apply readonly_get_label|]. intros l.
    apply readonly_bind; [apply readonly_get_next|]. intros edges.
    apply readonly_for_fold. intros e acc.
    apply readonly_bind; [apply readonly_get_label|]. intros l1.
    apply readonly_bind; [apply readonly_get_label|]. intros l2.
    apply IH.
Qed.

Lemma readonly_enclosure T sym : readonly (enclosure T sym).
Proof.
  unfold enclosure. apply readonly_bind; [apply readonly_budget|].
  intros fuel. destruct T as [x|l].
  - apply readonly_Enclosure_DFS.
  - apply readonly_for_fold. intros x acc. apply readonly_Enclosure_DFS.
Qed.

Lemma readonly_cytograph this : readonly (cytograph this).
Proof.
  unfold cytograph. apply readonly_bind; [apply readonly_budget|].
  intros fuel. apply readonly_bind; [apply readonly_Cytograph_DFS|].
  intros vs. apply readonly_ret.
Qed.

(** C10: whatever they are given and however they end, [enclosure] and
    [cytograph] leave the store as it was: every state keeps its label and its
    list of transitions. *)
Theorem traversals_read_only T sym this s :
  snd (enclosure T sym s) = s
  /\ snd (cytograph this s) = s
  /\ (forall x,
        label <$> heap (snd (enclosure T sym s)) !! x = label <$> heap s !! x
        /\ next <$> heap (snd (enclosure T sym s)) !! x = next <$> heap s !! x
        /\ label <$> heap (snd (cytograph this s)) !! x = label <$> heap s !! x
        /\ next <$> heap (snd (cytograph this s)) !! x = next <$> heap s !! x).
Proof.
  pose proof (readonly_enclosure T sym s) as He.
  pose proof (readonly_cytograph this s) as Hc.
  split; [exact He|]. split; [exact Hc|].
  intros x. rewrite He, Hc. auto.
Qed.

(** ** Depth-first discovery *)

Section VisitFacts.
Variable succs : addr -> list addr.

Lemma Set_has_true x V : Set_has x V = true <-> x ∈ V.
Proof. unfold Set_has. apply bool_decide_eq_true. Qed.

Lemma Set_has_false x V : Set_has x V = false <-> x ∉ V.
Proof. unfold Set_has. apply bool_decide_eq_false. Qed.

Lemma Set_add_new x V : x ∉ V -> Set_add x V = V ++ [x].
Proof.
  intros H. unfold Set_add. apply Set_has_false in H. rewrite H. reflexivity.
Qed.

Lemma visit_all_app go ys zs V :
  visit_all go (ys ++ zs) V
  = match visit_all go ys V with
    | Some V' => visit_all go zs V'
    | None => None
    end.
Proof.
  revert V. induction ys as [|y ys IH]; intros V; simpl; [reflexivity|].
  destruct (go y V); [apply IH|reflexivity].
Qed.

Lemma visit_seen fuel x V : x ∈ V -> visit succs (S fuel) x V = Some V.
Proof. intros H. simpl. apply Set_has_true in H. rewrite H. reflexivity. Qed.

Lemma visit_all_seen fuel ys V :
  (forall y, y ∈ ys -> y ∈ V) ->
  visit_all (visit succs (S fuel)) ys V = Some V.
Proof.
  induction ys as [|y ys IH]; intros H; [reflexivity|].
  cbn [visit_all]. rewrite visit_seen by (apply H; left).
  apply IH. intros z Hz. apply H. right. exact Hz.
Qed.

Lemma discovered_all go ys :
  (forall y V V', go y V = Some V' -> discovered succs [y] V V') ->
  forall V V', visit_all go ys V = Some V' -> discovered succs ys V V'.
Proof.
  intros Hgo. induction ys as [|y ys IH]; intros V V' H; simpl in H.
  - inversion H; subst. exists []. rewrite app_nil_r.
    split; [reflexivity|]. split; [auto|].
    split; [intros z Hz; inversion Hz|].
    split; intros z; [|intros w]; intros Hz; inversion Hz.
  - destruct (go y V) as [V1|] eqn:E; [|discriminate].
    destruct (Hgo _ _ _ E) as (D1 & -> & Hnd1 & Hin1 & Hr1 & Hc1).
    destruct (IH _ _ H) as (D2 & -> & Hnd2 & Hin2 & Hr2 & Hc2).
    exists (D1 ++ D2). split; [rewrite app_assoc; reflexivity|].
    split; [auto|]. split; [|split].
    + intros z Hz. apply elem_of_cons in Hz. destruct Hz as [->|Hz].
      * apply elem_of_app. left. apply Hin1. left.
      * apply Hin2. exact Hz.
    + intros z Hz. apply elem_of_app in Hz. destruct Hz as [Hz|Hz].
      * destruct (Hr1 z Hz) as (r & Hr & Hrz).
        apply list_elem_of_singleton in Hr. subst r.
        exists y. split; [left|exact Hrz].
      * destruct (Hr2 z Hz) as (r & Hr & Hrz).
        exists r. split; [right; exact Hr|exact Hrz].
    + intros z w Hz Hw. apply elem_of_app in Hz. destruct Hz as [Hz|Hz].
      * apply elem_of_app. left. apply (Hc1 z w Hz Hw).
      * apply (Hc2 z w Hz Hw).
Qed.

Lemma discovered_visit fuel :
  forall x V V', visit succs fuel x V = Some V' -> discovered succs [x] V V'.
Proof.
  induction fuel as [|fuel IH]; intros x V V' H; simpl in H; [discriminate|].
  destruct (Set_has x V) eqn:E.
  - inversion H; subst. apply Set_has_true in E.
    exists []. rewrite app_nil_r. split; [reflexivity|]. split; [auto|].
    split.
    + intros z Hz. apply list_elem_of_singleton in Hz. subst z. exact E.
    + split; intros z; [|intros w]; intros Hz; inversion Hz.
  - apply Set_has_false in E. rewrite Set_add_new in H by exact E.
    destruct (discovered_all _ _ IH _ _ H) as (D & -> & Hnd & Hin & Hr & Hc).
    exists (x :: D). split; [rewrite <- app_assoc; reflexivity|].
    split; [|split; [|split]].
    + intros HV. apply Hnd. apply NoDup_app. split; [exact HV|].
      split; [|apply NoDup_singleton].
      intros z Hz Hz'. apply list_elem_of_singleton in Hz'. subst z. auto.
    + intros z Hz. apply list_elem_of_singleton in Hz. subst z.
      apply elem_of_app. left. apply elem_of_app. right. left.
    + intros z Hz. exists x. split; [left|].
      apply elem_of_cons in Hz. destruct Hz as [->|Hz]; [apply rtc_refl|].
      destruct (Hr z Hz) as (r & Hr' & Hrz).
      eapply rtc_l; [exact Hr'|exact Hrz].
    + intros z w Hz Hw. apply elem_of_cons in Hz. destruct Hz as [->|Hz].
      * apply Hin. exact Hw.
      * apply (Hc z w Hz Hw).
Qed.

Lemma visit_first fuel x V V' :
  visit succs fuel x V = Some V' ->
  (x ∈ V /\ V' = V) \/ ((x ∉ V) /\ exists D, V' = V ++ (x :: D)).
Proof.
  destruct fuel as [|fuel]; simpl; [discriminate|].
  destruct (Set_has x V) eqn:E; intros H.
  - left. apply Set_has_true in E. inversion H; subst. auto.
  - right. apply Set_has_false in E. split; [exact E|].
    rewrite Set_add_new in H by exact E.
    destruct (discovered_all _ _ (discovered_visit fuel) _ _ H)
      as (D & -> & _).
    exists D. rewrite <- app_assoc. reflexivity.
Qed.

(** Visiting again what a traversal appended appends the same, in the same
    order. *)
Lemma visit_all_again fuel ys :
  forall V D,
    visit_all (visit succs fuel) ys V = Some (V ++ D) ->
    visit_all (visit succs fuel) D V = Some (V ++ D).
Proof.
  induction ys as [|y ys IH]; intros V D H; simpl in H.
  - assert (E : V ++ [] = V ++ D) by (rewrite app_nil_r; congruence).
    apply app_inv_head in E. subst D. exact H.
  - destruct (visit succs fuel y V) as [V1|] eqn:E; [|discriminate].
    destruct (discovered_all _ _ (discovered_visit fuel) _ _ H)
      as (D2 & E2 & _).
    destruct fuel as [|fuel]; [discriminate|].
    destruct (visit_first _ _ _ _ E) as [[Hy ->]|[Hy [D1 ->]]].
    + apply IH. exact H.
    + rewrite <- app_assoc in E2. apply app_inv_head in E2. subst D.
      change (y :: D1 ++ D2) with (y :: (D1 ++ D2)).
      cbn [app visit_all]. rewrite E. rewrite visit_all_app.
      rewrite visit_all_seen.
      * specialize (IH (V ++ (y :: D1)) D2).
        rewrite <- app_assoc in IH. apply IH. exact H.
      * intros z Hz. apply elem_of_app. right. right. exact Hz.
Qed.

Lemma visit_all_more (go go' : addr -> list addr -> option (list addr)) ys :
  (forall y V V', go y V = Some V' -> go' y V = Some V') ->
  forall V V', visit_all go ys V = Some V' -> visit_all go' ys V = Some V'.
Proof.
  intros Hgo. induction ys as [|y ys IH]; intros V V' H; simpl in *; auto.
  destruct (go y V) as [V1|] eqn:E; [|discriminate].
  rewrite (Hgo _ _ _ E). auto.
Qed.

(** More budget does not change a result. *)
Lemma visit_more fuel :
  forall fuel' x V V',
    visit succs fuel x V = Some V' -> fuel <= fuel' ->
    visit succs fuel' x V = Some V'.
Proof.
  induction fuel as [|fuel IH]; intros fuel' x V V' H Hle; [discriminate|].
  destruct fuel' as [|fuel']; [lia|]. simpl in *.
  destruct (Set_has x V); [exact H|].
  eapply visit_all_more; [|exact H].
  intros y V1 V2 Hy. apply (IH fuel'); [exact Hy|lia].
Qed.

(** In a graph of [n] states, a budget above the number of states not yet
    visited is enough. *)
Variable n : nat.
Hypothesis succs_inside : forall x y, x < n -> y ∈ succs x -> y < n.

Lemma inside_length (V : list addr) :
  NoDup V -> (forall y, y ∈ V -> y < n) -> length V <= n.
Proof.
  intros Hnd Hin.
  assert (H : V ⊆+ seq 0 n).
  { apply NoDup_submseteq; [exact Hnd|].
    intros y Hy. apply elem_of_seq. specialize (Hin y Hy). lia. }
  apply submseteq_length in H. rewrite length_seq in H. exact H.
Qed.


Lemma visit_all_total go ys fuel :
  (forall y V, y < n -> inside n V -> n < fuel + length V ->
     exists V', go y V = Some V' /\ inside n V' /\ length V <= length V') ->
  (forall y, y ∈ ys -> y < n) ->
  forall V, inside n V -> n < fuel + length V ->
    exists V', visit_all go ys V = Some V' /\ inside n V'
               /\ length V <= length V'.
Proof.
  intros Hgo. induction ys as [|y ys IH]; intros Hys V HV Hf; simpl.
  - exists V. auto.
  - destruct (Hgo y V) as (V1 & E & HV1 & Hl1); auto.
    { apply Hys. left. }
    rewrite E. destruct (IH ltac:(intros z Hz; apply Hys; right; exact Hz)
                            V1 HV1 ltac:(lia)) as (V' & E' & HV' & Hl').
    exists V'. split; [exact E'|]. split; [exact HV'|lia].
Qed.

Lemma visit_total fuel :
  forall x V, x < n -> inside n V -> n < fuel + length V ->
    exists V', visit succs fuel x V = Some V' /\ inside n V'
               /\ length V <= length V'.
Proof.
  induction fuel as [|fuel IH]; intros x V Hx HV Hf.
  - destruct HV as [Hnd Hin]. pose proof (inside_length V Hnd Hin). lia.
  - simpl. destruct (Set_has x V) eqn:E; [exists V; auto|].
    apply Set_has_false in E. rewrite Set_add_new by exact E.
    assert (HV1 : inside n (V ++ [x])).
    { destruct HV as [Hnd Hin]. split.
      - apply NoDup_app. split; [exact Hnd|]. split; [|apply NoDup_singleton].
        intros z Hz Hz'. apply list_elem_of_singleton in Hz'. subst z. auto.
      - intros z Hz. apply elem_of_app in Hz. destruct Hz as [Hz|Hz]; auto.
        apply list_elem_of_singleton in Hz. subst z. exact Hx. }
    destruct (visit_all_total (visit succs fuel) (succs x) fuel IH
                (fun y => succs_inside x y Hx) (V ++ [x]) HV1) as (V' & E' & HV' & Hl').
    { rewrite length_app. simpl. lia. }
    exists V'. split; [exact E'|]. split; [exact HV'|].
    rewrite length_app in Hl'. simpl in Hl'. lia.
Qed.
End VisitFacts.

(** ** The closure follows depth-first discovery *)

Lemma targets_inside h follow :
  closed_heap h ->
  forall x y, x < length h -> y ∈ targets h follow x -> y < length h.
Proof.
  intros Hc x y Hx Hy. unfold targets in Hy.
  destruct (h !! x) as [st|] eqn:E; [|inversion Hy].
  apply list_elem_of_fmap in Hy. destruct Hy as (e & -> & He).
  apply list_elem_of_In, filter_In in He. destruct He as [He _].
  apply list_elem_of_In in He. exact (Hc x st e E He).
Qed.

Lemma get_next_run s x st :
  heap s !! x = Some st -> get_next x s = (Ok (next st), s).
Proof. intros H. unfold get_next. rewrite H. reflexivity. Qed.

Lemma get_label_run s x st :
  heap s !! x = Some st -> get_label x s = (Ok (label st), s).
Proof. intros H. unfold get_label. rewrite H. reflexivity. Qed.

Lemma outcome_bind {A B} (m : M A) (k : A -> M B) s (o : option A) :
  m s = (outcome o, s) ->
  bind m k s = match o with Some a => k a s | None => (Diverge, s) end.
Proof. intros H. unfold bind. rewrite H. destruct o; reflexivity. Qed.

Lemma targets_lookup h follow x st :
  h !! x = Some st -> targets h follow x = to <$> List.filter follow (next st).
Proof. intros H. unfold targets. rewrite H. reflexivity. Qed.

Lemma bind_assoc {A B C} (m : M A) (f : A -> M B) (k : B -> M C) s :
  bind (bind m f) k s = bind m (fun a => bind (f a) k) s.
Proof. unfold bind. destruct (m s) as [[a|e|] s1]; reflexivity. Qed.

Lemma Enclosure_loop_visit s sym succs fuel :
  (forall x V, x < length (heap s) ->
     Enclosure.DFS fuel sym x V s = (outcome (visit succs fuel x V), s)) ->
  forall es, (forall e, e ∈ es -> to e < length (heap s)) ->
    forall acc,
      for_fold es acc
               (fun edge set =>
                  if symbol_eq (symbol edge) sym
                  then Enclosure.DFS fuel sym (to edge) set
                  else ret set) s
      = (outcome (visit_all (visit succs fuel)
                            (to <$> List.filter (follow_symbol sym) es) acc),
         s).
Proof.
  intros IH. induction es as [|e es IHes]; intros Hes acc; [reflexivity|].
  cbn [for_fold List.filter]. unfold follow_symbol at 1.
  destruct (symbol_eq (symbol e) sym).
  - rewrite (outcome_bind _ _ _ _ (IH (to e) acc (Hes e ltac:(left)))).
    cbn [fmap list_fmap visit_all].
    destruct (visit succs fuel (to e) acc) as [V1|]; [|reflexivity].
    apply IHes. intros e' He'. apply Hes. right. exact He'.
  - erewrite bind_Ok by reflexivity.
    apply IHes. intros e' He'. apply Hes. right. exact He'.
Qed.

Lemma Enclosure_DFS_visit s sym :
  closed_heap (heap s) ->
  forall fuel x V, x < length (heap s) ->
    Enclosure.DFS fuel sym x V s
    = (outcome (visit (targets (heap s) (follow_symbol sym)) fuel x V), s).
Proof.
  intros Hc. induction fuel as [|fuel IH]; intros x V Hx; [reflexivity|].
  cbn [Enclosure.DFS visit]. destruct (Set_has x V); [reflexivity|].
  destruct (lookup_lt_is_Some_2 _ _ Hx) as [st Hst].
  rewrite (bind_Ok _ _ _ _ _ (get_next_run s x st Hst)).
  rewrite (targets_lookup _ _ _ _ Hst).
  apply (Enclosure_loop_visit s sym _ fuel IH).
  intros e He. exact (Hc x st e Hst He).
Qed.

Lemma enclosure_visit s T sym :
  closed_heap (heap s) ->
  (forall x, x ∈ roots T -> x < length (heap s)) ->
  enclosure T sym s
  = (outcome (visit_all (visit (targets (heap s) (follow_symbol sym))
                               (S (length (heap s))))
                        (roots T) []), s).
Proof.
  intros Hc Hr. unfold enclosure.
  erewrite bind_Ok by reflexivity.
  destruct T as [x|l]; cbn [roots visit_all].
  - rewrite (Enclosure_DFS_visit s sym Hc) by (apply Hr; left).
    destruct (visit _ _ x []); reflexivity.
  - simpl in Hr. revert Hr. generalize (@nil nat).
    induction l as [|x l IHl]; intros acc Hr; [reflexivity|].
    cbn [for_fold visit_all].
    rewrite (outcome_bind _ _ _ _
               (Enclosure_DFS_visit s sym Hc _ x acc (Hr x ltac:(left)))).
    destruct (visit _ _ x acc) as [V1|]; [|reflexivity].
    apply IHl. intros y Hy. apply Hr. right. exact Hy.
Qed.

Lemma inside_nil n : inside n [].
Proof. split; [apply NoDup_nil_2|]. intros y Hy. inversion Hy. Qed.

Lemma visit_roots_total h follow rs :
  closed_heap h -> (forall x, x ∈ rs -> x < length h) ->
  exists r,
    visit_all (visit (targets h follow) (S (length h))) rs [] = Some r
    /\ NoDup r
    /\ (forall x, x ∈ r -> x < length h)
    /\ (forall x, x ∈ r <-> exists t, t ∈ rs /\ reach h follow t x).
Proof.
  intros Hc Hr.
  destruct (visit_all_total (length h)
              (visit (targets h follow) (S (length h))) rs (S (length h)))
    with (V := @nil nat) as (r & Hrun & [Hnd Hin] & _).
  - intros y V Hy HV Hf.
    apply (visit_total (targets h follow) (length h) (targets_inside h follow Hc));
      assumption.
  - exact Hr.
  - apply inside_nil.
  - simpl. lia.
  - exists r. split; [exact Hrun|]. split; [exact Hnd|]. split; [exact Hin|].
    destruct (discovered_all _ _ _ (discovered_visit _ _) _ _ Hrun)
      as (D & E & _ & Hroots & Hreach & Hclosed).
    simpl in E. subst D.
    intros x. split.
    + intros Hx. exact (Hreach x Hx).
    + intros (t & Ht & Htx). revert x Htx.
      apply rtc_ind_r; [apply Hroots, Ht|].
      intros y z _ Hyz Hy. exact (Hclosed y z Hy Hyz).
Qed.

(** C7: on a heap whose transitions stay inside it, the closure of states of
    the heap returns a sequence without duplicates, which holds exactly the
    states reachable from the given ones along transitions of the symbol;
    closing that sequence again returns the same sequence; the closure of a
    sub-collection is contained in it; and reordering the given collection
    gives the same states. *)
Theorem enclosure_closure s sym T :
  closed_heap (heap s) ->
  (forall x, x ∈ roots T -> x < length (heap s)) ->
  exists r,
    enclosure T sym s = (Ok r, s)
    /\ NoDup r
    /\ (forall x, x ∈ r <->
                  exists t, t ∈ roots T
                            /\ reach (heap s) (follow_symbol sym) t x)
    /\ enclosure (StateArray r) sym s = (Ok r, s)
    /\ (forall T', (forall x, x ∈ roots T' -> x ∈ roots T) ->
          exists r', enclosure T' sym s = (Ok r', s)
                     /\ forall x, x ∈ r' -> x ∈ r)
    /\ (forall T', roots T' ≡ₚ roots T ->
          exists r', enclosure T' sym s = (Ok r', s) /\ NoDup r' /\ r' ≡ₚ r).
Proof.
  intros Hc Hr.
  destruct (visit_roots_total (heap s) (follow_symbol sym) (roots T) Hc Hr)
    as (r & Hrun & Hnd & Hin & Hiff).
  exists r.
  split; [rewrite enclosure_visit, Hrun by assumption; reflexivity|].
  split; [exact Hnd|]. split; [exact Hiff|]. split; [|split].
  - rewrite enclosure_visit by assumption. cbn [roots].
    rewrite (visit_all_again _ _ (roots T) [] r Hrun). reflexivity.
  - intros T' Hsub.
    assert (Hr' : forall x, x ∈ roots T' -> x < length (heap s)) by auto.
    destruct (visit_roots_total (heap s) (follow_symbol sym) (roots T') Hc Hr')
      as (r' & Hrun' & _ & _ & Hiff').
    exists r'.
    split; [rewrite enclosure_visit, Hrun' by assumption; reflexivity|].
    intros x Hx. apply Hiff. apply Hiff' in Hx.
    destruct Hx as (t & Ht & Htx). exists t. auto.
  - intros T' Hperm.
    assert (Hr' : forall x, x ∈ roots T' -> x < length (heap s)).
    { intros x Hx. apply Hr. rewrite <- Hperm. exact Hx. }
    destruct (visit_roots_total (heap s) (follow_symbol sym) (roots T') Hc Hr')
      as (r' & Hrun' & Hnd' & _ & Hiff').
    exists r'.
    split; [rewrite enclosure_visit, Hrun' by assumption; reflexivity|].
    split; [exact Hnd'|].
    apply NoDup_Permutation; [exact Hnd'|exact Hnd|].
    intros x. rewrite Hiff, Hiff'. split; intros (t & Ht & Htx); exists t.
    + rewrite <- Hperm. auto.
    + rewrite Hperm. auto.
Qed.

Lemma closed_heapb_closed h : closed_heapb h = true -> closed_heap h.
Proof.
  intros H x st e Hst He. unfold closed_heapb in H.
  rewrite forallb_forall in H.
  specialize (H st ltac:(apply list_elem_of_In, list_elem_of_lookup; eauto)).
  rewrite forallb_forall in H.
  specialize (H e ltac:(apply list_elem_of_In; exact He)).
  apply Nat.ltb_lt in H. exact H.
Qed.

Lemma enclosure_closure_witness :
  let s := snd (build (star_node (text_node "a")) empty_store) in
  exists r, enclosure (StateArray [2; 0]) epsilon s = (Ok r, s) /\ NoDup r.
Proof.
  intros s.
  destruct (enclosure_closure s epsilon (StateArray [2; 0]))
    as (r & H1 & H2 & _).
  - apply closed_heapb_closed. reflexivity.
  - intros x Hx. apply list_elem_of_In in Hx. simpl in Hx.
    destruct Hx as [<-|[<-|[]]]; simpl; lia.
  - exists r. auto.
Defined.

(** ** The export follows depth-first discovery *)

Lemma filter_follow_all (es : list Edge) : List.filter follow_all es = es.
Proof.
  induction es as [|e es IH]; simpl; [reflexivity|]. rewrite IH. reflexivity.
Qed.

Lemma edges_of_lookup h x st :
  h !! x = Some st -> edges_of h x = edge_descriptor h st <$> next st.
Proof. intros H. unfold edges_of. rewrite H. reflexivity. Qed.

Lemma vertex_of_lookup h x st :
  h !! x = Some st -> vertex_of h x = [vertex_data (label st) (label st)].
Proof. intros H. unfold vertex_of. rewrite H. reflexivity. Qed.

Lemma target_label_lookup h e st :
  h !! to e = Some st -> target_label h e = label st.
Proof. intros H. unfold target_label. rewrite H. reflexivity. Qed.

Lemma emitted_nothing h V out : emitted h V V out out [].
Proof.
  exists []. rewrite !app_nil_r. split; [reflexivity|].
  split; reflexivity.
Qed.

Lemma filter_vertex_edge out d :
  is_edge d = true ->
  List.filter is_vertex (out ++ [d]) = List.filter is_vertex out
  /\ List.filter is_edge (out ++ [d]) = List.filter is_edge out ++ [d].
Proof.
  intros H. rewrite !List.filter_app. simpl. rewrite H.
  unfold is_edge in H. apply negb_true_iff in H. rewrite H.
  rewrite app_nil_r. auto.
Qed.

Lemma filter_vertex_vertex out d :
  is_vertex d = true ->
  List.filter is_vertex (out ++ [d]) = List.filter is_vertex out ++ [d]
  /\ List.filter is_edge (out ++ [d]) = List.filter is_edge out.
Proof.
  intros H. rewrite !List.filter_app. simpl. unfold is_edge. rewrite H.
  simpl. rewrite app_nil_r. auto.
Qed.

Lemma Cytograph_loop_visit s succs fuel x st :
  heap s !! x = Some st ->
  (forall y V out, y < length (heap s) ->
     match visit succs fuel y V with
     | Some V' =>
         exists out',
           Cytograph.DFS fuel y (V, out) s = (Ok (V', out'), s)
           /\ emitted (heap s) V V' out out' []
     | None => Cytograph.DFS fuel y (V, out) s = (Diverge, s)
     end) ->
  forall es, (forall e, e ∈ es -> to e < length (heap s)) ->
    forall V out,
      let loop :=
        for_fold es (V, out)
                 (fun edge vs' =>
                    source <- get_label x ;;
                    target <- get_label (to edge) ;;
                    Cytograph.DFS fuel (to edge)
                      (fst vs',
                       snd vs' ++ [edge_data source target (symbol edge)]))
      in
      match visit_all (visit succs fuel) (to <$> es) V with
      | Some V' =>
          exists out',
            loop s = (Ok (V', out'), s)
            /\ emitted (heap s) V V' out out'
                       (edge_descriptor (heap s) st <$> es)
      | None => loop s = (Diverge, s)
      end.
Proof.
  intros Hst IH. induction es as [|e es IHes]; intros Hes V out loop.
  - subst loop. simpl. exists out. split; [reflexivity|].
    apply emitted_nothing.
  - subst loop. cbn [for_fold fmap list_fmap visit_all].
    destruct (lookup_lt_is_Some_2 _ _ (Hes e ltac:(left))) as [ste Hste].
    rewrite !bind_assoc.
    rewrite (bind_Ok _ _ _ _ _ (get_label_run s x st Hst)).
    rewrite !bind_assoc.
    rewrite (bind_Ok _ _ _ _ _ (get_label_run s _ ste Hste)).
    cbn [fst snd].
    specialize (IH (to e) V
                   (out ++ [edge_data (label st) (label ste) (symbol e)])
                   (Hes e ltac:(left))).
    destruct (visit succs fuel (to e) V) as [V1|].
    + destruct IH as (out1 & Hrun1 & D1 & -> & Hv1 & He1).
      rewrite (bind_Ok _ _ _ _ _ Hrun1).
      specialize (IHes ltac:(intros e' He'; apply Hes; right; exact He')
                         (V ++ D1) out1).
      cbn zeta in IHes.
      destruct (visit_all (visit succs fuel) (to <$> es) (V ++ D1)) as [V'|].
      * destruct IHes as (out' & Hrun' & D2 & -> & Hv2 & He2).
        exists out'. split; [exact Hrun'|].
        exists (D1 ++ D2). split; [rewrite app_assoc; reflexivity|].
        assert (Hd : is_edge (edge_data (label st) (label ste) (symbol e))
                     = true) by reflexivity.
        destruct (filter_vertex_edge out _ Hd) as [Fv Fe].
        rewrite Fv in Hv1. rewrite Fe in He1.
        assert (Hed : edge_descriptor (heap s) st e
                      = edge_data (label st) (label ste) (symbol e)).
        { unfold edge_descriptor.
          rewrite (target_label_lookup _ _ _ Hste). reflexivity. }
        rewrite !fmap_app, !concat_app. split.
        -- rewrite Hv2, Hv1, app_assoc. reflexivity.
        -- rewrite He2, He1. cbn [fmap list_fmap]. rewrite Hed.
           solve_Permutation.
      * exact IHes.
    + rewrite (bind_Diverge _ _ _ _ IH). reflexivity.
Qed.

Lemma Cytograph_DFS_visit s :
  closed_heap (heap s) ->
  forall fuel x V out, x < length (heap s) ->
    match visit (targets (heap s) follow_all) fuel x V with
    | Some V' =>
        exists out',
          Cytograph.DFS fuel x (V, out) s = (Ok (V', out'), s)
          /\ emitted (heap s) V V' out out' []
    | None => Cytograph.DFS fuel x (V, out) s = (Diverge, s)
    end.
Proof.
  intros Hc. induction fuel as [|fuel IH]; intros x V out Hx; [reflexivity|].
  cbn [Cytograph.DFS visit fst snd].
  destruct (Set_has x V) eqn:E.
  { exists out. split; [reflexivity|apply emitted_nothing]. }
  destruct (lookup_lt_is_Some_2 _ _ Hx) as [st Hst].
  rewrite (bind_Ok _ _ _ _ _ (get_label_run s x st Hst)).
  rewrite (bind_Ok _ _ _ _ _ (get_next_run s x st Hst)).
  rewrite (targets_lookup _ _ _ _ Hst), filter_follow_all.
  pose proof (Cytograph_loop_visit s _ fuel x st Hst IH (next st)
                ltac:(intros e He; exact (Hc x st e Hst He))
                (Set_add x V) (out ++ [vertex_data (label st) (label st)]))
    as Hloop.
  cbn zeta in Hloop.
  destruct (visit_all _ (to <$> next st) (Set_add x V)) as [V'|];
    [|exact Hloop].
  destruct Hloop as (out' & Hrun & D & -> & Hv & He).
  exists out'. split; [exact Hrun|].
  apply Set_has_false in E. rewrite Set_add_new by exact E.
  exists (x :: D). split; [rewrite <- app_assoc; reflexivity|].
  destruct (filter_vertex_vertex out (vertex_data (label st) (label st))
              eq_refl) as [Fv Fe].
  rewrite Fv in Hv. rewrite Fe in He.
  cbn [fmap list_fmap concat].
  rewrite (vertex_of_lookup _ _ _ Hst), (edges_of_lookup _ _ _ Hst).
  split.
  - rewrite Hv, <- app_assoc. reflexivity.
  - rewrite He. solve_Permutation.
Qed.

Lemma Cytograph_loop_sweep s succs fuel x st :
  heap s !! x = Some st ->
  (forall y V out, y < length (heap s) ->
     match visit succs fuel y V with
     | Some V' =>
         exists ds,
           Cytograph.DFS fuel y (V, out) s = (Ok (V', out ++ ds), s)
           /\ arrive (heap s) V y ds V'
     | None => Cytograph.DFS fuel y (V, out) s = (Diverge, s)
     end) ->
  forall es, (forall e, e ∈ es -> to e < length (heap s)) ->
    forall V out,
      let loop :=
        for_fold es (V, out)
                 (fun edge vs' =>
                    source <- get_label x ;;
                    target <- get_label (to edge) ;;
                    Cytograph.DFS fuel (to edge)
                      (fst vs',
                       snd vs' ++ [edge_data source target (symbol edge)]))
      in
      match visit_all (visit succs fuel) (to <$> es) V with
      | Some V' =>
          exists ds,
            loop s = (Ok (V', out ++ ds), s)
            /\ sweep (heap s) V (label st) es ds V'
      | None => loop s = (Diverge, s)
      end.
Proof.
  intros Hst IH. induction es as [|e es IHes]; intros Hes V out loop.
  - subst loop. simpl. exists []. rewrite app_nil_r.
    split; [reflexivity|apply sweep_done].
  - subst loop. cbn [for_fold fmap list_fmap visit_all].
    destruct (lookup_lt_is_Some_2 _ _ (Hes e ltac:(left))) as [ste Hste].
    rewrite !bind_assoc.
    rewrite (bind_Ok _ _ _ _ _ (get_label_run s x st Hst)).
    rewrite !bind_assoc.
    rewrite (bind_Ok _ _ _ _ _ (get_label_run s _ ste Hste)).
    cbn [fst snd].
    specialize (IH (to e) V
                   (out ++ [edge_data (label st) (label ste) (symbol e)])
                   (Hes e ltac:(left))).
    destruct (visit succs fuel (to e) V) as [V1|].
    + destruct IH as (d1 & Hrun1 & Harr).
      rewrite (bind_Ok _ _ _ _ _ Hrun1).
      specialize (IHes ltac:(intros e' He'; apply Hes; right; exact He')
                         V1
                         ((out
                           ++ [edge_data (label st) (label ste) (symbol e)])
                          ++ d1)).
      cbn zeta in IHes.
      destruct (visit_all (visit succs fuel) (to <$> es) V1) as [V'|].
      * destruct IHes as (d2 & Hrun' & Hsw).
        destruct Harr as [(Hin & -> & ->)|(Hnin & st' & d & Hst' & -> & Hd)].
        -- exists (edge_data (label st) (label ste) (symbol e) :: d2).
           split.
           ++ rewrite Hrun'. rewrite app_nil_r, <- app_assoc. reflexivity.
           ++ apply sweep_seen; assumption.
        -- rewrite Hste in Hst'. inversion Hst'; subst st'.
           exists (edge_data (label st) (label ste) (symbol e)
                     :: vertex_data (label ste) (label ste) :: d ++ d2).
           split.
           ++ rewrite Hrun'. rewrite <- !app_assoc. reflexivity.
           ++ eapply sweep_new; eassumption.
      * exact IHes.
    + rewrite (bind_Diverge _ _ _ _ IH). reflexivity.
Qed.

Lemma Cytograph_DFS_sweep s :
  closed_heap (heap s) ->
  forall fuel x V out, x < length (heap s) ->
    match visit (targets (heap s) follow_all) fuel x V with
    | Some V' =>
        exists ds,
          Cytograph.DFS fuel x (V, out) s = (Ok (V', out ++ ds), s)
          /\ arrive (heap s) V x ds V'
    | None => Cytograph.DFS fuel x (V, out) s = (Diverge, s)
    end.
Proof.
  intros Hc. induction fuel as [|fuel IH]; intros x V out Hx; [reflexivity|].
  cbn [Cytograph.DFS visit fst snd].
  destruct (Set_has x V) eqn:E.
  { exists []. rewrite app_nil_r. split; [reflexivity|].
    left. apply Set_has_true in E. auto. }
  destruct (lookup_lt_is_Some_2 _ _ Hx) as [st Hst].
  rewrite (bind_Ok _ _ _ _ _ (get_label_run s x st Hst)).
  rewrite (bind_Ok _ _ _ _ _ (get_next_run s x st Hst)).
  rewrite (targets_lookup _ _ _ _ Hst), filter_follow_all.
  pose proof (Cytograph_loop_sweep s _ fuel x st Hst IH (next st)
                ltac:(intros e He; exact (Hc x st e Hst He))
                (Set_add x V) (out ++ [vertex_data (label st) (label st)]))
    as Hloop.
  cbn zeta in Hloop.
  destruct (visit_all _ (to <$> next st) (Set_add x V)) as [V'|];
    [|exact Hloop].
  destruct Hloop as (d1 & Hrun & Hsw).
  apply Set_has_false in E. rewrite Set_add_new in Hsw by exact E.
  exists (vertex_data (label st) (label st) :: d1). split.
  - rewrite Hrun, <- app_assoc. reflexivity.
  - right. split; [exact E|]. exists st, d1. auto.
Qed.

Lemma sweep_vertex_after_edge h V src es ds V' :
  sweep h V src es ds V' ->
  forall q id l,
    ds !! q = Some (vertex_data id l) ->
    exists q' src' sym,
      q = S q' /\ ds !! q' = Some (edge_data src' id sym).
Proof.
  induction 1 as [V src
                 |V src e es ste ds V' Hste Hin Hsw IH
                 |V src e es ste d1 V1 d2 V' Hste Hnin Hsw1 IH1 Hsw2 IH2];
    intros q id l Hq.
  - rewrite lookup_nil in Hq. discriminate.
  - destruct q as [|q]; [discriminate|]. cbn in Hq.
    destruct (IH q id l Hq) as (q' & src' & sym & -> & H').
    exists (S q'), src', sym. split; [reflexivity|exact H'].
  - destruct q as [|[|q]]; [discriminate| |].
    + inversion Hq; subst id l. exists 0, src, (symbol e).
      split; reflexivity.
    + cbn in Hq. apply lookup_app_Some in Hq.
      destruct Hq as [Hq|[Hlen Hq]].
      * destruct (IH1 q id l Hq) as (q' & src' & sym & -> & H').
        exists (S (S q')), src', sym. split; [reflexivity|]. cbn.
        apply lookup_app_l_Some. exact H'.
      * destruct (IH2 _ id l Hq) as (q' & src' & sym & Eq & H').
        exists (S (S (length d1 + q'))), src', sym.
        split; [f_equal; f_equal; lia|].
        change ((d1 ++ d2) !! (length d1 + q')
                = Some (edge_data src' id sym)).
        rewrite lookup_app_r by lia.
        replace (length d1 + q' - length d1) with q' by lia. exact H'.
Qed.

Lemma shown_more h pre pre' V :
  shown h pre V -> (forall d, d ∈ pre -> d ∈ pre') -> shown h pre' V.
Proof. intros H Hsub y st Hy Hst. apply Hsub. exact (H y st Hy Hst). Qed.

Lemma sweep_edge_target h V src es ds V' :
  sweep h V src es ds V' ->
  forall pre,
    shown h pre V ->
    shown h (pre ++ ds) V'
    /\ forall p src' tgt sym,
        ds !! p = Some (edge_data src' tgt sym) ->
        ds !! S p = Some (vertex_data tgt tgt)
        \/ vertex_data tgt tgt ∈ pre ++ take p ds.
Proof.
  induction 1 as [V src
                 |V src e es ste ds V' Hste Hin Hsw IH
                 |V src e es ste d1 V1 d2 V' Hste Hnin Hsw1 IH1 Hsw2 IH2];
    intros pre Hpre.
  - split; [rewrite app_nil_r; exact Hpre|].
    intros p src' tgt sym Hp. rewrite lookup_nil in Hp. discriminate.
  - set (e0 := edge_data src (label ste) (symbol e)).
    destruct (IH (pre ++ [e0])) as [Hsh Hed].
    { apply (shown_more _ pre); [exact Hpre|].
      intros d Hd. apply elem_of_app. left. exact Hd. }
    split.
    + rewrite <- app_assoc in Hsh. exact Hsh.
    + intros p src' tgt sym Hp. destruct p as [|p].
      * right. inversion Hp; subst src' tgt sym.
        rewrite app_nil_r. exact (Hpre _ _ Hin Hste).
      * cbn in Hp. destruct (Hed p src' tgt sym Hp) as [H1|H1].
        -- left. exact H1.
        -- right. cbn [take]. rewrite <- app_assoc in H1. exact H1.
  - set (e0 := edge_data src (label ste) (symbol e)).
    set (v0 := vertex_data (label ste) (label ste)).
    destruct (IH1 (pre ++ [e0; v0])) as [Hsh1 Hed1].
    { intros y st Hy Hst. apply elem_of_app in Hy. destruct Hy as [Hy|Hy].
      - apply elem_of_app. left. exact (Hpre y st Hy Hst).
      - apply list_elem_of_singleton in Hy. subst y.
        rewrite Hste in Hst. inversion Hst; subst st.
        apply elem_of_app. right. right. left. }
    destruct (IH2 ((pre ++ [e0; v0]) ++ d1) Hsh1) as [Hsh2 Hed2].
    split.
    + rewrite <- !app_assoc in Hsh2. exact Hsh2.
    + intros p src' tgt sym Hp. destruct p as [|[|p]].
      * left. inversion Hp; subst src' tgt sym. reflexivity.
      * discriminate.
      * cbn in Hp. cbn [take].
        apply lookup_app_Some in Hp. destruct Hp as [Hp|[Hlen Hp]].
        -- pose proof (lookup_lt_Some _ _ _ Hp) as Hlt.
           destruct (Hed1 p src' tgt sym Hp) as [H1|H1].
           ++ left. cbn. apply lookup_app_l_Some. exact H1.
           ++ right. rewrite take_app_le by lia.
              rewrite <- app_assoc in H1. exact H1.
        -- destruct (Hed2 _ src' tgt sym Hp) as [H1|H1].
           ++ left.
              change ((d1 ++ d2) !! S p = Some (vertex_data tgt tgt)).
              rewrite lookup_app_r by lia.
              replace (S p - length d1) with (S (p - length d1)) by lia.
              exact H1.
           ++ right. rewrite take_app_ge by lia.
              rewrite <- !app_assoc in H1. exact H1.
Qed.

(** C8: on a heap whose transitions stay inside it, cycles or not, the export
    from a state of the heap and the closure of states of the heap both
    return.  The export has visited exactly the states reachable from the
    initial state, each once: its vertex descriptors are those of the visited
    states, one for each, in the order of discovery, and its edge descriptors
    are those of all transitions of the visited states, one for each
    transition, whether its target had been visited before or not.  Each edge
    descriptor is pushed at the point its transition is traversed: the export
    is the vertex descriptor of the initial state followed by the sweep
    through its transitions, in which the descriptor of a transition stands
    before everything its target gives rise to and after everything the
    transitions before it gave rise to.  So every vertex descriptor but the
    first stands right behind the edge descriptor of the transition that
    discovered its state, and every edge descriptor is either followed at
    once by the vertex descriptor of its target or finds it earlier in the
    export. *)
Theorem traversals_terminate s :
  closed_heap (heap s) ->
  (forall this,
      initial_state this < length (heap s) ->
      exists out order st ds,
        cytograph this s = (Ok out, s)
        /\ NoDup order
        /\ (forall x, x ∈ order <->
                      reach (heap s) follow_all (initial_state this) x)
        /\ List.filter is_vertex out = concat (vertex_of (heap s) <$> order)
        /\ List.filter is_edge out ≡ₚ concat (edges_of (heap s) <$> order)
        /\ heap s !! initial_state this = Some st
        /\ out = vertex_data (label st) (label st) :: ds
        /\ sweep (heap s) [initial_state this] (label st) (next st) ds order
        /\ (forall p id l,
              out !! S p = Some (vertex_data id l) ->
              exists src sym, out !! p = Some (edge_data src id sym))
        /\ (forall p src tgt sym,
              out !! p = Some (edge_data src tgt sym) ->
              out !! S p = Some (vertex_data tgt tgt)
              \/ vertex_data tgt tgt ∈ take p out))
  /\ (forall T sym,
         (forall x, x ∈ roots T -> x < length (heap s)) ->
         exists r, enclosure T sym s = (Ok r, s)).
Proof.
  intros Hc. split.
  - intros this Hi.
    destruct (visit_roots_total (heap s) follow_all [initial_state this] Hc)
      as (order & Hrun & Hnd & _ & Hiff).
    { intros x Hx. apply list_elem_of_singleton in Hx. subst x. exact Hi. }
    cbn [visit_all] in Hrun.
    pose proof (Cytograph_DFS_visit s Hc (S (length (heap s)))
                  (initial_state this) [] [] Hi) as Hdfs.
    pose proof (Cytograph_DFS_sweep s Hc (S (length (heap s)))
                  (initial_state this) [] [] Hi) as Hsweep.
    destruct (visit _ _ (initial_state this) []) as [V'|]; [|discriminate].
    inversion Hrun; subst V'.
    destruct Hdfs as (out & Hout & D & E & Hv & He).
    simpl in E. subst D. simpl in Hv, He.
    destruct Hsweep as (out' & Hout' & Harr).
    rewrite Hout in Hout'. inversion Hout'; subst out. clear Hout'.
    destruct Harr as [(Hin & _)|(_ & st & ds & Hst & -> & Hsw)];
      [inversion Hin|].
    cbn [app] in Hsw, Hv, He, Hout |- *.
    exists (vertex_data (label st) (label st) :: ds), order, st, ds.
    split; [|split; [exact Hnd|split; [|split; [exact Hv|split; [exact He|]]]]].
    + unfold cytograph. erewrite bind_Ok by reflexivity.
      rewrite (bind_Ok _ _ _ _ _ Hout). simpl. rewrite app_nil_r.
      reflexivity.
    + intros x. rewrite Hiff. split.
      * intros (t & Ht & Htx). apply list_elem_of_singleton in Ht.
        subst t. exact Htx.
      * intros Hx. exists (initial_state this). split; [left|exact Hx].
    + split; [exact Hst|]. split; [reflexivity|]. split; [exact Hsw|]. split.
      * intros p id l Hp. cbn in Hp.
        destruct (sweep_vertex_after_edge _ _ _ _ _ _ Hsw p id l Hp)
          as (q & src & sym & -> & Hq).
        exists src, sym. exact Hq.
      * intros p src tgt sym Hp. destruct p as [|p]; [discriminate|].
        cbn in Hp.
        destruct (sweep_edge_target _ _ _ _ _ _ Hsw
                    [vertex_data (label st) (label st)]) as [_ Hed].
        { intros y st' Hy Hst'. apply list_elem_of_singleton in Hy. subst y.
          rewrite Hst in Hst'. inversion Hst'; subst st'. left. }
        exact (Hed p src tgt sym Hp).
  - intros T sym Hr.
    destruct (visit_roots_total (heap s) (follow_symbol sym) (roots T) Hc Hr)
      as (r & Hrun & _).
    exists r. rewrite enclosure_visit, Hrun by assumption. reflexivity.
Qed.

Lemma traversals_terminate_witness :
  let s := snd (build (star_node (text_node "a")) empty_store) in
  (exists out order,
      cytograph (mkAutomaton 0 (Some 3)) s = (Ok out, s)
      /\ NoDup order
      /\ List.filter is_vertex out = concat (vertex_of (heap s) <$> order)
      /\ (forall p id l,
            out !! S p = Some (vertex_data id l) ->
            exists src sym, out !! p = Some (edge_data src id sym)))
  /\ exists r, enclosure (OneState 2) epsilon s = (Ok r, s).
Proof.
  intros s.
  destruct (traversals_terminate s) as [Hcy Hen].
  - apply closed_heapb_closed. reflexivity.
  - split.
    + destruct (Hcy (mkAutomaton 0 (Some 3)))
        as (out & order & st & ds & H1 & H2 & _ & H3 & _ & _ & _ & _ & H4 & _).
      * simpl. lia.
      * exists out, order. auto.
    + apply Hen. intros x Hx. apply list_elem_of_In in Hx. simpl in Hx.
      destruct Hx as [<-|[]]. simpl. lia.
Defined.

(** ** Transitions of a heap under construction *)

Lemma elem_of_targets h follow x y :
  y ∈ targets h follow x <->
  exists st e, h !! x = Some st /\ e ∈ next st /\ follow e = true /\ to e = y.
Proof.
  unfold targets. split.
  - destruct (h !! x) as [st|]; [|intros H; inversion H]. intros H.
    apply list_elem_of_fmap in H. destruct H as (e & -> & He).
    apply list_elem_of_In, filter_In in He. destruct He as [He Hf].
    exists st, e. rewrite list_elem_of_In. auto.
  - intros (st & e & -> & He & Hf & <-).
    apply list_elem_of_fmap. exists e. split; [reflexivity|].
    apply list_elem_of_In, filter_In. rewrite <- list_elem_of_In. auto.
Qed.

Lemma step_iff h follow x y :
  step h follow x y <->
  exists st e, h !! x = Some st /\ e ∈ next st /\ follow e = true /\ to e = y.
Proof. apply elem_of_targets. Qed.

Lemma step_source h follow x y : step h follow x y -> x < length h.
Proof.
  intros H. apply step_iff in H. destruct H as (st & e & Hst & _).
  apply lookup_lt_Some in Hst. exact Hst.
Qed.

Lemma step_target h follow x y :
  closed_heap h -> step h follow x y -> y < length h.
Proof.
  intros Hc H. apply step_iff in H. destruct H as (st & e & Hst & He & _ & <-).
  exact (Hc x st e Hst He).
Qed.

Lemma step_same h h' follow x y :
  h' !! x = h !! x -> step h' follow x y <-> step h follow x y.
Proof. intros E. rewrite !step_iff, E. reflexivity. Qed.

Lemma step_new h l follow x y :
  step (h ++ [mkState l []]) follow x y <-> step h follow x y.
Proof.
  rewrite !step_iff. split; intros (st & e & Hst & He & Hf & Hy).
  - destruct (decide (x < length h)) as [Hlt|Hge].
    + rewrite lookup_app_l in Hst by exact Hlt. eauto 6.
    + rewrite lookup_app_r in Hst by lia.
      destruct (x - length h) as [|k]; simpl in Hst.
      * inversion Hst; subst st. inversion He.
      * rewrite lookup_nil in Hst. discriminate.
  - exists st, e. rewrite lookup_app_l by (apply lookup_lt_Some in Hst; lia).
    auto.
Qed.

Lemma step_push h follow z e0 x y :
  step (alter (push_edge e0) z h) follow x y <->
  step h follow x y
  \/ (x = z /\ z < length h /\ follow e0 = true /\ y = to e0).
Proof.
  rewrite !step_iff. split.
  - intros (st & e & Hst & He & Hf & Hy).
    destruct (decide (z = x)) as [->|Hne].
    + rewrite list_lookup_alter_eq in Hst.
      destruct (h !! x) as [st0|] eqn:E; simpl in Hst; [|discriminate].
      inversion Hst; subst st. simpl in He.
      apply elem_of_app in He. destruct He as [He|He].
      * left. eauto 6.
      * apply list_elem_of_singleton in He. subst e. right.
        apply lookup_lt_Some in E. auto.
    + rewrite list_lookup_alter_ne in Hst by exact Hne. left. eauto 6.
  - intros [(st & e & Hst & He & Hf & Hy)|(-> & Hz & Hf & ->)].
    + destruct (decide (z = x)) as [->|Hne].
      * exists (push_edge e0 st), e.
        rewrite list_lookup_alter_eq, Hst. simpl.
        split; [reflexivity|]. split; [|auto].
        apply elem_of_app. left. exact He.
      * exists st, e. rewrite list_lookup_alter_ne by exact Hne. auto.
    + destruct (lookup_lt_is_Some_2 _ _ Hz) as [st Hst].
      exists (push_edge e0 st), e0. rewrite list_lookup_alter_eq, Hst. simpl.
      split; [reflexivity|]. split; [|auto].
      apply elem_of_app. right. left.
Qed.

Lemma extends_step_old i h h' follow x y :
  extends i h h' -> x < length h -> x <> i ->
  step h' follow x y <-> step h follow x y.
Proof. intros (_ & Hold & _) Hx Hne. apply step_same. auto. Qed.

Lemma extends_step_mono i h h' follow x y :
  extends i h h' -> step h follow x y -> step h' follow x y.
Proof.
  intros He H. pose proof (step_source _ _ _ _ H) as Hx.
  destruct (decide (x = i)) as [->|Hne].
  - destruct He as (_ & _ & Hi & _). apply step_iff in H.
    destruct H as (st & e & Hst & Hin & Hf & Hy).
    destruct (Hi st Hst) as (es & Hes & _).
    apply step_iff. exists (mkState (label st) (next st ++ es)), e.
    simpl. split; [exact Hes|]. split; [|auto].
    apply elem_of_app. left. exact Hin.
  - apply (extends_step_old i h h' follow x y He Hx Hne). exact H.
Qed.

Lemma extends_step_any i h h' follow x y :
  extends i h h' -> i < length h -> step h' follow x y ->
  step h follow x y
  \/ ((x = i \/ length h <= x) /\ length h <= y < length h').
Proof.
  intros He Hi H.
  destruct (decide (x < length h)) as [Hx|Hx].
  - destruct (decide (x = i)) as [->|Hne].
    + destruct He as (_ & _ & Hs & _).
      destruct (lookup_lt_is_Some_2 _ _ Hi) as [st Hst].
      destruct (Hs st Hst) as (es & Hes & Hto).
      apply step_iff in H. destruct H as (st' & e & Hst' & Hin & Hf & Hy).
      rewrite Hes in Hst'. inversion Hst'; subst st'. simpl in Hin.
      apply elem_of_app in Hin. destruct Hin as [Hin|Hin].
      * left. apply step_iff. eauto 6.
      * right. subst y. split; [auto|]. apply Hto. exact Hin.
    + left. apply (extends_step_old i h h' follow x y He Hx Hne). exact H.
  - right. destruct He as (_ & _ & _ & Hn).
    apply step_iff in H. destruct H as (st' & e & Hst' & Hin & Hf & <-).
    split; [right; lia|]. apply (Hn x st' e); [lia|assumption..].
Qed.

Lemma extends_reach i h h' follow x y :
  extends i h h' -> reach h follow x y -> reach h' follow x y.
Proof.
  intros He H. induction H as [x|x y z Hxy _ IH]; [apply rtc_refl|].
  eapply rtc_l; [|exact IH]. eapply extends_step_mono; eassumption.
Qed.

Lemma extends_closed i h h' :
  closed_heap h -> extends i h h' -> i < length h -> closed_heap h'.
Proof.
  intros Hc He Hi x st e Hst Hin.
  assert (H : step h' follow_all x (to e)).
  { apply step_iff. exists st, e. auto. }
  destruct (extends_step_any i h h' follow_all x (to e) He Hi H) as [H1|[_ H1]].
  - apply (step_target _ _ _ _ Hc) in H1. destruct He as (Hl & _). lia.
  - lia.
Qed.

Lemma closed_new h l : closed_heap h -> closed_heap (h ++ [mkState l []]).
Proof.
  intros Hc x st e Hst Hin.
  assert (H : step (h ++ [mkState l []]) follow_all x (to e)).
  { apply step_iff. exists st, e. auto. }
  apply step_new in H. apply (step_target _ _ _ _ Hc) in H.
  rewrite length_app. simpl. lia.
Qed.

(** The heap of a build is closed when the heap before it was. *)
Lemma build_closed t s :
  shaped t = true -> closed_heap (heap s) ->
  closed_heap (heap (snd (build t s))).
Proof.
  intros Hsh Hc.
  destruct (build_returns t s Hsh) as (a & s' & Hrun & (He & _) & _).
  rewrite Hrun. simpl in *.
  eapply extends_closed; [apply closed_new, Hc|exact He|].
  rewrite length_app. simpl. lia.
Qed.

(** ** Empty transitions through a construct *)

Lemma bind_inv {A B} (m : M A) (k : A -> M B) s b s' :
  bind m k s = (Ok b, s') ->
  exists a s1, m s = (Ok a, s1) /\ k a s1 = (Ok b, s').
Proof.
  unfold bind. destruct (m s) as [[a|e|] s1]; intros H;
    [eauto|discriminate..].
Qed.

Lemma run_built p i s v s1 :
  shaped p = true -> i < length (heap s) ->
  generateGraph p (Some i) s = (Ok v, s1) ->
  exists a, v = Some a /\ built p i s a s1.
Proof.
  intros Hsh Hi Hrun.
  exact (returns_inv _ _ _ _ _ (generateGraph_built p Hsh i s Hi) Hrun).
Qed.

Lemma built_extends p i s a s1 :
  built p i s a s1 -> extends i (heap s) (heap s1).
Proof. intros ((He & _) & _). exact He. Qed.

Lemma reach_new h l follow x y :
  reach h follow x y -> reach (h ++ [mkState l []]) follow x y.
Proof.
  intros H. induction H as [x|x y z Hxy _ IH]; [apply rtc_refl|].
  eapply rtc_l; [|exact IH]. apply step_new. exact Hxy.
Qed.

Lemma reach_push h e z follow x y :
  reach h follow x y -> reach (alter (push_edge e) z h) follow x y.
Proof.
  intros H. induction H as [x|x y z' Hxy _ IH]; [apply rtc_refl|].
  eapply rtc_l; [|exact IH]. apply step_push. left. exact Hxy.
Qed.

Lemma closed_push h e z :
  closed_heap h -> to e < length h -> closed_heap (alter (push_edge e) z h).
Proof.
  intros Hc He x st e' Hst Hin. rewrite length_alter.
  assert (H : step (alter (push_edge e) z h) follow_all x (to e')).
  { apply step_iff. exists st, e'. auto. }
  apply step_push in H. destruct H as [H|(_ & _ & _ & ->)]; [|exact He].
  exact (step_target _ _ _ _ Hc H).
Qed.

Lemma follow_epsilon_edge y : follow_epsilon (mkEdge (Some epsilon) y) = true.
Proof. reflexivity. Qed.

Lemma addNext_push a sym y s :
  addNext (Some a) sym y s
  = (Ok tt,
     mkStore (alter (push_edge (mkEdge sym y)) a (heap s)) (counter s)).
Proof. reflexivity. Qed.

(** The second loop of case ["or"]. *)
Lemma for_of_addNext_steps f ls :
  forall s u s',
    for_of ls (fun state => addNext state (Some epsilon) f) s = (Ok u, s') ->
    length (heap s') = length (heap s)
    /\ forall follow x y,
        step (heap s') follow x y <->
        step (heap s) follow x y
        \/ (Some x ∈ ls /\ x < length (heap s)
            /\ follow (mkEdge (Some epsilon) f) = true /\ y = f).
Proof.
  induction ls as [|v ls IH]; intros s u s' H; simpl in H.
  - inversion H; subst. split; [reflexivity|]. intros follow x y.
    split; [auto|]. intros [Hs|(Hin & _)]; [exact Hs|inversion Hin].
  - apply bind_inv in H. destruct H as ([] & s1 & H1 & H2).
    destruct v as [a|]; [|discriminate].
    rewrite addNext_push in H1. inversion H1; subst s1. clear H1.
    destruct (IH _ _ _ H2) as (Hlen & Hsteps). simpl in Hlen, Hsteps.
    rewrite length_alter in Hlen. split; [exact Hlen|].
    intros follow x y. rewrite Hsteps, step_push, length_alter. simpl.
    split.
    + intros [[Hs|(-> & Ha & Hf & ->)]|(Hin & Hx & Hf & ->)]; auto.
      * right. split; [left|auto].
      * right. split; [right; exact Hin|auto].
    + intros [Hs|(Hin & Hx & Hf & ->)]; auto.
      apply elem_of_cons in Hin. destruct Hin as [E|Hin].
      * inversion E; subst a. left. right. auto.
      * right. auto.
Qed.

Lemma linked_length h x sym l : length (linked h x sym l) = S (length h).
Proof. unfold linked. rewrite length_alter, length_app. simpl. lia. Qed.

Lemma linked_step h i sym l follow x y :
  i < length h ->
  step (linked h i sym l) follow x y <->
  step h follow x y
  \/ (x = i /\ follow (mkEdge sym (length h)) = true /\ y = length h).
Proof.
  intros Hi. unfold linked. rewrite step_push, step_new, length_app. simpl.
  split; intros [H|H]; auto; right; intuition lia.
Qed.

Lemma linked_closed h i sym l :
  closed_heap h -> closed_heap (linked h i sym l).
Proof.
  intros Hc. unfold linked. apply closed_push.
  - apply closed_new, Hc.
  - simpl. rewrite length_app. simpl. lia.
Qed.

Lemma linked_extends h i sym l :
  i < length h -> extends i h (linked h i sym l).
Proof.
  intros Hi. unfold linked. apply extends_addNext; auto.
  - apply extends_new, extends_refl.
  - rewrite length_app. simpl. lia.
Qed.

Lemma or_loop_cons_inv i p rest acc s ls s' :
  shaped p = true -> i < length (heap s) ->
  or_loop generateGraph (Some i) (p :: rest) acc s = (Ok ls, s') ->
  exists s2 ap s3,
    heap s2 = linked (heap s) i (Some epsilon) (counter s + 1)
    /\ generateGraph p (Some (length (heap s))) s2 = (Ok (Some ap), s3)
    /\ built p (length (heap s)) s2 ap s3
    /\ or_loop generateGraph (Some i) rest (acc ++ [Some ap]) s3
       = (Ok ls, s').
Proof.
  intros Hsh Hi H. simpl in H.
  apply bind_inv in H. destruct H as (e & s1 & H1 & H).
  rewrite new_State_next_label_run in H1. inversion H1; subst e s1. clear H1.
  cbv beta in H.
  apply bind_inv in H. destruct H as ([] & s2 & H2 & H).
  inversion H2. clear H2.
  apply bind_inv in H. destruct H as (v & s3 & H3 & H).
  assert (Hl2 : heap s2 = linked (heap s) i (Some epsilon) (counter s + 1)).
  { subst s2. reflexivity. }
  destruct (run_built p (length (heap s)) s2 v s3 Hsh) as (ap & -> & Hb).
  { rewrite Hl2, linked_length. lia. }
  { exact H3. }
  exists s2, ap, s3. auto.
Qed.

Lemma or_loop_reach ps :
  Forall passes ps -> forallb shaped ps = true ->
  forall i acc s ls s',
    closed_heap (heap s) -> i < length (heap s) ->
    or_loop generateGraph (Some i) ps acc s = (Ok ls, s') ->
    existsb nullable ps = true
    \/ (exists a, Some a ∈ acc /\ reach (heap s) follow_epsilon i a) ->
    exists a, Some a ∈ ls /\ reach (heap s') follow_epsilon i a.
Proof.
  induction 1 as [|p ps Hp _ IH]; intros Hsh i acc s ls s' Hc Hi Hrun Hor.
  - simpl in Hrun. inversion Hrun; subst.
    destruct Hor as [Hor|Hor]; [discriminate|exact Hor].
  - simpl in Hsh. apply andb_prop in Hsh. destruct Hsh as [Hshp Hshps].
    destruct (or_loop_cons_inv _ _ _ _ _ _ _ Hshp Hi Hrun)
      as (s2 & ap & s3 & Hl2 & Hrun3 & Hb & Hrest).
    pose proof (built_extends _ _ _ _ _ Hb) as He23.
    assert (Hc2 : closed_heap (heap s2)).
    { rewrite Hl2. apply linked_closed, Hc. }
    assert (He2 : extends i (heap s) (heap s2)).
    { rewrite Hl2. apply linked_extends, Hi. }
    assert (Hlen2 : length (heap s2) = S (length (heap s))).
    { rewrite Hl2. apply linked_length. }
    assert (He3 : extends i (heap s) (heap s3)).
    { eapply extends_trans; [exact He2|exact He23|exact Hi|]. right. lia. }
    assert (Hc3 : closed_heap (heap s3)).
    { eapply extends_closed; [exact Hc2|exact He23|lia]. }
    apply (IH Hshps i (acc ++ [Some ap]) s3 ls s' Hc3); [|exact Hrest|].
    { destruct He3 as (Hl & _). lia. }
    simpl in Hor. destruct (existsb nullable ps) eqn:Eps; [left; reflexivity|].
    right. rewrite orb_false_r in Hor.
    destruct Hor as [Hnp|(a & Ha & Hra)].
    + exists ap. split; [apply elem_of_app; right; left|].
      destruct (Hp Hshp (length (heap s)) s2 ap s3 Hc2 ltac:(lia) Hrun3)
        as [Hreach _].
      eapply rtc_l; [|exact (Hreach Hnp)].
      eapply extends_step_mono; [exact He23|].
      rewrite Hl2. apply linked_step; [exact Hi|]. right. auto.
    + exists a. split; [apply elem_of_app; left; exact Ha|].
      eapply extends_reach; [exact He3|exact Hra].
Qed.

Lemma or_loop_avoid ps :
  Forall passes ps -> forallb shaped ps = true ->
  existsb nullable ps = false ->
  forall n i acc s ls s' (C : addr -> Prop),
    closed_heap (heap s) -> i < n -> n <= length (heap s) ->
    or_loop generateGraph (Some i) ps acc s = (Ok ls, s') ->
    C i ->
    (forall x, C x -> (x = i \/ n <= x) /\ x < length (heap s)) ->
    (forall x y, C x -> step (heap s) follow_epsilon x y -> n <= y -> C y) ->
    (forall a, Some a ∈ acc -> ~ C a /\ a < length (heap s)) ->
    exists C' : addr -> Prop,
      C' i
      /\ (forall x, C' x -> (x = i \/ n <= x) /\ x < length (heap s'))
      /\ (forall x y,
             C' x -> step (heap s') follow_epsilon x y -> n <= y -> C' y)
      /\ (forall a, Some a ∈ ls -> ~ C' a /\ a < length (heap s')).
Proof.
  induction 1 as [|p ps Hp _ IH];
    intros Hsh Hnull n i acc s ls s' C Hc Hi Hn Hrun HCi HCb HCc Hacc.
  - simpl in Hrun. inversion Hrun; subst. exists C. auto.
  - simpl in Hsh. apply andb_prop in Hsh. destruct Hsh as [Hshp Hshps].
    simpl in Hnull. apply orb_false_elim in Hnull.
    destruct Hnull as [Hnp Hnps].
    assert (Hil : i < length (heap s)) by lia.
    destruct (or_loop_cons_inv _ _ _ _ _ _ _ Hshp Hil Hrun)
      as (s2 & ap & s3 & Hl2 & Hrun3 & Hb & Hrest).
    pose proof (built_extends _ _ _ _ _ Hb) as He23.
    destruct Hb as (_ & Hap & Hapl & _).
    assert (Hc2 : closed_heap (heap s2)).
    { rewrite Hl2. apply linked_closed, Hc. }
    assert (Hlen2 : length (heap s2) = S (length (heap s))).
    { rewrite Hl2. apply linked_length. }
    assert (Hlen3 : length (heap s2) <= length (heap s3)).
    { destruct He23 as (Hl & _). exact Hl. }
    assert (Hc3 : closed_heap (heap s3)).
    { eapply extends_closed; [exact Hc2|exact He23|lia]. }
    destruct (Hp Hshp (length (heap s)) s2 ap s3 Hc2 ltac:(lia) Hrun3)
      as [_ Havoid].
    destruct (Havoid Hnp) as (Cp & HCpe & HCpa & HCpb & HCpc).
    apply (IH Hshps Hnps n i (acc ++ [Some ap]) s3 ls s'
              (fun x => C x \/ Cp x) Hc3 Hi ltac:(lia) Hrest).
    + left. exact HCi.
    + intros x [Hx|Hx].
      * destruct (HCb x Hx). split; [assumption|lia].
      * destruct (HCpb x Hx) as [Hx1 Hx2]. split; [right; lia|exact Hx2].
    + intros x y [Hx|Hx] Hxy Hy.
      * destruct (HCb x Hx) as [_ Hxl].
        apply (extends_step_old _ _ _ follow_epsilon x y He23) in Hxy;
          [|lia..].
        rewrite Hl2 in Hxy. apply linked_step in Hxy; [|lia].
        destruct Hxy as [Hxy|(-> & _ & ->)].
        -- left. exact (HCc x y Hx Hxy Hy).
        -- right. exact HCpe.
      * destruct (HCpb x Hx) as [Hx1 Hx2].
        destruct (extends_step_any _ _ _ follow_epsilon x y He23 ltac:(lia)
                    Hxy) as [Hold|[_ Hnew]].
        -- rewrite Hl2 in Hold. apply linked_step in Hold; [|lia].
           destruct Hold as [Hold|(-> & _)]; [|lia].
           apply step_source in Hold. lia.
        -- right. apply (HCpc x y Hx Hxy). lia.
    + intros a Ha. apply elem_of_app in Ha. destruct Ha as [Ha|Ha].
      * destruct (Hacc a Ha) as [Ha1 Ha2]. split; [|lia].
        intros [HCa|HCa]; [auto|]. destruct (HCpb a HCa). lia.
      * apply list_elem_of_singleton in Ha. inversion Ha; subst a.
        split; [|exact Hapl].
        intros [HCa|HCa]; [|auto]. destruct (HCb ap HCa). lia.
Qed.

Lemma all_build ps : Forall builds ps.
Proof. apply Forall_forall. intros p _. apply generateGraph_built. Qed.

Lemma cat_loop_cons_inv j p rest s v s' :
  shaped p = true -> j < length (heap s) ->
  cat_loop generateGraph (Some j) (p :: rest) s = (Ok v, s') ->
  exists a1 s1,
    generateGraph p (Some j) s = (Ok (Some a1), s1)
    /\ built p j s a1 s1
    /\ cat_loop generateGraph (Some a1) rest s1 = (Ok v, s').
Proof.
  intros Hsh Hj H. simpl in H.
  apply bind_inv in H. destruct H as (v1 & s1 & H1 & H).
  destruct (run_built p j s v1 s1 Hsh Hj H1) as (a1 & -> & Hb).
  exists a1, s1. auto.
Qed.

Lemma cat_loop_built ps j s v s' :
  forallb shaped ps = true -> j < length (heap s) ->
  cat_loop generateGraph (Some j) ps s = (Ok v, s') ->
  exists a,
    v = Some a /\ extends j (heap s) (heap s')
    /\ (a = j \/ length (heap s) <= a) /\ a < length (heap s').
Proof.
  intros Hsh Hj Hrun.
  pose proof (cat_loop_grown ps (all_build ps) Hsh j (heap s) 0 0 j s
                (grown_start j (heap s)) Hj (or_introl eq_refl) Hj) as Hr.
  destruct (returns_inv _ _ _ _ _ Hr Hrun)
    as (a & -> & (He & _) & Ha & Hal & _).
  exists a. auto.
Qed.

Lemma cat_loop_reach ps :
  Forall passes ps -> forallb shaped ps = true ->
  forallb nullable ps = true ->
  forall j s a s',
    closed_heap (heap s) -> j < length (heap s) ->
    cat_loop generateGraph (Some j) ps s = (Ok (Some a), s') ->
    reach (heap s') follow_epsilon j a.
Proof.
  induction 1 as [|p ps Hp _ IH]; intros Hsh Hnull j s a s' Hc Hj Hrun.
  - simpl in Hrun. inversion Hrun; subst. apply rtc_refl.
  - simpl in Hsh. apply andb_prop in Hsh. destruct Hsh as [Hshp Hshps].
    simpl in Hnull. apply andb_prop in Hnull. destruct Hnull as [Hnp Hnps].
    destruct (cat_loop_cons_inv _ _ _ _ _ _ Hshp Hj Hrun)
      as (a1 & s1 & Hrun1 & Hb & Hrest).
    pose proof (built_extends _ _ _ _ _ Hb) as He1.
    destruct Hb as (_ & _ & Ha1 & _).
    assert (Hc1 : closed_heap (heap s1)).
    { eapply extends_closed; [exact Hc|exact He1|exact Hj]. }
    destruct (cat_loop_built ps a1 s1 _ s' Hshps Ha1 Hrest)
      as (a' & E & He' & _). inversion E; subst a'. clear E.
    destruct (Hp Hshp j s a1 s1 Hc Hj Hrun1) as [Hreach _].
    eapply rtc_trans.
    + eapply extends_reach; [exact He'|exact (Hreach Hnp)].
    + exact (IH Hshps Hnps a1 s1 a s' Hc1 Ha1 Hrest).
Qed.

Lemma cat_loop_avoid ps :
  Forall passes ps -> forallb shaped ps = true ->
  forallb nullable ps = false ->
  forall j s a s',
    closed_heap (heap s) -> j < length (heap s) ->
    cat_loop generateGraph (Some j) ps s = (Ok (Some a), s') ->
    avoiding (heap s') follow_epsilon (length (heap s)) j a.
Proof.
  induction 1 as [|p ps Hp _ IH]; intros Hsh Hnull j s a s' Hc Hj Hrun.
  - discriminate.
  - simpl in Hsh. apply andb_prop in Hsh. destruct Hsh as [Hshp Hshps].
    destruct (cat_loop_cons_inv _ _ _ _ _ _ Hshp Hj Hrun)
      as (a1 & s1 & Hrun1 & Hb & Hrest).
    pose proof (built_extends _ _ _ _ _ Hb) as He1.
    destruct Hb as (_ & Ha1 & Ha1l & _).
    assert (Hc1 : closed_heap (heap s1)).
    { eapply extends_closed; [exact Hc|exact He1|exact Hj]. }
    assert (Hl1 : length (heap s) <= length (heap s1)).
    { destruct He1 as (Hl & _). exact Hl. }
    destruct (cat_loop_built ps a1 s1 _ s' Hshps Ha1l Hrest)
      as (a' & E & He' & Ha' & Ha'l). inversion E; subst a'. clear E.
    assert (Hl' : length (heap s1) <= length (heap s')).
    { destruct He' as (Hl & _). exact Hl. }
    destruct (Hp Hshp j s a1 s1 Hc Hj Hrun1) as [_ Havoid].
    simpl in Hnull. destruct (nullable p) eqn:Hnp.
    + (* the part lets through: the rest does not *)
      simpl in Hnull.
      destruct (IH Hshps Hnull a1 s1 a s' Hc1 Ha1l Hrest)
        as (Cr & HCr1 & HCra & HCrb & HCrc).
      exists (fun x => x = j
                       \/ (length (heap s) <= x < length (heap s1))
                       \/ Cr x).
      split; [auto|]. split; [|split].
      * intros [->|[Hx|Hx]]; [| |].
        -- destruct Ha' as [->|Ha']; [auto|lia].
        -- destruct Ha' as [->|Ha']; [auto|lia].
        -- auto.
      * intros x [->|[Hx|Hx]]; [split; [auto|lia]|split; [right|]; lia|].
        destruct (HCrb x Hx) as [Hx1 Hx2]. split; [|exact Hx2].
        destruct Hx1 as [->|Hx1]; [exact Ha1|right; lia].
      * intros x y HCx Hxy Hy.
        destruct (decide (y < length (heap s1))) as [Hlt|Hge];
          [right; left; lia|].
        right. right.
        destruct (extends_step_any _ _ _ follow_epsilon x y He' Ha1l Hxy)
          as [Hold|[Hx _]].
        -- apply (step_target _ _ _ _ Hc1) in Hold. lia.
        -- apply (HCrc x y); [|exact Hxy|lia].
           destruct Hx as [->|Hx]; [exact HCr1|].
           destruct HCx as [->|[HCx|HCx]]; [lia|lia|exact HCx].
    + (* the part keeps its accept state apart *)
      destruct (Havoid eq_refl) as (Cp & HCpj & HCpa & HCpb & HCpc).
      exists Cp. split; [exact HCpj|]. split; [|split].
      * intros HCa. destruct Ha' as [->|Ha']; [auto|].
        destruct (HCpb a HCa). lia.
      * intros x Hx. destruct (HCpb x Hx). split; [assumption|lia].
      * intros x y Hx Hxy Hy. apply (HCpc x y Hx); [|exact Hy].
        destruct (HCpb x Hx) as [_ Hxl].
        apply (extends_step_old _ _ _ follow_epsilon x y He' Hxl); [|exact Hxy].
        intros ->. auto.
Qed.

Lemma reach_mono h h' follow x y :
  (forall a b, step h follow a b -> step h' follow a b) ->
  reach h follow x y -> reach h' follow x y.
Proof.
  intros Hm H. induction H as [x|x y z Hxy _ IH]; [apply rtc_refl|].
  eapply rtc_l; [apply Hm; exact Hxy|exact IH].
Qed.

Lemma leaf_inv sym i s a s' :
  (accept_state <- new_State_next_label ;;
   addNext (Some i) sym accept_state ;;; ret (Some accept_state)) s
  = (Ok (Some a), s') ->
  a = length (heap s) /\ heap s' = linked (heap s) i sym (counter s + 1).
Proof. intros H. simpl in H. inversion H. split; reflexivity. Qed.

Lemma or_inv tx l sb i s f s' :
  forallb shaped l = true -> i < length (heap s) ->
  generateGraph (Node "or" tx (Some l) sb) (Some i) s = (Ok (Some f), s') ->
  exists ls s1 s2,
    or_loop generateGraph (Some i) l [] s = (Ok ls, s1)
    /\ Forall (new_state (heap s) (heap s1)) ls
    /\ length (heap s) <= length (heap s1)
    /\ f = length (heap s1)
    /\ heap s2 = heap s1 ++ [mkState (counter s1 + 1) []]
    /\ for_of ls (fun state => addNext state (Some epsilon) f) s2
       = (Ok tt, s').
Proof.
  intros Hsh Hi H. rewrite generateGraph_or in H.
  apply bind_inv in H. destruct H as (ls & s1 & H1 & H).
  apply bind_inv in H. destruct H as (f' & s2 & H2 & H).
  rewrite new_State_next_label_run in H2. inversion H2. subst f'. clear H2.
  apply bind_inv in H. destruct H as ([] & s3 & H3 & H).
  inversion H. subst s3.
  pose proof (or_loop_grown l (all_build l) Hsh i (heap s) 0 0 [] s
                (grown_start i (heap s)) Hi (List.Forall_nil _)) as Hr.
  destruct (returns_inv _ _ _ _ _ Hr H1) as (Hg & Hls & _).
  pose proof (grown_length _ _ _ _ _ Hg) as Hlen.
  exists ls, s1, s2. subst s2. simpl.
  split; [exact H1|]. split; [exact Hls|]. split; [lia|].
  split; [congruence|]. split; [reflexivity|].
  replace f with (length (heap s1)) by congruence. exact H3.
Qed.

Lemma repetition_inv_store loop bypass x i s f s' :
  shaped x = true -> i < length (heap s) ->
  repetition loop bypass x (Some i) s = (Ok (Some f), s') ->
  exists s2 ax s3,
    s2 = mkStore (linked (heap s) i (Some epsilon) (counter s + 1))
                 (counter s + 1)
    /\ generateGraph x (Some (length (heap s))) s2 = (Ok (Some ax), s3)
    /\ built x (length (heap s)) s2 ax s3
    /\ f = length (heap s3)
    /\ heap s'
       = let h4 :=
           if loop
           then alter (push_edge (mkEdge (Some epsilon) (length (heap s))))
                      ax (heap s3)
           else heap s3 in
         let h5 := linked h4 ax (Some epsilon) (counter s3 + 1) in
         if bypass
         then alter (push_edge (mkEdge (Some epsilon) f)) i h5
         else h5.
Proof.
  intros Hsh Hi H. unfold repetition in H.
  apply bind_inv in H. destruct H as (t & s1 & H1 & H).
  rewrite new_State_next_label_run in H1. inversion H1; subst t s1. clear H1.
  apply bind_inv in H. destruct H as ([] & s2 & H2 & H).
  rewrite addNext_push in H2. inversion H2 as [E2]. clear H2.
  assert (Hs2 : s2 = mkStore (linked (heap s) i (Some epsilon) (counter s + 1))
                             (counter s + 1)).
  { subst s2. reflexivity. }
  assert (Hl2 : heap s2 = linked (heap s) i (Some epsilon) (counter s + 1)).
  { subst s2. reflexivity. }
  clear E2.
  apply bind_inv in H. destruct H as (v & s3 & H3 & H).
  destruct (run_built x (length (heap s)) s2 v s3 Hsh) as (ax & -> & Hb).
  { rewrite Hl2, linked_length. lia. }
  { exact H3. }
  exists s2, ax, s3. split; [exact Hs2|]. split; [exact H3|].
  split; [exact Hb|].
  apply bind_inv in H. destruct H as ([] & s4 & H4 & H).
  assert (Hh4 : heap s4
                = (if loop
                   then alter (push_edge (mkEdge (Some epsilon)
                                                 (length (heap s))))
                              ax (heap s3)
                   else heap s3)
                /\ counter s4 = counter s3).
  { destruct loop.
    - rewrite addNext_push in H4. inversion H4. auto.
    - inversion H4. auto. }
  destruct Hh4 as [Hh4 Hc4]. clear H4.
  apply bind_inv in H. destruct H as (f' & s5 & H5 & H).
  rewrite new_State_next_label_run in H5. inversion H5; subst f' s5. clear H5.
  apply bind_inv in H. destruct H as ([] & s6 & H6 & H).
  rewrite addNext_push in H6. inversion H6 as [E6]. clear H6.
  assert (Hl6 : heap s6 = linked (heap s4) ax (Some epsilon) (counter s4 + 1)).
  { subst s6. reflexivity. }
  clear E6.
  apply bind_inv in H. destruct H as ([] & s7 & H7 & H).
  inversion H. subst s7.
  assert (Hlen4 : length (heap s4) = length (heap s3)).
  { rewrite Hh4. destruct loop; [apply length_alter|reflexivity]. }
  split; [congruence|].
  cbv zeta. rewrite <- Hh4, <- Hc4, <- Hl6.
  destruct bypass.
  - rewrite addNext_push in H7. inversion H7. simpl.
    rewrite Hlen4. reflexivity.
  - inversion H7. reflexivity.
Qed.

Lemma repetition_inv loop bypass x i s f s' :
  shaped x = true -> i < length (heap s) ->
  repetition loop bypass x (Some i) s = (Ok (Some f), s') ->
  exists s2 ax s3,
    heap s2 = linked (heap s) i (Some epsilon) (counter s + 1)
    /\ generateGraph x (Some (length (heap s))) s2 = (Ok (Some ax), s3)
    /\ built x (length (heap s)) s2 ax s3
    /\ f = length (heap s3)
    /\ heap s'
       = let h4 :=
           if loop
           then alter (push_edge (mkEdge (Some epsilon) (length (heap s))))
                      ax (heap s3)
           else heap s3 in
         let h5 := linked h4 ax (Some epsilon) (counter s3 + 1) in
         if bypass
         then alter (push_edge (mkEdge (Some epsilon) f)) i h5
         else h5.
Proof.
  intros Hsh Hi H.
  destruct (repetition_inv_store _ _ _ _ _ _ _ Hsh Hi H)
    as (s2 & ax & s3 & Hs2 & Hrest).
  exists s2, ax, s3. split; [rewrite Hs2; reflexivity|exact Hrest].
Qed.

Lemma avoiding_start h follow i a :
  closed_heap h -> i < length h -> length h <= a ->
  forall h',
    length h <= length h' ->
    (forall y, step h' follow i y -> step h follow i y) ->
    avoiding h' follow (length h) i a.
Proof.
  intros Hc Hi Ha h' Hl Hsteps. exists (fun x => x = i).
  split; [reflexivity|]. split; [lia|]. split.
  - intros x ->. split; [auto|lia].
  - intros x y -> Hxy Hy. apply Hsteps in Hxy.
    apply (step_target _ _ _ _ Hc) in Hxy. lia.
Qed.

Lemma generateGraph_passes t : passes t.
Proof.
  induction t as [ty tx ps sb IHps IHsb] using node_induction.
  intros Hsh i s a s' Hc Hi Hrun.
  pose proof (shaped_documented _ _ _ _ Hsh) as Hdoc.
  destruct (kind_cases ty)
    as [-> | [-> | [-> | [-> | [-> | [-> | [-> | Hno]]]]]]]; [..|congruence].
  - (* empty *)
    rewrite generateGraph_empty in Hrun.
    apply leaf_inv in Hrun. destruct Hrun as [-> Hh].
    split; [|discriminate]. intros _. apply rtc_once.
    rewrite Hh. apply linked_step; [exact Hi|]. right. auto.
  - (* text *)
    rewrite generateGraph_text in Hrun.
    apply leaf_inv in Hrun. destruct Hrun as [-> Hh].
    change (nullable (Node "text" tx ps sb)) with (symbol_eq tx epsilon).
    split; intros Hn.
    + apply rtc_once. rewrite Hh. apply linked_step; [exact Hi|]. right. auto.
    + apply (avoiding_start _ _ _ _ Hc Hi (Nat.le_refl _)).
      * rewrite Hh, linked_length. lia.
      * intros y Hy. rewrite Hh in Hy. apply linked_step in Hy; [|exact Hi].
        destruct Hy as [Hy|(_ & Hf & _)]; [exact Hy|].
        unfold follow_epsilon, follow_symbol in Hf. simpl in Hf. congruence.
  - (* or *)
    destruct ps as [l|]; [|discriminate]. simpl in IHps, Hsh.
    destruct (or_inv _ _ _ _ _ _ _ Hsh Hi Hrun)
      as (ls & s1 & s2 & Hloop & Hls & Hlen1 & -> & Hh2 & Hfor).
    destruct (for_of_addNext_steps _ _ _ _ _ Hfor) as (Hlen' & Hsteps).
    assert (Hlen2 : length (heap s2) = S (length (heap s1))).
    { rewrite Hh2, length_app. simpl. lia. }
    change (nullable (Node "or" tx (Some l) sb)) with (existsb nullable l).
    split; intros Hn.
    + destruct (or_loop_reach l IHps Hsh i [] s ls s1 Hc Hi Hloop
                  (or_introl Hn)) as (a & Ha & Hra).
      eapply rtc_r.
      * eapply reach_mono; [|exact Hra].
        intros x y Hxy. apply Hsteps. left. rewrite Hh2.
        apply step_new. exact Hxy.
      * apply Hsteps. right. split; [exact Ha|]. split; [|auto].
        rewrite Forall_forall in Hls. destruct (Hls _ Ha) as (a' & E & Ha').
        inversion E; subst a'. lia.
    + destruct (or_loop_avoid l IHps Hsh Hn (length (heap s)) i [] s ls s1
                  (fun x => x = i) Hc Hi (Nat.le_refl _) Hloop eq_refl)
        as (C & HCi & HCb & HCc & HCls).
      { intros x ->. split; [auto|lia]. }
      { intros x y -> Hxy Hy. apply (step_target _ _ _ _ Hc) in Hxy. lia. }
      { intros a Ha. inversion Ha. }
      exists C. split; [exact HCi|]. split; [|split].
      * intros HCf. destruct (HCb _ HCf). lia.
      * intros x Hx. destruct (HCb x Hx). split; [assumption|lia].
      * intros x y Hx Hxy Hy. apply Hsteps in Hxy.
        destruct Hxy as [Hxy|(Hin & _)].
        -- rewrite Hh2 in Hxy. apply step_new in Hxy.
           exact (HCc x y Hx Hxy Hy).
        -- destruct (HCls x Hin) as [Hnot _]. contradiction.
  - (* cat *)
    destruct ps as [l|]; [|discriminate]. simpl in IHps, Hsh.
    rewrite generateGraph_cat in Hrun.
    change (nullable (Node "cat" tx (Some l) sb)) with (forallb nullable l).
    split; intros Hn.
    + exact (cat_loop_reach l IHps Hsh Hn i s a s' Hc Hi Hrun).
    + exact (cat_loop_avoid l IHps Hsh Hn i s a s' Hc Hi Hrun).
  - (* star *)
    destruct sb as [x|]; [|discriminate]. simpl in IHsb, Hsh.
    rewrite generateGraph_repetition in Hrun by auto.
    destruct (repetition_inv _ _ _ _ _ _ _ Hsh Hi Hrun)
      as (s2 & ax & s3 & Hl2 & Hrun3 & Hb & -> & Hh').
    split; [|discriminate]. intros _. apply rtc_once.
    rewrite Hh'. simpl. apply step_push. right.
    rewrite linked_length, length_alter.
    pose proof (built_extends _ _ _ _ _ Hb) as (Hl & _).
    rewrite Hl2, linked_length in Hl. split; [reflexivity|].
    split; [lia|auto].
  - (* plus *)
    destruct sb as [x|]; [|discriminate]. simpl in IHsb, Hsh.
    rewrite generateGraph_repetition in Hrun by auto.
    destruct (repetition_inv _ _ _ _ _ _ _ Hsh Hi Hrun)
      as (s2 & ax & s3 & Hl2 & Hrun3 & Hb & -> & Hh').
    simpl in Hh'.
    pose proof (built_extends _ _ _ _ _ Hb) as He23.
    destruct Hb as (_ & Hax & Haxl & _).
    assert (Hlen2 : length (heap s2) = S (length (heap s))).
    { rewrite Hl2. apply linked_length. }
    assert (Hlen3 : length (heap s2) <= length (heap s3)).
    { destruct He23 as (Hl & _). exact Hl. }
    assert (Hc2 : closed_heap (heap s2)).
    { rewrite Hl2. apply linked_closed, Hc. }
    destruct (IHsb Hsh (length (heap s)) s2 ax s3 Hc2 ltac:(lia) Hrun3)
      as [Hreach Havoid].
    assert (Hsteps : forall follow u v,
               step (heap s') follow u v <->
               step (heap s3) follow u v
               \/ (u = ax
                   /\ follow (mkEdge (Some epsilon) (length (heap s))) = true
                   /\ v = length (heap s))
               \/ (u = ax
                   /\ follow (mkEdge (Some epsilon) (length (heap s3))) = true
                   /\ v = length (heap s3))).
    { intros follow u v. rewrite Hh'.
      rewrite linked_step by (rewrite length_alter; exact Haxl).
      rewrite step_push, length_alter. simpl. intuition. }
    change (nullable (Node "plus" tx ps (Some x))) with (nullable x).
    split; intros Hn.
    + eapply rtc_l; [|eapply rtc_r].
      * apply Hsteps. left. eapply extends_step_mono; [exact He23|].
        rewrite Hl2. apply linked_step; [exact Hi|]. right. eauto.
      * eapply reach_mono; [|exact (Hreach Hn)].
        intros u v Huv. apply Hsteps. left. exact Huv.
      * apply Hsteps. right. right. auto.
    + destruct (Havoid Hn) as (Cx & HCxt & HCxa & HCxb & HCxc).
      exists (fun u => u = i \/ Cx u).
      assert (Hlen' : length (heap s') = S (length (heap s3))).
      { rewrite Hh', linked_length, length_alter. reflexivity. }
      split; [auto|]. split; [|split].
      * intros [E|HCf]; [lia|]. destruct (HCxb _ HCf). lia.
      * intros u [->|Hu]; [split; [auto|lia]|].
        destruct (HCxb u Hu) as [Hu1 Hu2]. split; [right; lia|lia].
      * intros u v Hu Huv Hv. apply Hsteps in Huv.
        assert (Hua : u <> ax).
        { intros ->. destruct Hu as [E|Hu]; [lia|auto]. }
        destruct Huv as [Huv|[(E & _)|(E & _)]]; [|contradiction..].
        destruct Hu as [->|Hu].
        -- apply (extends_step_old _ _ _ follow_epsilon i v He23) in Huv;
             [|lia..].
           rewrite Hl2 in Huv. apply linked_step in Huv; [|exact Hi].
           destruct Huv as [Huv|(_ & _ & ->)]; [|right; exact HCxt].
           apply (step_target _ _ _ _ Hc) in Huv. lia.
        -- destruct (HCxb u Hu) as [Hu1 Hu2].
           destruct (extends_step_any _ _ _ follow_epsilon u v He23
                       ltac:(lia) Huv) as [Hold|[_ Hnew]].
           ++ rewrite Hl2 in Hold. apply linked_step in Hold; [|exact Hi].
              destruct Hold as [Hold|(-> & _)]; [|lia].
              apply step_source in Hold. lia.
           ++ right. apply (HCxc u v Hu Huv). lia.
  - (* optional *)
    destruct sb as [x|]; [|discriminate]. simpl in IHsb, Hsh.
    rewrite generateGraph_repetition in Hrun by auto.
    destruct (repetition_inv _ _ _ _ _ _ _ Hsh Hi Hrun)
      as (s2 & ax & s3 & Hl2 & Hrun3 & Hb & -> & Hh').
    split; [|discriminate]. intros _. apply rtc_once.
    rewrite Hh'. simpl. apply step_push. right.
    rewrite linked_length.
    pose proof (built_extends _ _ _ _ _ Hb) as (Hl & _).
    rewrite Hl2, linked_length in Hl. split; [reflexivity|].
    split; [lia|auto].
Qed.

(** ** Closure of the initial state of a plus *)

(** C5, the claim as stated fails: for X the empty expression, the closure of
    the initial state of plus(X) holds the final accept state, state 3. *)
Lemma plus_closure_reaches_accept :
  let s' := snd (build (plus_node empty_node) empty_store) in
  build (plus_node empty_node) empty_store = (Ok (0, Some 3), s')
  /\ enclosure (OneState 0) epsilon s' = (Ok [0; 1; 2; 3], s')
  /\ 3 ∈ [0; 1; 2; 3].
Proof.
  split; [reflexivity|]. split; [reflexivity|].
  apply list_elem_of_In. simpl. auto.
Qed.

(** C5, as the code has it: for every tree X of the trusted shape, the build
    of plus(X) gives the initial state one transition only, the empty
    transition to the state X is built from, and every transition into the
    final accept state leaves the accept state of X; the closure of the
    initial state on empty transitions holds the initial state of X; it
    holds the final accept state exactly when X is nullable, that is when X
    can be passed on empty transitions alone.  The accept state of X is the
    state that [generateGraph] returns for X in the store the build has
    reached when it comes to X. *)
Theorem plus_closure X s :
  shaped X = true -> closed_heap (heap s) ->
  let i := length (heap s) in
  exists f s' s2 ax s3 r,
    build (plus_node X) s = (Ok (i, Some f), s')
    /\ s2 = sub_entry s
    /\ generateGraph X (Some (S i)) s2 = (Ok (Some ax), s3)
    /\ next <$> heap s2 !! i = Some [mkEdge (Some epsilon) (S i)]
    /\ next <$> heap s' !! i = Some [mkEdge (Some epsilon) (S i)]
    /\ (forall x, step (heap s') follow_all x f -> x = ax)
    /\ enclosure (OneState i) epsilon s' = (Ok r, s')
    /\ S i ∈ r
    /\ (f ∈ r <-> nullable X = true).
Proof.
  intros Hsh Hc i.
  set (s0 := mkStore (heap s ++ [mkState 0 []]) 0).
  assert (Hl0 : length (heap s0) = S i).
  { subst s0 i. simpl. rewrite length_app. simpl. lia. }
  assert (Hc0 : closed_heap (heap s0)) by (apply closed_new, Hc).
  assert (Hi0 : i < length (heap s0)) by lia.
  assert (Hshp : shaped (plus_node X) = true) by exact Hsh.
  assert (Hbuild : forall v s',
             generateGraph (plus_node X) (Some i) s0 = (Ok v, s') ->
             build (plus_node X) s = (Ok (i, v), s')).
  { intros v s' Hv. rewrite build_unfold. fold s0. fold i.
    rewrite (bind_Ok _ _ _ _ _ Hv). reflexivity. }
  assert (Hh0 : heap s0 = heap s ++ [mkState 0 []]) by reflexivity.
  assert (Hk0 : counter s0 = 0%Z) by reflexivity.
  clearbody s0.
  destruct (generateGraph_built _ Hshp i s0 Hi0)
    as (v & s' & Hrun & f & -> & Hb).
  pose proof (built_extends _ _ _ _ _ Hb) as He0.
  assert (Hc' : closed_heap (heap s')).
  { eapply extends_closed; [exact Hc0|exact He0|exact Hi0]. }
  destruct (generateGraph_passes _ Hshp i s0 f s' Hc0 Hi0 Hrun)
    as [Hreach Havoid].
  change (nullable (plus_node X)) with (nullable X) in Hreach, Havoid.
  pose proof Hrun as Hrun'.
  unfold plus_node in Hrun'.
  rewrite generateGraph_repetition in Hrun' by auto.
  destruct (repetition_inv_store _ _ _ _ _ _ _ Hsh Hi0 Hrun')
    as (s2 & ax & s3 & Hs2 & Hrun3 & Hbx & Hf & Hh').
  assert (Hl2 : heap s2 = linked (heap s0) i (Some epsilon) (counter s0 + 1)).
  { rewrite Hs2. reflexivity. }
  assert (Es : s2 = sub_entry s).
  { rewrite Hs2, Hh0, Hk0. reflexivity. }
  clear Hs2. simpl in Hh'. rewrite Hl0 in *.
  pose proof (built_extends _ _ _ _ _ Hbx) as He23.
  destruct Hbx as (_ & Hax & Haxl & _).
  assert (Hlen2 : length (heap s2) = S (S i)).
  { rewrite Hl2, linked_length. lia. }
  assert (Hlen3 : length (heap s2) <= length (heap s3)).
  { destruct He23 as (Hl & _). exact Hl. }
  assert (Hc3 : closed_heap (heap s3)).
  { eapply extends_closed; [|exact He23|lia].
    rewrite Hl2. apply linked_closed, Hc0. }
  assert (Hsteps : forall follow u w,
             step (heap s') follow u w <->
             step (heap s3) follow u w
             \/ (u = ax /\ follow (mkEdge (Some epsilon) (S i)) = true
                 /\ w = S i)
             \/ (u = ax
                 /\ follow (mkEdge (Some epsilon) (length (heap s3))) = true
                 /\ w = length (heap s3))).
  { intros follow u w. rewrite Hh'.
    rewrite linked_step by (rewrite length_alter; exact Haxl).
    rewrite step_push, length_alter. simpl. intuition. }
  assert (Hi2 : next <$> heap s2 !! i = Some [mkEdge (Some epsilon) (S i)]).
  { rewrite Hl2. unfold linked. rewrite list_lookup_alter_eq.
    rewrite lookup_app_l by lia.
    rewrite Hh0, lookup_app_r by (subst i; lia).
    replace (i - length (heap s)) with 0 by (subst i; lia). simpl.
    rewrite length_app. simpl. repeat f_equal. subst i. lia. }
  assert (Hi' : heap s' !! i = heap s2 !! i).
  { rewrite Hh'. unfold linked.
    rewrite list_lookup_alter_ne by lia.
    rewrite lookup_app_l by (rewrite length_alter; lia).
    rewrite list_lookup_alter_ne by lia.
    destruct He23 as (_ & Hold & _). apply Hold; lia. }
  destruct (visit_roots_total (heap s') follow_epsilon [i] Hc')
    as (r & Hvisit & _ & _ & Hiff).
  { intros x Hx. apply list_elem_of_singleton in Hx. subst x.
    destruct He0 as (Hl & _). lia. }
  assert (Hr : forall x, x ∈ r <-> reach (heap s') follow_epsilon i x).
  { intros x. rewrite Hiff. split.
    - intros (t & Ht & Htx). apply list_elem_of_singleton in Ht.
      subst t. exact Htx.
    - intros Hx. exists i. split; [left|exact Hx]. }
  exists f, s', s2, ax, s3, r.
  split; [exact (Hbuild _ _ Hrun)|]. split; [exact Es|].
  split; [exact Hrun3|split; [exact Hi2|split; [|split; [|split; [|split]]]]].
  - rewrite Hi'. exact Hi2.
  - intros x Hx. apply Hsteps in Hx.
    destruct Hx as [Hx|[(-> & _)|(-> & _)]]; [|reflexivity..].
    apply (step_target _ _ _ _ Hc3) in Hx. lia.
  - rewrite enclosure_visit.
    + change (follow_symbol epsilon) with follow_epsilon.
      cbn [roots]. rewrite Hvisit. reflexivity.
    + exact Hc'.
    + intros x Hx. apply list_elem_of_singleton in Hx. subst x.
      destruct He0 as (Hl & _). simpl. lia.
  - apply Hr. apply rtc_once. apply Hsteps. left.
    eapply extends_step_mono; [exact He23|].
    rewrite Hl2. rewrite <- Hl0.
    apply linked_step; [lia|]. right. auto.
  - rewrite Hr. split; [|exact Hreach].
    intros Hrf. destruct (nullable X) eqn:Hn; [reflexivity|exfalso].
    destruct (Havoid eq_refl) as (C & HCi & HCf & HCb & HCc).
    apply HCf. revert Hrf. apply rtc_ind_r; [exact HCi|].
    intros y z _ Hyz HCy. apply (HCc y z HCy Hyz).
    assert (Hi0' : i < length (heap s0)) by lia.
    destruct (extends_step_any _ _ _ follow_epsilon y z He0 Hi0' Hyz)
      as [Hold|[_ Hnew]]; [|lia].
    rewrite Hh0 in Hold. apply step_new in Hold.
    apply step_source in Hold. destruct (HCb y HCy) as [[->|Hy] _].
    + subst i. lia.
    + subst i. lia.
Qed.

Lemma closed_heap_nil : closed_heap [].
Proof. intros x st e Hst. rewrite lookup_nil in Hst. discriminate. Qed.

Lemma plus_closure_witness :
  shaped (text_node "a") = true /\ closed_heap (heap empty_store)
  /\ exists f s' r,
      build (plus_node (text_node "a")) empty_store = (Ok (0, Some f), s')
      /\ enclosure (OneState 0) epsilon s' = (Ok r, s')
      /\ 1 ∈ r
      /\ (f ∈ r <-> nullable (text_node "a") = true).
Proof.
  split; [reflexivity|]. split; [exact closed_heap_nil|].
  destruct (plus_closure (text_node "a") empty_store eq_refl closed_heap_nil)
    as (f & s' & s2 & ax & s3 & r & H1 & _ & _ & _ & _ & _ & H2 & H3 & H4).
  exists f, s', r. auto.
Defined.

(** ** Size and shape of an alternation *)




(** The same law for whole automata: each build has its own initial state on
    top of what [generateGraph] allocates, so the automaton of an alternation
    has the states of the automata of X and of Y and two more. *)
Lemma alternation_size_of_builds X Y s sx sy :
  shaped X = true -> shaped Y = true ->
  states_allocated (build (or_node [X; Y])) s
  = states_allocated (build X) sx + states_allocated (build Y) sy + 2
  /\ transitions_created (build (or_node [X; Y])) s
     = transitions_created (build X) sx + transitions_created (build Y) sy
       + 4.
Proof.
  intros HX HY.
  assert (Hor : shaped (or_node [X; Y]) = true).
  { simpl. rewrite HX, HY. reflexivity. }
  assert (Hsize : forall t s0,
             shaped t = true ->
             states_allocated (build t) s0 = S (states_of t)
             /\ transitions_created (build t) s0 = transitions_of t).
  { intros t s0 Ht.
    destruct (build_returns t s0 Ht) as (a & s' & Hrun & (He & Hk & Hm) & _).
    unfold states_allocated, transitions_created. rewrite Hrun.
    simpl in *. rewrite length_app in Hk. simpl in Hk.
    rewrite count_transitions_app in Hm.
    unfold count_transitions at 3 in Hm. simpl in Hm. lia. }
  destruct (Hsize _ s Hor) as [H1 H2].
  destruct (Hsize _ sx HX) as [H3 H4].
  destruct (Hsize _ sy HY) as [H5 H6].
  rewrite H1, H2, H3, H4, H5, H6. simpl. lia.
Qed.

(** ** The recursion budget *)

(** The budget of the model only bounds the depth of the recursion: a
    traversal that returns with one budget returns the same with any larger
    one. *)
Lemma for_fold_more {A B} (xs : list A) (body body' : A -> B -> M B) s :
  (forall x acc r s', body x acc s = (Ok r, s') ->
                      s' = s /\ body' x acc s = (Ok r, s')) ->
  forall acc r s',
    for_fold xs acc body s = (Ok r, s') ->
    for_fold xs acc body' s = (Ok r, s').
Proof.
  intros Hb. induction xs as [|x xs IH]; intros acc r s' H; simpl in *.
  - exact H.
  - apply bind_inv in H. destruct H as (acc1 & s1 & H1 & H).
    destruct (Hb _ _ _ _ H1) as [-> H1'].
    rewrite (bind_Ok _ _ _ _ _ H1'). apply IH. exact H.
Qed.

Lemma Enclosure_DFS_more sym s fuel :
  forall fuel' x V r s',
    Enclosure.DFS fuel sym x V s = (Ok r, s') -> fuel <= fuel' ->
    Enclosure.DFS fuel' sym x V s = (Ok r, s').
Proof.
  induction fuel as [|fuel IH]; intros fuel' x V r s' H Hle; [discriminate|].
  destruct fuel' as [|fuel']; [lia|]. simpl in *.
  destruct (Set_has x V); [exact H|].
  apply bind_inv in H. destruct H as (edges & s1 & H1 & H).
  pose proof (readonly_get_next x s) as Hs1. rewrite H1 in Hs1.
  simpl in Hs1. subst s1.
  rewrite (bind_Ok _ _ _ _ _ H1).
  eapply for_fold_more; [|exact H].
  intros e acc r1 s1 Hr. cbv beta in Hr |- *.
  destruct (symbol_eq (symbol e) sym).
  - pose proof (readonly_Enclosure_DFS fuel sym (to e) acc s) as Hro.
    rewrite Hr in Hro. simpl in Hro. subst s1.
    split; [reflexivity|]. apply (IH fuel'); [exact Hr|lia].
  - inversion Hr; subst. split; reflexivity.
Qed.

Lemma Cytograph_DFS_more s fuel :
  forall fuel' x vs r s',
    Cytograph.DFS fuel x vs s = (Ok r, s') -> fuel <= fuel' ->
    Cytograph.DFS fuel' x vs s = (Ok r, s').
Proof.
  induction fuel as [|fuel IH]; intros fuel' x vs r s' H Hle; [discriminate|].
  destruct fuel' as [|fuel']; [lia|]. simpl in *.
  destruct (Set_has x (fst vs)); [exact H|].
  apply bind_inv in H. destruct H as (l & s1 & H1 & H).
  pose proof (readonly_get_label x s) as Hs1. rewrite H1 in Hs1.
  simpl in Hs1. subst s1.
  rewrite (bind_Ok _ _ _ _ _ H1).
  apply bind_inv in H. destruct H as (edges & s1 & H2 & H).
  pose proof (readonly_get_next x s) as Hs1. rewrite H2 in Hs1.
  simpl in Hs1. subst s1.
  rewrite (bind_Ok _ _ _ _ _ H2).
  eapply for_fold_more; [|exact H].
  intros e acc r1 s1 Hr.
  apply bind_inv in Hr. destruct Hr as (l1 & s2 & Hl1 & Hr).
  pose proof (readonly_get_label x s) as Hs2. rewrite Hl1 in Hs2.
  simpl in Hs2. subst s2.
  apply bind_inv in Hr. destruct Hr as (l2 & s2 & Hl2 & Hr).
  pose proof (readonly_get_label (to e) s) as Hs2. rewrite Hl2 in Hs2.
  simpl in Hs2. subst s2.
  split.
  - pose proof (readonly_Cytograph_DFS fuel (to e)
                  (fst acc, snd acc ++ [edge_data l1 l2 (symbol e)]) s) as Hro.
    rewrite Hr in Hro. exact Hro.
  - rewrite (bind_Ok _ _ _ _ _ Hl1). rewrite (bind_Ok _ _ _ _ _ Hl2).
    apply (IH fuel'); [exact Hr|lia].
Qed.

(** * Further properties of the builder *)

(** ** Sizes *)

(** X1: on a tree of the trusted shape [generateGraph] returns a state, and
    the numbers of states and of transitions it creates depend on the tree
    alone, not on the store or on the state it starts at: one state and one
    transition for an empty or a text node; for an or node, those of its
    parts and one state and two transitions more for each part, and one
    state more; for a cat node, those of its parts and nothing more; for a
    repetition, those of its sub-tree and two states more, with four
    transitions more for a star and three for a plus or an optional.  A
    whole build allocates one state more, its initial state. *)
Theorem construct_sizes t :
  shaped t = true ->
  (forall i s,
      i < length (heap s) ->
      (exists a, fst (generateGraph t (Some i) s) = Ok (Some a))
      /\ states_allocated (generateGraph t (Some i)) s = states_of t
      /\ transitions_created (generateGraph t (Some i)) s = transitions_of t)
  /\ (forall s,
         states_allocated (build t) s = S (states_of t)
         /\ transitions_created (build t) s = transitions_of t).
Proof.
  intros Hsh. split.
  - intros i s Hi.
    destruct (generateGraph_built t Hsh i s Hi)
      as (v & s' & Hrun & a & -> & (He & Hk & Hm) & _).
    unfold states_allocated, transitions_created. rewrite Hrun. simpl.
    split; [eauto|]. lia.
  - intros s.
    destruct (build_returns t s Hsh) as (b & sb & Hb & (_ & Hkb & Hmb) & _).
    unfold states_allocated, transitions_created. rewrite Hb.
    simpl in *. rewrite length_app in Hkb. simpl in Hkb.
    rewrite count_transitions_app in Hmb.
    unfold count_transitions at 3 in Hmb. simpl in Hmb. lia.
Qed.

Lemma construct_sizes_witness :
  shaped (or_node [text_node "a"; star_node (text_node "b")]) = true
  /\ states_allocated
       (build (or_node [text_node "a"; star_node (text_node "b")]))
       empty_store
     = S (states_of (or_node [text_node "a"; star_node (text_node "b")])).
Proof.
  split; [reflexivity|].
  destruct (construct_sizes
              (or_node [text_node "a"; star_node (text_node "b")]) eq_refl)
    as [_ H].
  destruct (H empty_store) as [H1 _]. exact H1.
Defined.

Lemma sizes_bound t :
  states_of t + 1 <= 2 * node_count t
  /\ transitions_of t + 3 <= 4 * node_count t.
Proof.
  induction t as [ty tx ps sb IHps IHsb] using node_induction.
  assert (Hps : forall l,
             Forall (fun p => states_of p + 1 <= 2 * node_count p
                              /\ transitions_of p + 3 <= 4 * node_count p) l ->
             sum_list_with (fun p => S (states_of p)) l
             <= 2 * sum_list_with node_count l
             /\ sum_list_with (fun p => S (S (transitions_of p))) l
                <= 4 * sum_list_with node_count l
             /\ sum_list_with states_of l <= 2 * sum_list_with node_count l
             /\ sum_list_with transitions_of l
                <= 4 * sum_list_with node_count l).
  { induction 1 as [|p l [Hp1 Hp2] _ IH]; simpl; lia. }
  cbn [states_of transitions_of node_count].
  destruct ps as [l|]; destruct sb as [x|]; simpl in IHps, IHsb;
    try (specialize (Hps l IHps));
    destruct (String.eqb ty "empty"), (String.eqb ty "text"),
      (String.eqb ty "or"), (String.eqb ty "cat"), (String.eqb ty "star"),
      (String.eqb ty "plus"), (String.eqb ty "optional");
    cbn [orb]; lia.
Qed.

(** X2: the automaton is linear in the size of the tree: a build on a tree
    of the trusted shape allocates at most two states and creates at most
    four transitions for each node of the tree. *)
Theorem build_size_linear t s :
  shaped t = true ->
  states_allocated (build t) s <= 2 * node_count t
  /\ transitions_created (build t) s <= 4 * node_count t.
Proof.
  intros Hsh.
  destruct (build_returns t s Hsh) as (b & sb & Hb & (_ & Hkb & Hmb) & _).
  unfold states_allocated, transitions_created. rewrite Hb.
  simpl in *. rewrite length_app in Hkb. simpl in Hkb.
  rewrite count_transitions_app in Hmb.
  unfold count_transitions at 3 in Hmb. simpl in Hmb.
  destruct (sizes_bound t). lia.
Qed.

Lemma build_size_linear_witness :
  shaped (plus_node (cat_node [text_node "a"; empty_node])) = true
  /\ states_allocated (build (plus_node (cat_node [text_node "a"; empty_node])))
                      empty_store
     <= 2 * node_count (plus_node (cat_node [text_node "a"; empty_node])).
Proof.
  split; [reflexivity|].
  destruct (build_size_linear
              (plus_node (cat_node [text_node "a"; empty_node])) empty_store
              eq_refl) as [H _].
  exact H.
Defined.

(** ** Concatenation *)

(** X3: [generateGraph] on a concatenation of two trees X and Y builds X from
    the given state and Y from the accept state of X, and returns the accept
    state of Y; it allocates no state and creates no transition of its own:
    its states and transitions are those of X and of Y, which are the same
    from whatever state and store. *)
Theorem concatenation_law X Y tx sb :
  shaped X = true -> shaped Y = true ->
  forall i s ix sx iy sy,
    i < length (heap s) -> ix < length (heap sx) -> iy < length (heap sy) ->
    let concatenation :=
      generateGraph (Node "cat" tx (Some [X; Y]) sb) (Some i) in
    (exists aX s1 aY s',
        generateGraph X (Some i) s = (Ok (Some aX), s1)
        /\ generateGraph Y (Some aX) s1 = (Ok (Some aY), s')
        /\ concatenation s = (Ok (Some aY), s'))
    /\ states_allocated concatenation s
       = states_allocated (generateGraph X (Some ix)) sx
         + states_allocated (generateGraph Y (Some iy)) sy
    /\ transitions_created concatenation s
       = transitions_created (generateGraph X (Some ix)) sx
         + transitions_created (generateGraph Y (Some iy)) sy.
Proof.
  intros HX HY i s ix sx iy sy Hi Hix Hiy concatenation.
  assert (Hcat : shaped (Node "cat" tx (Some [X; Y]) sb) = true).
  { simpl. rewrite HX, HY. reflexivity. }
  destruct (generateGraph_sizes _ Hcat i s Hi) as (_ & Hs & Ht).
  destruct (generateGraph_sizes _ HX ix sx Hix) as (_ & HsX & HtX).
  destruct (generateGraph_sizes _ HY iy sy Hiy) as (_ & HsY & HtY).
  subst concatenation.
  split; [|split; [rewrite Hs, HsX, HsY; simpl; lia
                  |rewrite Ht, HtX, HtY; simpl; lia]].
  destruct (generateGraph_built _ Hcat i s Hi) as (v & s' & Hrun & a & -> & _).
  pose proof Hrun as Hrun'. rewrite generateGraph_cat in Hrun'.
  destruct (cat_loop_cons_inv _ _ _ _ _ _ HX Hi Hrun')
    as (aX & s1 & HrunX & (_ & _ & HaX & _) & Hrest).
  destruct (cat_loop_cons_inv _ _ _ _ _ _ HY HaX Hrest)
    as (aY & s2 & HrunY & _ & Hrest').
  simpl in Hrest'. inversion Hrest'. subst.
  exists aX, s1, a, s'. auto.
Qed.

Lemma concatenation_law_witness :
  shaped (text_node "a") = true /\ shaped (star_node (text_node "b")) = true
  /\ states_allocated
       (generateGraph (cat_node [text_node "a"; star_node (text_node "b")])
          (Some 0)) (mkStore [mkState 0 []] 0)
     = states_allocated (generateGraph (text_node "a") (Some 0))
         (mkStore [mkState 0 []] 0)
       + states_allocated (generateGraph (star_node (text_node "b")) (Some 0))
           (mkStore [mkState 0 []] 0).
Proof.
  split; [reflexivity|]. split; [reflexivity|].
  destruct (concatenation_law (text_node "a") (star_node (text_node "b"))
              None None eq_refl eq_refl 0 (mkStore [mkState 0 []] 0)
              0 (mkStore [mkState 0 []] 0) 0 (mkStore [mkState 0 []] 0))
    as (_ & H & _); try (simpl; lia).
  exact H.
Defined.

(** ** Repetitions *)

Lemma closure_of s sym i :
  closed_heap (heap s) -> i < length (heap s) ->
  exists r,
    enclosure (OneState i) sym s = (Ok r, s)
    /\ NoDup r
    /\ forall x, x ∈ r <-> reach (heap s) (follow_symbol sym) i x.
Proof.
  intros Hc Hi.
  assert (Hr : forall x, x ∈ roots (OneState i) -> x < length (heap s)).
  { intros x Hx. apply list_elem_of_singleton in Hx. subst x. exact Hi. }
  destruct (visit_roots_total (heap s) (follow_symbol sym) [i] Hc Hr)
    as (r & Hvisit & Hnd & _ & Hiff).
  exists r. split; [|split; [exact Hnd|]].
  - rewrite enclosure_visit by assumption. cbn [roots].
    rewrite Hvisit. reflexivity.
  - intros x. rewrite Hiff. split.
    + intros (t & Ht & Htx). apply list_elem_of_singleton in Ht.
      subst t. exact Htx.
    + intros Hx. exists i. split; [left|exact Hx].
Qed.

(** The graph of a build whose root is a repetition of X. *)
Lemma build_repetition ty X s :
  ty = "star" \/ ty = "plus" \/ ty = "optional" ->
  shaped X = true -> closed_heap (heap s) ->
  let i := length (heap s) in
  let loop := String.eqb ty "star" || String.eqb ty "plus" in
  let bypass := String.eqb ty "star" || String.eqb ty "optional" in
  exists f s' ax s3,
    build (Node ty None None (Some X)) s = (Ok (i, Some f), s')
    /\ generateGraph X (Some (S i)) (sub_entry s) = (Ok (Some ax), s3)
    /\ f = length (heap s3) /\ S i < f /\ S i <= ax < f
    /\ closed_heap (heap s') /\ length (heap s') = S f
    /\ (forall follow u w,
          step (heap s') follow u w <->
          step (heap s3) follow u w
          \/ (loop = true /\ u = ax
              /\ follow (mkEdge (Some epsilon) (S i)) = true /\ w = S i)
          \/ (u = ax /\ follow (mkEdge (Some epsilon) f) = true /\ w = f)
          \/ (bypass = true /\ u = i
              /\ follow (mkEdge (Some epsilon) f) = true /\ w = f))
    /\ (forall follow,
          follow (mkEdge (Some epsilon) (S i)) = true ->
          step (heap s3) follow i (S i))
    /\ (forall follow u w, step (heap s3) follow u w -> w < f)
    /\ (forall follow u, step (heap s3) follow u (S i) -> u = i).
Proof.
  intros Hty Hsh Hc i loop bypass.
  set (s0 := mkStore (heap s ++ [mkState 0 []]) 0).
  assert (Hl0 : length (heap s0) = S i).
  { subst s0 i. simpl. rewrite length_app. simpl. lia. }
  assert (Hc0 : closed_heap (heap s0)) by (apply closed_new, Hc).
  assert (Hi0 : i < length (heap s0)) by lia.
  assert (Hshp : shaped (Node ty None None (Some X)) = true).
  { destruct Hty as [-> | [-> | ->]]; exact Hsh. }
  assert (Hbuild : forall v s',
             generateGraph (Node ty None None (Some X)) (Some i) s0
             = (Ok v, s') ->
             build (Node ty None None (Some X)) s = (Ok (i, v), s')).
  { intros v s' Hv. rewrite build_unfold. fold s0. fold i.
    rewrite (bind_Ok _ _ _ _ _ Hv). reflexivity. }
  assert (Hh0 : heap s0 = heap s ++ [mkState 0 []]) by reflexivity.
  assert (Hk0 : counter s0 = 0%Z) by reflexivity.
  clearbody s0.
  destruct (generateGraph_built _ Hshp i s0 Hi0)
    as (v & s' & Hrun & f & -> & Hb).
  pose proof (built_extends _ _ _ _ _ Hb) as He0.
  assert (Hc' : closed_heap (heap s')).
  { eapply extends_closed; [exact Hc0|exact He0|exact Hi0]. }
  pose proof Hrun as Hrun'.
  rewrite generateGraph_repetition in Hrun' by exact Hty.
  fold loop in Hrun'. fold bypass in Hrun'.
  destruct (repetition_inv_store _ _ _ _ _ _ _ Hsh Hi0 Hrun')
    as (s2 & ax & s3 & Hs2 & Hrun3 & Hbx & Hf & Hh').
  assert (Hl2 : heap s2 = linked (heap s0) i (Some epsilon) (counter s0 + 1)).
  { rewrite Hs2. reflexivity. }
  assert (Es : s2 = sub_entry s).
  { rewrite Hs2, Hh0, Hk0. reflexivity. }
  clear Hs2. rewrite Hl0 in *.
  pose proof (built_extends _ _ _ _ _ Hbx) as He23.
  destruct Hbx as (_ & Hax & Haxl & _).
  assert (Hc2 : closed_heap (heap s2)).
  { rewrite Hl2. apply linked_closed, Hc0. }
  assert (Hlen2 : length (heap s2) = S (S i)).
  { rewrite Hl2, linked_length. lia. }
  assert (Hlen3 : length (heap s2) <= length (heap s3)).
  { destruct He23 as (Hl & _). exact Hl. }
  assert (Hc3 : closed_heap (heap s3)).
  { eapply extends_closed; [exact Hc2|exact He23|lia]. }
  assert (Hi3 : forall follow,
             follow (mkEdge (Some epsilon) (S i)) = true ->
             step (heap s3) follow i (S i)).
  { intros follow Hfo. eapply extends_step_mono; [exact He23|].
    rewrite Hl2, <- Hl0. apply linked_step; [lia|]. right.
    rewrite Hl0. auto. }
  exists f, s', ax, s3.
  split; [exact (Hbuild _ _ Hrun)|]. split; [rewrite <- Es; exact Hrun3|].
  split; [exact Hf|]. split; [lia|]. split; [lia|]. split; [exact Hc'|].
  assert (Hlen' : length (heap s') = S f).
  { rewrite Hh'. cbv zeta. destruct bypass, loop;
      rewrite ?length_alter, linked_length, ?length_alter; lia. }
  split; [exact Hlen'|]. split; [|split; [exact Hi3|split]].
  - intros follow u w. rewrite Hh'. cbv zeta.
    assert (Hl4 : forall h4,
               length h4 = length (heap s3) ->
               forall u w,
                 step (linked h4 ax (Some epsilon) (counter s3 + 1)) follow u w
                 <-> step h4 follow u w
                     \/ (u = ax /\ follow (mkEdge (Some epsilon) f) = true
                         /\ w = f)).
    { intros h4 E4 u' w'. rewrite linked_step by lia. rewrite E4, <- Hf.
      reflexivity. }
    destruct bypass, loop.
    + rewrite step_push, linked_length, length_alter.
      rewrite Hl4 by apply length_alter. rewrite step_push.
      intuition (try lia; try congruence).
    + rewrite step_push, linked_length.
      rewrite Hl4 by reflexivity.
      intuition (try lia; try congruence).
    + rewrite Hl4 by apply length_alter. rewrite step_push.
      intuition (try lia; try congruence).
    + rewrite Hl4 by reflexivity.
      intuition (try lia; try congruence).
  - intros follow u w Huw. apply (step_target _ _ _ _ Hc3) in Huw. lia.
  - intros follow u Hu.
    destruct (extends_step_any _ _ _ follow u (S i) He23 ltac:(lia) Hu)
      as [Hold|[_ Hnew]]; [|lia].
    rewrite Hl2, <- Hl0 in Hold. apply linked_step in Hold; [|lia].
    destruct Hold as [Hold|(-> & _)]; [|reflexivity].
    apply (step_target _ _ _ _ Hc0) in Hold. lia.
Qed.

(** X4: in the automaton built for star(X), for every tree X of the trusted
    shape, the initial state has an empty transition to the state X is built
    from and one straight to the final accept state, and the accept state of X
    has an empty transition back to the state X is built from and one to the
    final accept state; so the closure of the initial state on empty
    transitions holds both the initial state of X and the final accept
    state.  The accept state of X is the state that [generateGraph] returns
    for X in the store the build has reached when it comes to X; it is the
    state X is built from or a later one, and it is not the final accept
    state. *)
Theorem star_topology X s :
  shaped X = true -> closed_heap (heap s) ->
  let i := length (heap s) in
  exists f s' ax s3 r,
    build (star_node X) s = (Ok (i, Some f), s')
    /\ generateGraph X (Some (S i)) (sub_entry s) = (Ok (Some ax), s3)
    /\ S i <= ax < f
    /\ step (heap s') follow_epsilon i (S i)
    /\ step (heap s') follow_epsilon i f
    /\ step (heap s') follow_epsilon ax (S i)
    /\ step (heap s') follow_epsilon ax f
    /\ enclosure (OneState i) epsilon s' = (Ok r, s')
    /\ S i ∈ r /\ f ∈ r.
Proof.
  intros Hsh Hc i.
  destruct (build_repetition "star" X s ltac:(auto) Hsh Hc)
    as (f & s' & ax & s3 & Hbuild & HrunX & Hf & Hif & Haf & Hc' & Hlen'
        & Hsteps & Hi3 & _ & _).
  fold i in Hbuild, HrunX, Hif, Hsteps, Hi3. simpl in Hsteps.
  destruct (closure_of s' epsilon i Hc' ltac:(lia)) as (r & Hencl & _ & Hr).
  assert (H1 : step (heap s') follow_epsilon i (S i)).
  { apply Hsteps. left. apply Hi3. reflexivity. }
  assert (H2 : step (heap s') follow_epsilon i f).
  { apply Hsteps. right. right. right. auto. }
  exists f, s', ax, s3, r.
  split; [exact Hbuild|]. split; [exact HrunX|]. split; [exact Haf|].
  split; [exact H1|].
  split; [exact H2|]. split; [|split; [|split; [exact Hencl|split]]].
  - apply Hsteps. right. left. auto.
  - apply Hsteps. right. right. left. auto.
  - apply Hr. apply rtc_once. exact H1.
  - apply Hr. apply rtc_once. exact H2.
Qed.

Lemma star_topology_witness :
  shaped (text_node "a") = true /\ closed_heap (heap empty_store)
  /\ exists f s' r,
      build (star_node (text_node "a")) empty_store = (Ok (0, Some f), s')
      /\ enclosure (OneState 0) epsilon s' = (Ok r, s')
      /\ 1 ∈ r /\ f ∈ r.
Proof.
  split; [reflexivity|]. split; [exact closed_heap_nil|].
  destruct (star_topology (text_node "a") empty_store eq_refl closed_heap_nil)
    as (f & s' & ax & s3 & r & H1 & _ & _ & _ & _ & _ & _ & H2 & H3 & H4).
  exists f, s', r. auto.
Defined.

(** X5: in the automaton built for optional(X), for every tree X of the
    trusted shape, the initial state has an empty transition straight to the
    final accept state and the accept state of X has one too, so the closure
    of the initial state on empty transitions holds the final accept state
    as well as the initial state of X; and the only transition into the
    state X is built from is the one from the initial state: nothing leads
    back into X.  The accept state of X is the state that [generateGraph]
    returns for X in the store the build has reached when it comes to X; it
    is the state X is built from or a later one, and it is not the final
    accept state. *)
Theorem optional_topology X s :
  shaped X = true -> closed_heap (heap s) ->
  let i := length (heap s) in
  exists f s' ax s3 r,
    build (optional_node X) s = (Ok (i, Some f), s')
    /\ generateGraph X (Some (S i)) (sub_entry s) = (Ok (Some ax), s3)
    /\ S i <= ax < f
    /\ step (heap s') follow_epsilon i f
    /\ step (heap s') follow_epsilon ax f
    /\ (forall u, step (heap s') follow_all u (S i) -> u = i)
    /\ enclosure (OneState i) epsilon s' = (Ok r, s')
    /\ S i ∈ r /\ f ∈ r.
Proof.
  intros Hsh Hc i.
  destruct (build_repetition "optional" X s ltac:(auto) Hsh Hc)
    as (f & s' & ax & s3 & Hbuild & HrunX & Hf & Hif & Haf & Hc' & Hlen'
        & Hsteps & Hi3 & _ & Hinto).
  fold i in Hbuild, HrunX, Hif, Hsteps, Hi3, Hinto. simpl in Hsteps.
  destruct (closure_of s' epsilon i Hc' ltac:(lia)) as (r & Hencl & _ & Hr).
  assert (H1 : step (heap s') follow_epsilon i (S i)).
  { apply Hsteps. left. apply Hi3. reflexivity. }
  assert (H2 : step (heap s') follow_epsilon i f).
  { apply Hsteps. right. right. right. auto. }
  exists f, s', ax, s3, r.
  split; [exact Hbuild|]. split; [exact HrunX|]. split; [exact Haf|].
  split; [exact H2|].
  split; [|split; [|split; [exact Hencl|split]]].
  - apply Hsteps. right. right. left. auto.
  - intros u Hu. apply Hsteps in Hu.
    destruct Hu as [Hu|[(E & _)|[(_ & _ & E)|(_ & _ & _ & E)]]];
      [exact (Hinto _ _ Hu)|discriminate|lia|lia].
  - apply Hr. apply rtc_once. exact H1.
  - apply Hr. apply rtc_once. exact H2.
Qed.

Lemma optional_topology_witness :
  shaped (text_node "a") = true /\ closed_heap (heap empty_store)
  /\ exists f s' r,
      build (optional_node (text_node "a")) empty_store = (Ok (0, Some f), s')
      /\ (forall u, step (heap s') follow_all u 1 -> u = 0)
      /\ enclosure (OneState 0) epsilon s' = (Ok r, s')
      /\ f ∈ r.
Proof.
  split; [reflexivity|]. split; [exact closed_heap_nil|].
  destruct (optional_topology (text_node "a") empty_store eq_refl
              closed_heap_nil)
    as (f & s' & ax & s3 & r & H1 & _ & _ & _ & _ & H2 & H3 & _ & H4).
  exists f, s', r. auto.
Defined.

(** The transitions after a repetition, in terms of those after its
    sub-tree. *)
Lemma repetition_steps loop bypass x i s f s' :
  shaped x = true -> i < length (heap s) ->
  repetition loop bypass x (Some i) s = (Ok (Some f), s') ->
  exists s2 ax s3,
    heap s2 = linked (heap s) i (Some epsilon) (counter s + 1)
    /\ generateGraph x (Some (length (heap s))) s2 = (Ok (Some ax), s3)
    /\ built x (length (heap s)) s2 ax s3
    /\ f = length (heap s3)
    /\ length (heap s') = S f
    /\ forall follow u w,
        step (heap s') follow u w <->
        step (heap s3) follow u w
        \/ (loop = true /\ u = ax
            /\ follow (mkEdge (Some epsilon) (length (heap s))) = true
            /\ w = length (heap s))
        \/ (u = ax /\ follow (mkEdge (Some epsilon) f) = true /\ w = f)
        \/ (bypass = true /\ u = i
            /\ follow (mkEdge (Some epsilon) f) = true /\ w = f).
Proof.
  intros Hsh Hi Hrun.
  destruct (repetition_inv _ _ _ _ _ _ _ Hsh Hi Hrun)
    as (s2 & ax & s3 & Hl2 & Hrun3 & Hbx & Hf & Hh').
  exists s2, ax, s3.
  split; [exact Hl2|]. split; [exact Hrun3|]. split; [exact Hbx|].
  split; [exact Hf|].
  pose proof (built_extends _ _ _ _ _ Hbx) as (Hlen3 & _).
  rewrite Hl2, linked_length in Hlen3.
  destruct Hbx as (_ & Hax & Haxl & _).
  split.
  { rewrite Hh'. cbv zeta. destruct bypass, loop;
      rewrite ?length_alter, linked_length, ?length_alter; lia. }
  intros follow u w. rewrite Hh'. cbv zeta.
  assert (Hl4 : forall h4,
             length h4 = length (heap s3) ->
             forall u w,
               step (linked h4 ax (Some epsilon) (counter s3 + 1)) follow u w
               <-> step h4 follow u w
                   \/ (u = ax /\ follow (mkEdge (Some epsilon) f) = true
                       /\ w = f)).
  { intros h4 E4 u' w'. rewrite linked_step by lia. rewrite E4, <- Hf.
    reflexivity. }
  destruct bypass, loop.
  - rewrite step_push, linked_length, length_alter.
    rewrite Hl4 by apply length_alter. rewrite step_push.
    intuition (try lia; try congruence).
  - rewrite step_push, linked_length.
    rewrite Hl4 by reflexivity.
    intuition (try lia; try congruence).
  - rewrite Hl4 by apply length_alter. rewrite step_push.
    intuition (try lia; try congruence).
  - rewrite Hl4 by reflexivity.
    intuition (try lia; try congruence).
Qed.

(** ** The graph of a build and the rest of the heap *)

Lemma build_sides t s :
  shaped t = true -> closed_heap (heap s) ->
  let s' := snd (build t s) in
  let b := length (heap s) in
  (forall x, x < b -> heap s' !! x = heap s !! x)
  /\ S b <= length (heap s')
  /\ (forall x y, step (heap s') follow_all x y ->
                  (x < b /\ y < b) \/ (b <= x /\ b < y)).
Proof.
  intros Hsh Hc s' b.
  destruct (build_returns t s Hsh) as (a & s1 & Hrun & (He & Hk & _) & _).
  assert (Es : s' = s1) by (subst s'; rewrite Hrun; reflexivity).
  rewrite <- Es in *. simpl in He, Hk. clear Es Hrun.
  assert (Hl0 : length (heap s ++ [mkState 0 []]) = S b).
  { rewrite length_app. simpl. subst b. lia. }
  split; [|split].
  - intros x Hx. destruct He as (_ & Hold & _).
    rewrite Hold by (fold b; lia).
    apply lookup_app_l. exact Hx.
  - rewrite Hk, Hl0. lia.
  - intros x y Hxy.
    destruct (extends_step_any _ _ _ follow_all x y He ltac:(lia) Hxy)
      as [Hold|[Hx Hy]].
    + apply step_new in Hold. left. split.
      * exact (step_source _ _ _ _ Hold).
      * exact (step_target _ _ _ _ Hc Hold).
    + right. fold b in Hx. lia.
Qed.

Lemma build_reach_inside t s :
  shaped t = true -> closed_heap (heap s) ->
  forall x,
    reach (heap (snd (build t s))) follow_all (length (heap s)) x ->
    length (heap s) <= x < length (heap (snd (build t s))).
Proof.
  intros Hsh Hc x Hx.
  destruct (build_sides t s Hsh Hc) as (_ & Hlen & Hsteps).
  pose proof (build_closed t s Hsh Hc) as Hc'.
  split.
  - revert x Hx. apply rtc_ind_r; [lia|].
    intros y z _ Hyz Hy. destruct (Hsteps y z Hyz); lia.
  - destruct (rtc_inv_r _ _ Hx) as [<-|(y & _ & Hyx)]; [lia|].
    exact (step_target _ _ _ _ Hc' Hyx).
Qed.

(** X6: a build on a tree of the trusted shape leaves every state that
    existed before it as it was, and the graph it makes is closed on itself:
    in the heap after the build no transition leads from a state of the build
    to an earlier state or from an earlier state to a state of the build, so
    whatever is reached from its initial state is a state of the build; and
    every transition still points into the heap. *)
Theorem build_frame t s :
  shaped t = true -> closed_heap (heap s) ->
  let s' := snd (build t s) in
  let b := length (heap s) in
  closed_heap (heap s')
  /\ (forall x, x < b -> heap s' !! x = heap s !! x)
  /\ (forall x y, step (heap s') follow_all x y -> (x < b <-> y < b))
  /\ (forall x, reach (heap s') follow_all b x -> b <= x < length (heap s')).
Proof.
  intros Hsh Hc s' b.
  destruct (build_sides t s Hsh Hc) as (Hold & _ & Hsteps).
  split; [exact (build_closed t s Hsh Hc)|]. split; [exact Hold|].
  split; [|exact (build_reach_inside t s Hsh Hc)].
  intros x y Hxy. destruct (Hsteps x y Hxy); fold b; lia.
Qed.

Lemma build_frame_witness :
  let s := snd (build (text_node "a") empty_store) in
  let s' := snd (build (star_node (text_node "b")) s) in
  shaped (star_node (text_node "b")) = true /\ closed_heap (heap s)
  /\ forall x, x < 2 -> heap s' !! x = heap s !! x.
Proof.
  intros s s'. split; [reflexivity|].
  assert (Hc : closed_heap (heap s)).
  { apply closed_heapb_closed. reflexivity. }
  split; [exact Hc|].
  destruct (build_frame (star_node (text_node "b")) s eq_refl Hc)
    as (_ & H & _).
  exact H.
Defined.

(** ** The accept state *)

Lemma final_next h x :
  x < length h -> final h x -> next <$> h !! x = Some [].
Proof.
  intros Hx Hf. destruct (lookup_lt_is_Some_2 _ _ Hx) as [st Hst].
  rewrite Hst. simpl. f_equal.
  destruct (next st) as [|e es] eqn:E; [reflexivity|].
  exfalso. apply (Hf (to e)). apply step_iff. exists st, e.
  rewrite E. split; [exact Hst|]. split; [left|]. auto.
Qed.

Lemma cat_loop_ends ps :
  Forall ends ps -> forallb shaped ps = true ->
  forall j s a s',
    j < length (heap s) ->
    cat_loop generateGraph (Some j) ps s = (Ok (Some a), s') ->
    (a = j /\ s' = s) \/ (length (heap s) <= a /\ final (heap s') a).
Proof.
  induction 1 as [|p ps Hp _ IH]; intros Hsh j s a s' Hj Hrun.
  - simpl in Hrun. inversion Hrun; subst. left. auto.
  - simpl in Hsh. apply andb_prop in Hsh. destruct Hsh as [Hshp Hshps].
    destruct (cat_loop_cons_inv _ _ _ _ _ _ Hshp Hj Hrun)
      as (a1 & s1 & Hrun1 & Hb & Hrest).
    pose proof (built_extends _ _ _ _ _ Hb) as (Hl1 & _).
    destruct Hb as (_ & _ & Ha1l & _).
    destruct (Hp Hshp j s a1 s1 Hj Hrun1) as [[-> ->]|[Ha1 Hf1]].
    + exact (IH Hshps j s a s' Hj Hrest).
    + destruct (IH Hshps a1 s1 a s' Ha1l Hrest) as [[-> ->]|[Ha Hf]].
      * right. auto.
      * right. split; [lia|exact Hf].
Qed.

Lemma generateGraph_ends t : ends t.
Proof.
  induction t as [ty tx ps sb IHps IHsb] using node_induction.
  intros Hsh i s a s' Hi Hrun.
  pose proof (shaped_documented _ _ _ _ Hsh) as Hdoc.
  destruct (kind_cases ty)
    as [-> | [-> | [-> | [-> | [-> | [-> | [-> | Hno]]]]]]]; [..|congruence].
  - right. rewrite generateGraph_empty in Hrun.
    apply leaf_inv in Hrun. destruct Hrun as [-> Hh].
    split; [lia|]. intros y Hy. rewrite Hh in Hy.
    apply linked_step in Hy; [|exact Hi].
    destruct Hy as [Hy|(E & _)]; [apply step_source in Hy|]; lia.
  - right. rewrite generateGraph_text in Hrun.
    apply leaf_inv in Hrun. destruct Hrun as [-> Hh].
    split; [lia|]. intros y Hy. rewrite Hh in Hy.
    apply linked_step in Hy; [|exact Hi].
    destruct Hy as [Hy|(E & _)]; [apply step_source in Hy|]; lia.
  - right. destruct ps as [l|]; [|discriminate]. simpl in IHps, Hsh.
    destruct (or_inv _ _ _ _ _ _ _ Hsh Hi Hrun)
      as (ls & s1 & s2 & Hloop & Hls & Hlen1 & -> & Hh2 & Hfor).
    destruct (for_of_addNext_steps _ _ _ _ _ Hfor) as (Hlen' & Hsteps).
    split; [exact Hlen1|]. intros y Hy. apply Hsteps in Hy.
    destruct Hy as [Hy|(Hin & _)].
    + rewrite Hh2 in Hy. apply step_new, step_source in Hy. lia.
    + rewrite Forall_forall in Hls. destruct (Hls _ Hin) as (a' & E & Ha').
      inversion E; subst a'. lia.
  - destruct ps as [l|]; [|discriminate]. simpl in IHps, Hsh.
    rewrite generateGraph_cat in Hrun.
    exact (cat_loop_ends l IHps Hsh i s a s' Hi Hrun).
  - right. destruct sb as [x|]; [|discriminate]. simpl in IHsb, Hsh.
    rewrite generateGraph_repetition in Hrun by auto.
    destruct (repetition_steps _ _ _ _ _ _ _ Hsh Hi Hrun)
      as (s2 & ax & s3 & Hl2 & _ & Hb & -> & _ & Hsteps).
    pose proof (built_extends _ _ _ _ _ Hb) as (Hl3 & _).
    destruct Hb as (_ & _ & Hax & _).
    rewrite Hl2, linked_length in Hl3.
    split; [lia|]. intros y Hy. apply Hsteps in Hy.
    destruct Hy as [Hy|[(_ & E & _)|[(E & _)|(_ & E & _)]]];
      [apply step_source in Hy|..]; lia.
  - right. destruct sb as [x|]; [|discriminate]. simpl in IHsb, Hsh.
    rewrite generateGraph_repetition in Hrun by auto.
    destruct (repetition_steps _ _ _ _ _ _ _ Hsh Hi Hrun)
      as (s2 & ax & s3 & Hl2 & _ & Hb & -> & _ & Hsteps).
    pose proof (built_extends _ _ _ _ _ Hb) as (Hl3 & _).
    destruct Hb as (_ & _ & Hax & _).
    rewrite Hl2, linked_length in Hl3.
    split; [lia|]. intros y Hy. apply Hsteps in Hy.
    destruct Hy as [Hy|[(_ & E & _)|[(E & _)|(_ & E & _)]]];
      [apply step_source in Hy|..]; lia.
  - right. destruct sb as [x|]; [|discriminate]. simpl in IHsb, Hsh.
    rewrite generateGraph_repetition in Hrun by auto.
    destruct (repetition_steps _ _ _ _ _ _ _ Hsh Hi Hrun)
      as (s2 & ax & s3 & Hl2 & _ & Hb & -> & _ & Hsteps).
    pose proof (built_extends _ _ _ _ _ Hb) as (Hl3 & _).
    destruct Hb as (_ & _ & Hax & _).
    rewrite Hl2, linked_length in Hl3.
    split; [lia|]. intros y Hy. apply Hsteps in Hy.
    destruct Hy as [Hy|[(_ & E & _)|[(E & _)|(_ & E & _)]]];
      [apply step_source in Hy|..]; lia.
Qed.

(** X7: when a build on a tree of the trusted shape returns, its accept state
    has no outgoing transition. *)
Theorem accept_state_is_final t s :
  shaped t = true ->
  exists a s',
    build t s = (Ok (length (heap s), Some a), s')
    /\ next <$> heap s' !! a = Some [].
Proof.
  intros Hsh.
  destruct (build_returns t s Hsh) as (a & s' & Hrun & Hb).
  exists a, s'. split; [exact Hrun|].
  destruct Hb as (_ & _ & Hal & _).
  apply final_next; [exact Hal|].
  rewrite build_unfold in Hrun.
  apply bind_inv in Hrun. destruct Hrun as (v & s1 & Hgen & Hret).
  inversion Hret; subst v s1. clear Hret.
  assert (Hi : length (heap s)
               < length (heap (mkStore (heap s ++ [mkState 0 []]) 0))).
  { simpl. rewrite length_app. simpl. lia. }
  destruct (generateGraph_ends t Hsh _ _ _ _ Hi Hgen) as [[-> ->]|[_ Hf]];
    [|exact Hf].
  intros y Hy. simpl in Hy. apply step_iff in Hy.
  destruct Hy as (st & e & Hst & He & _).
  rewrite lookup_app_r in Hst by lia. rewrite Nat.sub_diag in Hst.
  simpl in Hst. inversion Hst; subst st. inversion He.
Qed.

Lemma accept_state_is_final_witness :
  shaped (cat_node [text_node "a"; star_node (text_node "b")]) = true
  /\ exists a s',
      build (cat_node [text_node "a"; star_node (text_node "b")]) empty_store
      = (Ok (0, Some a), s')
      /\ next <$> heap s' !! a = Some [].
Proof.
  split; [reflexivity|].
  exact (accept_state_is_final
           (cat_node [text_node "a"; star_node (text_node "b")])
           empty_store eq_refl).
Defined.

(** ** Every state of a build is reached *)

Lemma or_loop_spans ps :
  Forall spans ps -> forallb shaped ps = true ->
  forallb or_nonempty ps = true ->
  forall n i acc s ls s',
    i < n -> n <= length (heap s) ->
    (forall x, n <= x < length (heap s) -> reach (heap s) follow_all i x) ->
    or_loop generateGraph (Some i) ps acc s = (Ok ls, s') ->
    forall x, n <= x < length (heap s') -> reach (heap s') follow_all i x.
Proof.
  induction 1 as [|p ps Hp _ IH];
    intros Hsh Hne n i acc s ls s' Hi Hn Hall Hrun.
  - simpl in Hrun. inversion Hrun; subst. exact Hall.
  - simpl in Hsh. apply andb_prop in Hsh. destruct Hsh as [Hshp Hshps].
    simpl in Hne. apply andb_prop in Hne. destruct Hne as [Hnep Hneps].
    assert (Hil : i < length (heap s)) by lia.
    destruct (or_loop_cons_inv _ _ _ _ _ _ _ Hshp Hil Hrun)
      as (s2 & ap & s3 & Hl2 & Hrun3 & Hb & Hrest).
    pose proof (built_extends _ _ _ _ _ Hb) as He23.
    assert (He2 : extends i (heap s) (heap s2)).
    { rewrite Hl2. apply linked_extends, Hil. }
    assert (Hlen2 : length (heap s2) = S (length (heap s))).
    { rewrite Hl2. apply linked_length. }
    assert (Hlen3 : length (heap s2) <= length (heap s3)).
    { destruct He23 as (Hl & _). exact Hl. }
    assert (He3 : extends i (heap s) (heap s3)).
    { eapply extends_trans; [exact He2|exact He23|exact Hil|]. right. lia. }
    assert (Hentry : reach (heap s3) follow_all i (length (heap s))).
    { apply rtc_once. eapply extends_step_mono; [exact He23|].
      rewrite Hl2. apply linked_step; [exact Hil|]. right. auto. }
    apply (IH Hshps Hneps n i (acc ++ [Some ap]) s3 ls s' Hi ltac:(lia));
      [|exact Hrest].
    intros x Hx.
    destruct (decide (x < length (heap s))) as [Hlt|Hge].
    + eapply extends_reach; [exact He3|]. apply Hall. lia.
    + destruct (decide (x = length (heap s))) as [->|Hne]; [exact Hentry|].
      eapply rtc_trans; [exact Hentry|].
      apply (Hp Hshp Hnep (length (heap s)) s2 ap s3 ltac:(lia) Hrun3). lia.
Qed.

Lemma cat_loop_spans ps :
  Forall spans ps -> forallb shaped ps = true ->
  forallb or_nonempty ps = true ->
  forall j s a s',
    j < length (heap s) ->
    cat_loop generateGraph (Some j) ps s = (Ok (Some a), s') ->
    forall x, length (heap s) <= x < length (heap s') ->
              reach (heap s') follow_all j x.
Proof.
  induction 1 as [|p ps Hp _ IH]; intros Hsh Hne j s a s' Hj Hrun x Hx.
  - simpl in Hrun. inversion Hrun; subst. lia.
  - simpl in Hsh. apply andb_prop in Hsh. destruct Hsh as [Hshp Hshps].
    simpl in Hne. apply andb_prop in Hne. destruct Hne as [Hnep Hneps].
    destruct (cat_loop_cons_inv _ _ _ _ _ _ Hshp Hj Hrun)
      as (a1 & s1 & Hrun1 & Hb & Hrest).
    destruct Hb as (_ & Ha1 & Ha1l & _).
    destruct (cat_loop_built ps a1 s1 _ s' Hshps Ha1l Hrest)
      as (a' & _ & He' & _).
    assert (Hpart : forall y, length (heap s) <= y < length (heap s1) ->
                              reach (heap s') follow_all j y).
    { intros y Hy. eapply extends_reach; [exact He'|].
      exact (Hp Hshp Hnep j s a1 s1 Hj Hrun1 y Hy). }
    destruct (decide (x < length (heap s1))) as [Hlt|Hge].
    + apply Hpart. lia.
    + eapply rtc_trans.
      * destruct Ha1 as [->|Ha1]; [apply rtc_refl|apply Hpart; lia].
      * apply (IH Hshps Hneps a1 s1 a s' Ha1l Hrest). lia.
Qed.

Lemma repetition_spans loop bypass x :
  spans x -> shaped x = true -> or_nonempty x = true ->
  forall i s f s',
    i < length (heap s) ->
    repetition loop bypass x (Some i) s = (Ok (Some f), s') ->
    forall y, length (heap s) <= y < length (heap s') ->
              reach (heap s') follow_all i y.
Proof.
  intros Hx Hsh Hne i s f s' Hi Hrun y Hy.
  destruct (repetition_steps _ _ _ _ _ _ _ Hsh Hi Hrun)
    as (s2 & ax & s3 & Hl2 & Hrun3 & Hb & -> & Hlen' & Hsteps).
  pose proof (built_extends _ _ _ _ _ Hb) as He23.
  destruct Hb as (_ & Hax & Haxl & _).
  assert (Hlen2 : length (heap s2) = S (length (heap s))).
  { rewrite Hl2. apply linked_length. }
  assert (Hlen3 : length (heap s2) <= length (heap s3)).
  { destruct He23 as (Hl & _). exact Hl. }
  assert (Hlift : forall u w, reach (heap s3) follow_all u w ->
                              reach (heap s') follow_all u w).
  { intros u w. apply reach_mono. intros c d Hcd. apply Hsteps. auto. }
  assert (Hentry : reach (heap s') follow_all i (length (heap s))).
  { apply Hlift, rtc_once. eapply extends_step_mono; [exact He23|].
    rewrite Hl2. apply linked_step; [exact Hi|]. right. auto. }
  assert (Hsub : forall z, length (heap s2) <= z < length (heap s3) ->
                           reach (heap s') follow_all i z).
  { intros z Hz. eapply rtc_trans; [exact Hentry|]. apply Hlift.
    apply (Hx Hsh Hne (length (heap s)) s2 ax s3 ltac:(lia) Hrun3). exact Hz. }
  destruct (decide (y = length (heap s))) as [->|Hne1]; [exact Hentry|].
  destruct (decide (y < length (heap s3))) as [Hlt|Hge]; [apply Hsub; lia|].
  assert (y = length (heap s3)) as -> by lia.
  apply rtc_r with ax.
  - destruct Hax as [->|Hax]; [exact Hentry|apply Hsub; lia].
  - apply Hsteps. right. right. left. auto.
Qed.

Lemma generateGraph_spans t : spans t.
Proof.
  induction t as [ty tx ps sb IHps IHsb] using node_induction.
  intros Hsh Hne i s a s' Hi Hrun.
  pose proof (shaped_documented _ _ _ _ Hsh) as Hdoc.
  assert (Hsubne : match sb with Some x => or_nonempty x = true
                              | None => True end).
  { simpl in Hne. destruct sb as [x|]; [|exact I].
    apply andb_prop in Hne. destruct Hne as [_ Hne]. exact Hne. }
  assert (Hpsne : match ps with Some l => forallb or_nonempty l = true
                             | None => True end).
  { simpl in Hne. destruct ps as [l|]; [|exact I].
    apply andb_prop in Hne. destruct Hne as [Hne _].
    apply andb_prop in Hne. destruct Hne as [_ Hne]. exact Hne. }
  destruct (kind_cases ty)
    as [-> | [-> | [-> | [-> | [-> | [-> | [-> | Hno]]]]]]]; [..|congruence].
  - rewrite generateGraph_empty in Hrun.
    apply leaf_inv in Hrun. destruct Hrun as [-> Hh].
    intros x Hx. rewrite Hh, linked_length in Hx.
    assert (x = length (heap s)) as -> by lia.
    apply rtc_once. rewrite Hh. apply linked_step; [exact Hi|]. right. auto.
  - rewrite generateGraph_text in Hrun.
    apply leaf_inv in Hrun. destruct Hrun as [-> Hh].
    intros x Hx. rewrite Hh, linked_length in Hx.
    assert (x = length (heap s)) as -> by lia.
    apply rtc_once. rewrite Hh. apply linked_step; [exact Hi|]. right. auto.
  - destruct ps as [l|]; [|discriminate]. simpl in IHps, Hsh.
    assert (Hl : l <> []).
    { intros ->. simpl in Hne. discriminate. }
    destruct (or_inv _ _ _ _ _ _ _ Hsh Hi Hrun)
      as (ls & s1 & s2 & Hloop & Hls & Hlen1 & -> & Hh2 & Hfor).
    destruct (for_of_addNext_steps _ _ _ _ _ Hfor) as (Hlen' & Hsteps).
    assert (Hlen2 : length (heap s2) = S (length (heap s1))).
    { rewrite Hh2, length_app. simpl. lia. }
    pose proof (or_loop_grown l (all_build l) Hsh i (heap s) 0 0 [] s
                  (grown_start i (heap s)) Hi (List.Forall_nil _)) as Hr.
    destruct (returns_inv _ _ _ _ _ Hr Hloop) as (_ & _ & Hll).
    simpl in Hll.
    assert (Hin1 : forall x, length (heap s) <= x < length (heap s1) ->
                             reach (heap s1) follow_all i x).
    { apply (or_loop_spans l IHps Hsh Hpsne (length (heap s)) i [] s ls s1 Hi
               (Nat.le_refl _)); [|exact Hloop].
      intros x Hx. lia. }
    assert (Hlift : forall u w, reach (heap s1) follow_all u w ->
                                reach (heap s') follow_all u w).
    { intros u w. apply reach_mono. intros c d Hcd. apply Hsteps. left.
      rewrite Hh2. apply step_new. exact Hcd. }
    intros x Hx.
    destruct (decide (x < length (heap s1))) as [Hlt|Hge];
      [apply Hlift, Hin1; lia|].
    assert (x = length (heap s1)) as -> by lia.
    destruct ls as [|v ls]; [destruct l; [congruence|discriminate]|].
    rewrite Forall_forall in Hls.
    destruct (Hls v ltac:(left)) as (a & -> & Ha).
    apply rtc_r with a; [apply Hlift, Hin1; lia|].
    apply Hsteps. right. split; [left|]. split; [lia|auto].
  - destruct ps as [l|]; [|discriminate]. simpl in IHps, Hsh.
    rewrite generateGraph_cat in Hrun.
    exact (cat_loop_spans l IHps Hsh Hpsne i s a s' Hi Hrun).
  - destruct sb as [x|]; [|discriminate]. simpl in IHsb, Hsh.
    rewrite generateGraph_repetition in Hrun by auto.
    exact (repetition_spans _ _ x IHsb Hsh Hsubne i s a s' Hi Hrun).
  - destruct sb as [x|]; [|discriminate]. simpl in IHsb, Hsh.
    rewrite generateGraph_repetition in Hrun by auto.
    exact (repetition_spans _ _ x IHsb Hsh Hsubne i s a s' Hi Hrun).
  - destruct sb as [x|]; [|discriminate]. simpl in IHsb, Hsh.
    rewrite generateGraph_repetition in Hrun by auto.
    exact (repetition_spans _ _ x IHsb Hsh Hsubne i s a s' Hi Hrun).
Qed.

Lemma build_spans t s :
  shaped t = true -> or_nonempty t = true ->
  forall x, length (heap s) <= x < length (heap (snd (build t s))) ->
            reach (heap (snd (build t s))) follow_all (length (heap s)) x.
Proof.
  intros Hsh Hne x Hx.
  destruct (build_returns t s Hsh) as (a & s' & Hrun & _).
  rewrite Hrun in *. simpl in *.
  rewrite build_unfold in Hrun.
  apply bind_inv in Hrun. destruct Hrun as (v & s1 & Hgen & Hret).
  inversion Hret; subst v s1. clear Hret.
  destruct (decide (x = length (heap s))) as [->|Hnx]; [apply rtc_refl|].
  refine (generateGraph_spans t Hsh Hne _ _ _ _ _ Hgen x _).
  - simpl. rewrite length_app. simpl. lia.
  - simpl. rewrite length_app. simpl. lia.
Qed.

(** X8: on a tree of the trusted shape in which every or node has at least
    one part, every state that a build allocates, its accept state among
    them, is reached from its initial state. *)
Theorem build_reaches_every_state t s :
  shaped t = true -> or_nonempty t = true ->
  exists a s',
    build t s = (Ok (length (heap s), Some a), s')
    /\ reach (heap s') follow_all (length (heap s)) a
    /\ forall x, length (heap s) <= x < length (heap s') ->
                 reach (heap s') follow_all (length (heap s)) x.
Proof.
  intros Hsh Hne.
  destruct (build_returns t s Hsh) as (a & s' & Hrun & Hb).
  pose proof (build_spans t s Hsh Hne) as Hall. rewrite Hrun in Hall.
  simpl in Hall.
  exists a, s'. split; [exact Hrun|]. split; [|exact Hall].
  destruct Hb as (_ & Ha & Hal & _). simpl in Ha.
  apply Hall. rewrite length_app in Ha. simpl in Ha. lia.
Qed.

Lemma build_reaches_every_state_witness :
  shaped (or_node [text_node "a"; star_node (text_node "b")]) = true
  /\ or_nonempty (or_node [text_node "a"; star_node (text_node "b")]) = true
  /\ exists a s',
      build (or_node [text_node "a"; star_node (text_node "b")]) empty_store
      = (Ok (0, Some a), s')
      /\ reach (heap s') follow_all 0 a.
Proof.
  split; [reflexivity|]. split; [reflexivity|].
  destruct (build_reaches_every_state
              (or_node [text_node "a"; star_node (text_node "b")])
              empty_store eq_refl eq_refl) as (a & s' & H1 & H2 & _).
  exists a, s'. auto.
Defined.

(** ** The export of a build *)

Lemma cytograph_discovers s this :
  closed_heap (heap s) -> initial_state this < length (heap s) ->
  exists out order,
    cytograph this s = (Ok out, s)
    /\ NoDup order
    /\ (forall x, x ∈ order <->
                  reach (heap s) follow_all (initial_state this) x)
    /\ List.filter is_vertex out = concat (vertex_of (heap s) <$> order)
    /\ List.filter is_edge out ≡ₚ concat (edges_of (heap s) <$> order).
Proof.
  intros Hc Hi.
  destruct (visit_roots_total (heap s) follow_all [initial_state this] Hc)
    as (order & Hrun & Hnd & _ & Hiff).
  { intros x Hx. apply list_elem_of_singleton in Hx. subst x. exact Hi. }
  cbn [visit_all] in Hrun.
  pose proof (Cytograph_DFS_visit s Hc (S (length (heap s)))
                (initial_state this) [] [] Hi) as Hdfs.
  destruct (visit _ _ (initial_state this) []) as [V'|]; [|discriminate].
  inversion Hrun; subst V'.
  destruct Hdfs as (out & Hout & D & E & Hv & He).
  simpl in E. subst D. simpl in Hv, He.
  exists out, order. split; [|split; [exact Hnd|split; [|split]]].
  - unfold cytograph. erewrite bind_Ok by reflexivity.
    rewrite (bind_Ok _ _ _ _ _ Hout). simpl. rewrite app_nil_r.
    reflexivity.
  - intros x. rewrite Hiff. split.
    + intros (t & Ht & Htx). apply list_elem_of_singleton in Ht.
      subst t. exact Htx.
    + intros Hx. exists (initial_state this). split; [left|exact Hx].
  - exact Hv.
  - exact He.
Qed.

Lemma concat_fmap_Permutation {A B} (f : A -> list B) l k :
  l ≡ₚ k -> concat (f <$> l) ≡ₚ concat (f <$> k).
Proof.
  induction 1 as [|x l k _ IH|x y l|l k m _ IH1 _ IH2]; simpl.
  - reflexivity.
  - rewrite IH. reflexivity.
  - solve_Permutation.
  - etransitivity; eassumption.
Qed.

Lemma concat_singletons {B} (f : nat -> list B) (g : nat -> B) b n :
  (forall k, k < n -> f (b + k) = [g k]) ->
  concat (f <$> seq b n) = g <$> seq 0 n.
Proof.
  induction n as [|n IH]; intros H; [reflexivity|].
  rewrite !seq_S, !fmap_app, concat_app. simpl.
  rewrite IH by (intros k Hk; apply H; lia).
  rewrite H by lia. rewrite app_nil_r. reflexivity.
Qed.

Lemma vertices_of_labelled h b n :
  drop b (label <$> h) = seqZ 0 (Z.of_nat n) ->
  concat (vertex_of h <$> seq b n)
  = (fun k : nat => vertex_data (Z.of_nat k) (Z.of_nat k)) <$> seq 0 n.
Proof.
  intros Hl. apply concat_singletons. intros k Hk.
  assert (E : (label <$> h) !! (b + k) = Some (Z.of_nat k)).
  { rewrite <- lookup_drop, Hl. rewrite lookup_seqZ_lt by lia.
    reflexivity. }
  rewrite list_lookup_fmap in E.
  destruct (h !! (b + k)) as [st|] eqn:Est; [|discriminate].
  simpl in E. injection E as E.
  rewrite (vertex_of_lookup _ _ _ Est), E. reflexivity.
Qed.

Lemma edges_of_range h :
  forall l b,
    (forall k, k < length l -> h !! (b + k) = l !! k) ->
    length (concat (edges_of h <$> seq b (length l))) = count_transitions l.
Proof.
  induction l as [|st l IH]; intros b H; [reflexivity|].
  cbn [length seq fmap list_fmap concat]. rewrite length_app.
  unfold count_transitions. cbn [sum_list_with].
  fold (count_transitions l).
  rewrite <- (IH (S b)).
  - f_equal. specialize (H 0 ltac:(simpl; lia)).
    rewrite Nat.add_0_r in H. simpl in H.
    rewrite (edges_of_lookup _ _ _ H), length_fmap. reflexivity.
  - intros k Hk. specialize (H (S k) ltac:(simpl; lia)).
    rewrite Nat.add_succ_r in H. exact H.
Qed.

Lemma count_transitions_from h b :
  length (concat (edges_of h <$> seq b (length h - b)))
  = count_transitions (drop b h).
Proof.
  rewrite <- (length_drop h b). apply edges_of_range.
  intros k _. rewrite lookup_drop. reflexivity.
Qed.

(** X9: the automaton that the constructor makes of a tree of the trusted
    shape in which every alternation has a part, on a heap whose transitions
    stay inside it, is exported whole: the export returns, its vertex
    descriptors are, in some order, one for each state the build allocated,
    with the identifiers 0, 1, 2, ... up to the number of states, and it has
    as many edge descriptors as the build created transitions. *)
Theorem build_export t s :
  shaped t = true -> or_nonempty t = true -> closed_heap (heap s) ->
  exists this s' out,
    new_NFA t s = (Ok this, s')
    /\ cytograph this s' = (Ok out, s')
    /\ List.filter is_vertex out
       ≡ₚ (fun k : nat => vertex_data (Z.of_nat k) (Z.of_nat k))
            <$> seq 0 (states_allocated (new_NFA t) s)
    /\ length (List.filter is_edge out) = transitions_created (new_NFA t) s.
Proof.
  intros Hsh Hne Hc.
  destruct (build_returns t s Hsh) as (a & s' & Hrun & _).
  pose proof (build_sides t s Hsh Hc) as Hs.
  pose proof (build_reach_inside t s Hsh Hc) as Hin.
  pose proof (build_spans t s Hsh Hne) as Hsp.
  pose proof (build_closed t s Hsh Hc) as Hc'.
  pose proof (labels_inv_build t s) as Hl.
  cbn zeta in Hs. rewrite Hrun in Hs, Hin, Hsp, Hc', Hl.
  cbn [snd] in Hs, Hin, Hsp, Hc', Hl.
  destruct Hs as (Hold & Hlen & _). destruct Hl as (_ & Hl & _).
  assert (Hnfa : new_NFA t s
                 = (Ok (mkAutomaton (length (heap s)) (Some a)), s')).
  { unfold new_NFA. rewrite (bind_Ok _ _ _ _ _ Hrun). reflexivity. }
  destruct (cytograph_discovers s' (mkAutomaton (length (heap s)) (Some a))
              Hc' ltac:(simpl; lia))
    as (out & order & Hcy & Hnd & Hiff & Hv & He).
  cbn [initial_state] in Hiff.
  exists (mkAutomaton (length (heap s)) (Some a)), s', out.
  split; [exact Hnfa|]. split; [exact Hcy|].
  assert (Hperm : order
                  ≡ₚ seq (length (heap s))
                       (length (heap s') - length (heap s))).
  { apply NoDup_Permutation; [exact Hnd|apply NoDup_seq|].
    intros x. rewrite Hiff, elem_of_seq. split.
    - intros H. apply Hin in H. lia.
    - intros H. apply Hsp. lia. }
  unfold states_allocated, transitions_created. rewrite Hnfa. cbn [snd].
  split.
  - rewrite Hv, (concat_fmap_Permutation _ _ _ Hperm).
    rewrite (vertices_of_labelled _ _ _ Hl). reflexivity.
  - rewrite (Permutation_length He).
    rewrite (Permutation_length (concat_fmap_Permutation _ _ _ Hperm)).
    rewrite count_transitions_from.
    assert (E : take (length (heap s)) (heap s') = heap s).
    { apply list_eq. intros x.
      destruct (decide (x < length (heap s))) as [Hx|Hx].
      - rewrite lookup_take_lt by exact Hx. apply Hold. exact Hx.
      - rewrite lookup_take_ge by lia. symmetry.
        apply lookup_ge_None. lia. }
    rewrite <- (take_drop (length (heap s)) (heap s')) at 2.
    rewrite E. unfold count_transitions. rewrite sum_list_with_app. lia.
Qed.

Lemma build_export_witness :
  exists this s' out,
    new_NFA (star_node (text_node "a")) empty_store = (Ok this, s')
    /\ cytograph this s' = (Ok out, s')
    /\ length (List.filter is_edge out)
       = transitions_created (new_NFA (star_node (text_node "a"))) empty_store.
Proof.
  destruct (build_export (star_node (text_node "a")) empty_store)
    as (this & s' & out & H1 & H2 & _ & H4).
  - reflexivity.
  - reflexivity.
  - apply closed_heapb_closed. reflexivity.
  - exists this, s', out. split; [exact H1|]. split; [exact H2|exact H4].
Defined.

(** ** Edge descriptors and the vertices they name *)

Lemma elem_of_concat_fmap {A B} (f : A -> list B) l y :
  y ∈ concat (f <$> l) <-> exists x, x ∈ l /\ y ∈ f x.
Proof.
  induction l as [|a l IH]; simpl.
  - split; [intros H; inversion H|intros (x & H & _); inversion H].
  - rewrite elem_of_app, IH. split.
    + intros [H|(x & Hx & H)].
      * exists a. split; [left|exact H].
      * exists x. split; [right; exact Hx|exact H].
    + intros (x & Hx & H). apply elem_of_cons in Hx.
      destruct Hx as [->|Hx]; [left; exact H|right; eauto].
Qed.

Lemma elem_of_filter_bool {A} (p : A -> bool) l x :
  x ∈ List.filter p l <-> x ∈ l /\ p x = true.
Proof.
  split.
  - intros H. apply list_elem_of_In, filter_In in H.
    destruct H as [H1 H2]. split; [apply list_elem_of_In; exact H1|exact H2].
  - intros [H1 H2]. apply list_elem_of_In, filter_In.
    split; [apply list_elem_of_In; exact H1|exact H2].
Qed.

(** X10: in an export from a state of a heap whose transitions stay inside
    it, no edge descriptor dangles: the source and the target that an edge
    descriptor names are identifiers of vertex descriptors of the same
    export. *)
Theorem export_edges_join_vertices s this :
  closed_heap (heap s) -> initial_state this < length (heap s) ->
  exists out,
    cytograph this s = (Ok out, s)
    /\ forall src tgt l,
         edge_data src tgt l ∈ out ->
         vertex_data src src ∈ out /\ vertex_data tgt tgt ∈ out.
Proof.
  intros Hc Hi.
  destruct (cytograph_discovers s this Hc Hi)
    as (out & order & Hcy & _ & Hiff & Hv & He).
  exists out. split; [exact Hcy|].
  assert (Hvertex : forall x st, x ∈ order -> heap s !! x = Some st ->
                      vertex_data (label st) (label st) ∈ out).
  { intros x st Hx Hst.
    apply (elem_of_filter_bool is_vertex). rewrite Hv.
    apply elem_of_concat_fmap. exists x. split; [exact Hx|].
    rewrite (vertex_of_lookup _ _ _ Hst). left. }
  intros src tgt l Hin.
  assert (Hin' : edge_data src tgt l ∈ List.filter is_edge out).
  { apply elem_of_filter_bool. split; [exact Hin|reflexivity]. }
  rewrite He in Hin'. apply elem_of_concat_fmap in Hin'.
  destruct Hin' as (x & Hx & Hd).
  unfold edges_of in Hd. destruct (heap s !! x) as [st|] eqn:Hst;
    [|inversion Hd].
  apply list_elem_of_fmap in Hd. destruct Hd as (e & Hd & Hnext).
  injection Hd as -> -> ->.
  split; [exact (Hvertex x st Hx Hst)|].
  destruct (lookup_lt_is_Some_2 _ _ (Hc x st e Hst Hnext)) as [ste Hste].
  rewrite (target_label_lookup _ _ _ Hste).
  apply (Hvertex (to e) ste); [|exact Hste].
  apply Hiff. apply rtc_r with x; [apply Hiff; exact Hx|].
  apply elem_of_targets. exists st, e. auto.
Qed.

Lemma export_edges_join_vertices_witness :
  let s := snd (build (plus_node (text_node "a")) empty_store) in
  exists out,
    cytograph (mkAutomaton 0 (Some 3)) s = (Ok out, s)
    /\ (edge_data 2 1 (Some epsilon) ∈ out ->
        vertex_data 2 2 ∈ out /\ vertex_data 1 1 ∈ out).
Proof.
  intros s.
  destruct (export_edges_join_vertices s (mkAutomaton 0 (Some 3)))
    as (out & H1 & H2).
  - apply closed_heapb_closed. reflexivity.
  - simpl. lia.
  - exists out. split; [exact H1|]. apply H2.
Defined.

(** ** The first descriptor of an export *)

Lemma for_fold_prefix {A B C} (get : B -> list C) (body : A -> B -> M B) :
  (forall x acc s acc' s', body x acc s = (Ok acc', s') ->
     get acc `prefix_of` get acc') ->
  forall xs acc s acc' s',
    for_fold xs acc body s = (Ok acc', s') -> get acc `prefix_of` get acc'.
Proof.
  intros Hb. induction xs as [|x xs IH]; intros acc s acc' s' H; simpl in H.
  - inversion H; subst. reflexivity.
  - apply bind_inv in H. destruct H as (a1 & s1 & H1 & H2).
    etransitivity; [exact (Hb _ _ _ _ _ H1)|exact (IH _ _ _ _ H2)].
Qed.

Lemma Cytograph_DFS_prefix fuel :
  forall x vs s vs' s',
    Cytograph.DFS fuel x vs s = (Ok vs', s') -> snd vs `prefix_of` snd vs'.
Proof.
  induction fuel as [|fuel IH]; intros x vs s vs' s' H; [discriminate|].
  cbn [Cytograph.DFS] in H.
  destruct (Set_has x (fst vs)).
  { inversion H; subst. reflexivity. }
  apply bind_inv in H. destruct H as (l & s1 & _ & H).
  apply bind_inv in H. destruct H as (es & s2 & _ & H).
  apply (for_fold_prefix snd) in H.
  - cbn [snd] in H. exact (prefix_app_l _ _ _ H).
  - clear H. intros e acc t acc' t' H.
    apply bind_inv in H. destruct H as (src & t1 & _ & H).
    apply bind_inv in H. destruct H as (tgt & t2 & _ & H).
    apply IH in H. cbn [snd] in H. exact (prefix_app_l _ _ _ H).
Qed.

(** X11: an export from a state of a heap whose transitions stay inside it
    begins with the vertex descriptor of the initial state. *)
Theorem export_starts_at_initial s this :
  closed_heap (heap s) -> initial_state this < length (heap s) ->
  exists out st,
    cytograph this s = (Ok out, s)
    /\ heap s !! initial_state this = Some st
    /\ out !! 0 = Some (vertex_data (label st) (label st)).
Proof.
  intros Hc Hi.
  destruct (cytograph_discovers s this Hc Hi) as (out & _ & Hcy & _).
  destruct (lookup_lt_is_Some_2 _ _ Hi) as [st Hst].
  exists out, st. split; [exact Hcy|]. split; [exact Hst|].
  unfold cytograph in Hcy.
  apply bind_inv in Hcy. destruct Hcy as (fuel & s1 & Hf & Hcy).
  inversion Hf; subst fuel s1. clear Hf.
  apply bind_inv in Hcy. destruct Hcy as (vs & s2 & Hdfs & Hret).
  inversion Hret; subst out s2. clear Hret. rewrite app_nil_r.
  cbn [Cytograph.DFS fst snd] in Hdfs.
  change (Set_has (initial_state this) []) with false in Hdfs.
  cbn iota in Hdfs.
  rewrite (bind_Ok _ _ _ _ _ (get_label_run s _ st Hst)) in Hdfs.
  rewrite (bind_Ok _ _ _ _ _ (get_next_run s _ st Hst)) in Hdfs.
  apply (for_fold_prefix snd) in Hdfs.
  - cbn [snd app] in Hdfs.
    apply (prefix_lookup_Some [vertex_data (label st) (label st)] _ 0);
      [reflexivity|exact Hdfs].
  - clear Hdfs. intros e acc t acc' t' H.
    apply bind_inv in H. destruct H as (src & t1 & _ & H).
    apply bind_inv in H. destruct H as (tgt & t2 & _ & H).
    apply Cytograph_DFS_prefix in H. cbn [snd] in H.
    exact (prefix_app_l _ _ _ H).
Qed.

Lemma export_starts_at_initial_witness :
  let s := snd (build (or_node [text_node "a"; text_node "b"]) empty_store) in
  exists out st,
    cytograph (mkAutomaton 0 (Some 5)) s = (Ok out, s)
    /\ heap s !! 0 = Some st
    /\ out !! 0 = Some (vertex_data (label st) (label st)).
Proof.
  intros s.
  destruct (export_starts_at_initial s (mkAutomaton 0 (Some 5)))
    as (out & st & H1 & H2 & H3).
  - apply closed_heapb_closed. reflexivity.
  - vm_compute. lia.
  - exists out, st. split; [exact H1|]. split; [exact H2|exact H3].
Defined.

(** ** The symbols of a build *)

Section Symbols.
Variable I : store -> Prop.
Variable okSym : option string -> Prop.
Hypothesis new_ok : preserves I new_State_next_label.
Hypothesis addNext_ok :
  forall this sym x, okSym sym -> preserves I (addNext this sym x).
Hypothesis epsilon_ok : okSym (Some epsilon).

Lemma symbols_or_loop gen i ps :
  Forall (fun p => forall j, preserves I (gen p j)) ps ->
  forall acc, preserves I (or_loop gen i ps acc).
Proof.
  induction 1 as [|p ps Hp _ IH]; intros acc; simpl.
  - apply preserves_ret.
  - apply preserves_bind; [apply new_ok|]. intros n.
    apply preserves_bind; [apply addNext_ok, epsilon_ok|]. intros _.
    apply preserves_bind; [apply Hp|]. intros a. apply IH.
Qed.

Lemma symbols_parts l :
  Forall (fun p => (forall c, c ∈ text_symbols p -> okSym c) ->
                   forall i, preserves I (generateGraph p i)) l ->
  (forall c, c ∈ concat (text_symbols <$> l) -> okSym c) ->
  Forall (fun p => forall j, preserves I (generateGraph p j)) l.
Proof.
  intros IH Hsym. apply Forall_forall. intros p Hp.
  rewrite Forall_forall in IH. apply (IH p Hp).
  intros c Hc. apply Hsym. apply elem_of_concat_fmap. exists p. auto.
Qed.

Lemma symbols_generateGraph st :
  (forall c, c ∈ text_symbols st -> okSym c) ->
  forall i, preserves I (generateGraph st i).
Proof.
  induction st as [ty tx ps sb IHps IHsb] using node_induction.
  intros Hsym i. cbn [generateGraph text_symbols] in Hsym |- *.
  destruct (String.eqb ty "empty").
  { apply preserves_bind; [apply new_ok|]. intros f.
    apply preserves_bind; [apply addNext_ok, epsilon_ok|]. intros _.
    apply preserves_ret. }
  destruct (String.eqb ty "text").
  { apply preserves_bind; [apply new_ok|]. intros f.
    apply preserves_bind; [apply addNext_ok, Hsym; left|]. intros _.
    apply preserves_ret. }
  destruct (String.eqb ty "or").
  { cbn [orb] in Hsym. destruct ps as [l|]; [|apply preserves_throw].
    apply preserves_bind;
      [apply symbols_or_loop, symbols_parts; assumption|]. intros ls.
    apply preserves_bind; [apply new_ok|]. intros f.
    apply preserves_bind; [|intros _; apply preserves_ret].
    apply preserves_for_of. intros x. apply addNext_ok, epsilon_ok. }
  destruct (String.eqb ty "cat").
  { cbn [orb] in Hsym. destruct ps as [l|]; [|apply preserves_throw].
    apply preserves_cat_loop, symbols_parts; assumption. }
  cbn [orb] in Hsym.
  destruct (String.eqb ty "star" || String.eqb ty "plus"
            || String.eqb ty "optional"); [|apply preserves_ret].
  apply preserves_bind; [apply new_ok|]. intros ti.
  apply preserves_bind; [apply addNext_ok, epsilon_ok|]. intros _.
  apply preserves_bind.
  { destruct sb as [x|]; [|apply preserves_throw]. apply IHsb, Hsym. }
  intros ta.
  apply preserves_bind.
  { destruct (String.eqb ty "star" || String.eqb ty "plus");
      [apply addNext_ok, epsilon_ok|apply preserves_ret]. }
  intros _.
  apply preserves_bind; [apply new_ok|]. intros f.
  apply preserves_bind; [apply addNext_ok, epsilon_ok|]. intros _.
  apply preserves_bind; [|intros _; apply preserves_ret].
  destruct (String.eqb ty "star" || String.eqb ty "optional");
    [apply addNext_ok, epsilon_ok|apply preserves_ret].
Qed.
End Symbols.

Lemma symbols_added_new A h0 :
  preserves (symbols_added A h0) new_State_next_label.
Proof.
  intros s H. rewrite new_State_next_label_run. cbn [snd].
  intros x st e Hst He. cbn [heap] in Hst.
  destruct (decide (x < length (heap s))) as [Hx|Hx].
  - rewrite lookup_app_l in Hst by exact Hx. exact (H x st e Hst He).
  - rewrite lookup_app_r in Hst by lia.
    apply list_lookup_singleton_Some in Hst. destruct Hst as [_ <-].
    inversion He.
Qed.

Lemma symbols_added_addNext (A : option string -> Prop) h0 this sym y :
  A sym -> preserves (symbols_added A h0) (addNext this sym y).
Proof.
  intros Hsym. destruct this as [a|]; [|apply preserves_throw].
  intros s H. rewrite addNext_run. cbn [snd].
  intros x st e Hst He. cbn [heap] in Hst.
  destruct (decide (a = x)) as [->|Hne].
  - rewrite list_lookup_alter_eq in Hst.
    destruct (heap s !! x) as [st1|] eqn:E; [|discriminate].
    simpl in Hst. injection Hst as <-. cbn [next] in He.
    apply elem_of_app in He. destruct He as [He|He].
    + exact (H x st1 e E He).
    + apply list_elem_of_singleton in He. subst e. left. exact Hsym.
  - rewrite list_lookup_alter_ne in Hst by exact Hne. exact (H x st e Hst He).
Qed.

(** X12: whatever the tree and whether the build returns or raises, every
    transition of a state that the build allocated carries the empty symbol
    or the text of a text node of the tree: the builder makes up no symbol of
    its own. *)
Theorem build_symbols t s :
  symbols_within (fun c => c = Some epsilon \/ c ∈ text_symbols t)
                 (length (heap s)) (snd (build t s)).
Proof.
  set (A := fun c : option string => c = Some epsilon \/ c ∈ text_symbols t).
  assert (H : symbols_added A (heap s) (snd (build t s))).
  { rewrite build_unfold. apply preserves_bind.
    - apply (symbols_generateGraph _ A).
      + apply symbols_added_new.
      + intros this sym x. apply symbols_added_addNext.
      + left. reflexivity.
      + intros c Hc. right. exact Hc.
    - intros a. apply preserves_ret.
    - intros x st e Hst He. cbn [heap] in Hst.
      destruct (decide (x < length (heap s))) as [Hx|Hx].
      + rewrite lookup_app_l in Hst by exact Hx. right. eauto.
      + rewrite lookup_app_r in Hst by lia.
        apply list_lookup_singleton_Some in Hst. destruct Hst as [_ <-].
        inversion He. }
  intros x st e Hx Hst He.
  destruct (H x st e Hst He) as [Hok|(st0 & H0 & _)]; [exact Hok|].
  apply lookup_lt_Some in H0. lia.
Qed.

(** ** No symbol of the tree is lost *)

Lemma has_edge_new x e :
  preserves (fun s => has_edge (heap s) x e) new_State_next_label.
Proof.
  intros s (st & Hst & He). rewrite new_State_next_label_run. cbn [snd heap].
  exists st. split; [|exact He].
  rewrite lookup_app_l by (apply lookup_lt_Some in Hst; exact Hst).
  exact Hst.
Qed.

Lemma has_edge_addNext x e this sym y :
  preserves (fun s => has_edge (heap s) x e) (addNext this sym y).
Proof.
  destruct this as [a|]; [|apply preserves_throw].
  intros s (st & Hst & He). rewrite addNext_run. cbn [snd heap].
  destruct (decide (a = x)) as [->|Hne].
  - eexists. rewrite list_lookup_alter_eq, Hst. split; [reflexivity|].
    cbn [next]. apply elem_of_app. left. exact He.
  - exists st. rewrite list_lookup_alter_ne by exact Hne. auto.
Qed.

Lemma has_edge_generateGraph x e t i :
  preserves (fun s => has_edge (heap s) x e) (generateGraph t i).
Proof.
  apply preserves_generateGraph.
  - apply has_edge_new.
  - intros this sym y. apply has_edge_addNext.
Qed.

Lemma has_edge_kept {A} (m : M A) x e s v s' :
  preserves (fun s => has_edge (heap s) x e) m ->
  has_edge (heap s) x e -> m s = (Ok v, s') -> has_edge (heap s') x e.
Proof. intros Hm H Hrun. apply Hm in H. rewrite Hrun in H. exact H. Qed.

Ltac keeps_edges :=
  repeat match goal with
         | |- preserves _ (if ?b then _ else _) => destruct b
         | |- preserves _ (bind _ _) => apply preserves_bind; [|intros ?]
         | |- preserves _ (ret _) => apply preserves_ret
         | |- preserves _ new_State_next_label => apply has_edge_new
         | |- preserves _ (addNext _ _ _) => apply has_edge_addNext
         | |- preserves _ (for_of _ _) => apply preserves_for_of; intros ?
         | |- preserves _ (generateGraph _ _) => apply has_edge_generateGraph
         | |- preserves _ (or_loop _ _ _ _) =>
             apply preserves_or_loop;
             [apply has_edge_new
             |intros ? ? ?; apply has_edge_addNext
             |apply Forall_forall; intros ? _ ?; apply has_edge_generateGraph]
         | |- preserves _ (cat_loop _ _ _) =>
             apply preserves_cat_loop;
             apply Forall_forall; intros ? _ ?; apply has_edge_generateGraph
         end.

Lemma linked_has_edge h i sym l :
  i < length h -> has_edge (linked h i sym l) i (mkEdge sym (length h)).
Proof.
  intros Hi. destruct (lookup_lt_is_Some_2 _ _ Hi) as [st Hst].
  unfold has_edge, linked. eexists.
  rewrite list_lookup_alter_eq, lookup_app_l, Hst by exact Hi.
  split; [reflexivity|]. cbn [push_edge next].
  apply elem_of_app. right. left.
Qed.

Lemma or_loop_carries ps :
  Forall carries ps -> forallb shaped ps = true ->
  forall i acc s ls s',
    i < length (heap s) ->
    or_loop generateGraph (Some i) ps acc s = (Ok ls, s') ->
    forall c, c ∈ concat (text_symbols <$> ps) ->
      exists x e, length (heap s) <= x
                  /\ has_edge (heap s') x e /\ symbol e = c.
Proof.
  induction 1 as [|p ps Hp _ IH]; intros Hsh i acc s ls s' Hi Hrun c Hc.
  - inversion Hc.
  - simpl in Hsh. apply andb_prop in Hsh. destruct Hsh as [Hshp Hshps].
    destruct (or_loop_cons_inv _ _ _ _ _ _ _ Hshp Hi Hrun)
      as (s2 & ap & s3 & Hl2 & Hrun3 & Hb & Hrest).
    assert (Hlen2 : length (heap s2) = S (length (heap s))).
    { rewrite Hl2. apply linked_length. }
    assert (Hlen3 : length (heap s2) <= length (heap s3)).
    { destruct (built_extends _ _ _ _ _ Hb) as (Hl & _). exact Hl. }
    cbn [fmap list_fmap concat] in Hc. apply elem_of_app in Hc.
    destruct Hc as [Hc|Hc].
    + destruct (Hp Hshp (length (heap s)) s2 ap s3 ltac:(lia) Hrun3 c Hc)
        as (x & e & Hx & He & Hsym).
      exists x, e. split; [lia|]. split; [|exact Hsym].
      refine (has_edge_kept _ x e s3 ls s' _ He Hrest). keeps_edges.
    + destruct (IH Hshps i (acc ++ [Some ap]) s3 ls s' ltac:(lia) Hrest c Hc)
        as (x & e & Hx & He & Hsym).
      exists x, e. split; [lia|]. auto.
Qed.

Lemma cat_loop_carries ps :
  Forall carries ps -> forallb shaped ps = true ->
  forall j s a s',
    j < length (heap s) ->
    cat_loop generateGraph (Some j) ps s = (Ok (Some a), s') ->
    forall c, c ∈ concat (text_symbols <$> ps) ->
      exists x e, (x = j \/ length (heap s) <= x)
                  /\ has_edge (heap s') x e /\ symbol e = c.
Proof.
  induction 1 as [|p ps Hp _ IH]; intros Hsh j s a s' Hj Hrun c Hc.
  - inversion Hc.
  - simpl in Hsh. apply andb_prop in Hsh. destruct Hsh as [Hshp Hshps].
    destruct (cat_loop_cons_inv _ _ _ _ _ _ Hshp Hj Hrun)
      as (a1 & s1 & Hrun1 & Hb & Hrest).
    assert (Hlen1 : length (heap s) <= length (heap s1)).
    { destruct (built_extends _ _ _ _ _ Hb) as (Hl & _). exact Hl. }
    destruct Hb as (_ & Ha1 & Ha1l & _).
    cbn [fmap list_fmap concat] in Hc. apply elem_of_app in Hc.
    destruct Hc as [Hc|Hc].
    + destruct (Hp Hshp j s a1 s1 Hj Hrun1 c Hc) as (x & e & Hx & He & Hsym).
      exists x, e. split; [exact Hx|]. split; [|exact Hsym].
      refine (has_edge_kept _ x e s1 (Some a) s' _ He Hrest). keeps_edges.
    + destruct (IH Hshps a1 s1 a s' Ha1l Hrest c Hc)
        as (x & e & Hx & He & Hsym).
      exists x, e. split; [lia|]. auto.
Qed.

Lemma repetition_carries loop bypass x :
  carries x -> shaped x = true ->
  forall i s f s',
    i < length (heap s) ->
    repetition loop bypass x (Some i) s = (Ok (Some f), s') ->
    forall c, c ∈ text_symbols x ->
      exists y e, length (heap s) <= y
                  /\ has_edge (heap s') y e /\ symbol e = c.
Proof.
  intros Hx Hsh i s f s' Hi Hrun c Hc. unfold repetition in Hrun.
  apply bind_inv in Hrun. destruct Hrun as (ti & s1 & H1 & Hrun).
  rewrite new_State_next_label_run in H1. inversion H1; subst ti s1.
  clear H1.
  apply bind_inv in Hrun. destruct Hrun as ([] & s2 & H2 & Hrun).
  rewrite addNext_run in H2. inversion H2; subst s2. clear H2.
  apply bind_inv in Hrun. destruct Hrun as (ta & s3 & H3 & Hrun).
  match type of H3 with
  | generateGraph _ _ ?s2 = _ =>
      assert (Hl2 : length (heap s2) = S (length (heap s)))
        by (cbn [heap]; rewrite length_alter, length_app; simpl; lia);
      destruct (run_built x (length (heap s)) s2 ta s3 Hsh ltac:(lia) H3)
        as (ax & -> & _);
      destruct (Hx Hsh (length (heap s)) s2 ax s3 ltac:(lia) H3 c Hc)
        as (y & e & Hy & He & Hsym)
  end.
  exists y, e. split; [lia|]. split; [|exact Hsym].
  refine (has_edge_kept _ y e s3 (Some f) s' _ He Hrun). keeps_edges.
Qed.

Lemma generateGraph_carries t : carries t.
Proof.
  induction t as [ty tx ps sb IHps IHsb] using node_induction.
  intros Hsh i s a s' Hi Hrun c Hc.
  pose proof (shaped_documented _ _ _ _ Hsh) as Hdoc.
  destruct (kind_cases ty)
    as [-> | [-> | [-> | [-> | [-> | [-> | [-> | Hno]]]]]]]; [..|congruence].
  - inversion Hc.
  - rewrite generateGraph_text in Hrun.
    apply leaf_inv in Hrun. destruct Hrun as [-> Hh].
    cbn in Hc. apply list_elem_of_singleton in Hc. subst c.
    exists i, (mkEdge tx (length (heap s))). split; [left; reflexivity|].
    split; [|reflexivity]. rewrite Hh. apply linked_has_edge, Hi.
  - destruct ps as [l|]; [|discriminate]. simpl in IHps, Hsh.
    rewrite generateGraph_or in Hrun.
    apply bind_inv in Hrun. destruct Hrun as (ls & s1 & Hloop & Hrun).
    destruct (or_loop_carries l IHps Hsh i [] s ls s1 Hi Hloop c Hc)
      as (x & e & Hx & He & Hsym).
    exists x, e. split; [right; exact Hx|]. split; [|exact Hsym].
    refine (has_edge_kept _ x e s1 (Some a) s' _ He Hrun). keeps_edges.
  - destruct ps as [l|]; [|discriminate]. simpl in IHps, Hsh.
    rewrite generateGraph_cat in Hrun.
    exact (cat_loop_carries l IHps Hsh i s a s' Hi Hrun c Hc).
  - destruct sb as [x|]; [|discriminate]. simpl in IHsb, Hsh.
    rewrite generateGraph_repetition in Hrun by auto.
    destruct (repetition_carries _ _ x IHsb Hsh i s a s' Hi Hrun c Hc)
      as (y & e & Hy & H). exists y, e. split; [right; exact Hy|exact H].
  - destruct sb as [x|]; [|discriminate]. simpl in IHsb, Hsh.
    rewrite generateGraph_repetition in Hrun by auto.
    destruct (repetition_carries _ _ x IHsb Hsh i s a s' Hi Hrun c Hc)
      as (y & e & Hy & H). exists y, e. split; [right; exact Hy|exact H].
  - destruct sb as [x|]; [|discriminate]. simpl in IHsb, Hsh.
    rewrite generateGraph_repetition in Hrun by auto.
    destruct (repetition_carries _ _ x IHsb Hsh i s a s' Hi Hrun c Hc)
      as (y & e & Hy & H). exists y, e. split; [right; exact Hy|exact H].
Qed.

(** X13: a build on a tree of the trusted shape loses no symbol: the text
    of every text node of the tree is carried by a transition of a state
    that the build allocated. *)
Theorem build_carries_every_symbol t s :
  shaped t = true ->
  forall c, c ∈ text_symbols t ->
    exists x st e,
      length (heap s) <= x
      /\ heap (snd (build t s)) !! x = Some st
      /\ e ∈ next st /\ symbol e = c.
Proof.
  intros Hsh c Hc.
  destruct (build_returns t s Hsh) as (a & s' & Hrun & _).
  rewrite Hrun. cbn [snd].
  rewrite build_unfold in Hrun.
  apply bind_inv in Hrun. destruct Hrun as (v & s1 & Hgen & Hret).
  inversion Hret; subst v s1. clear Hret.
  assert (Hl : length (heap s ++ [mkState 0 []]) = S (length (heap s))).
  { rewrite length_app. simpl. lia. }
  assert (Hi : length (heap s)
               < length (heap (mkStore (heap s ++ [mkState 0 []]) 0)))
    by (cbn [heap]; lia).
  destruct (generateGraph_carries t Hsh (length (heap s)) _ a s' Hi Hgen c Hc)
    as (x & e & Hx & (st & Hst & He) & Hsym).
  cbn [heap] in Hx. exists x, st, e.
  split; [lia|]. auto.
Qed.

Lemma build_carries_every_symbol_witness :
  exists x st e,
    0 <= x
    /\ heap (snd (build (cat_node [text_node "a"; text_node "b"])
                        empty_store)) !! x = Some st
    /\ e ∈ next st /\ symbol e = Some "b".
Proof.
  exact (build_carries_every_symbol
           (cat_node [text_node "a"; text_node "b"]) empty_store eq_refl
           (Some "b") (list_elem_of_further _ _ _ (list_elem_of_here _ _))).
Defined.

(** ** The empty word *)

(** X14: the automaton built from a tree of the trusted shape, on a heap
    whose transitions stay inside it, lets the empty word through exactly
    when the tree is nullable: the accept state is in the closure of the
    initial state on empty transitions if and only if the tree can be passed
    on empty transitions alone. *)
Theorem build_accepts_empty_iff_nullable t s :
  shaped t = true -> closed_heap (heap s) ->
  exists a s' r,
    build t s = (Ok (length (heap s), Some a), s')
    /\ enclosure (OneState (length (heap s))) epsilon s' = (Ok r, s')
    /\ (a ∈ r <-> nullable t = true).
Proof.
  intros Hsh Hc.
  set (i := length (heap s)).
  set (s0 := mkStore (heap s ++ [mkState 0 []]) 0).
  assert (Hl0 : length (heap s0) = S i).
  { subst s0 i. simpl. rewrite length_app. simpl. lia. }
  assert (Hc0 : closed_heap (heap s0)) by (apply closed_new, Hc).
  assert (Hi0 : i < length (heap s0)) by lia.
  assert (Hh0 : heap s0 = heap s ++ [mkState 0 []]) by reflexivity.
  assert (Hbuild : forall v s',
             generateGraph t (Some i) s0 = (Ok v, s') ->
             build t s = (Ok (i, v), s')).
  { intros v s' Hv. rewrite build_unfold. fold s0. fold i.
    rewrite (bind_Ok _ _ _ _ _ Hv). reflexivity. }
  clearbody s0.
  destruct (generateGraph_built _ Hsh i s0 Hi0)
    as (v & s' & Hrun & a & -> & Hb).
  pose proof (built_extends _ _ _ _ _ Hb) as He0.
  assert (Hc' : closed_heap (heap s')).
  { eapply extends_closed; [exact Hc0|exact He0|exact Hi0]. }
  destruct (generateGraph_passes _ Hsh i s0 a s' Hc0 Hi0 Hrun)
    as [Hreach Havoid].
  assert (Hil : i < length (heap s')).
  { destruct He0 as (Hl & _). lia. }
  destruct (visit_roots_total (heap s') follow_epsilon [i] Hc')
    as (r & Hvisit & _ & _ & Hiff).
  { intros x Hx. apply list_elem_of_singleton in Hx. subst x. exact Hil. }
  assert (Hr : forall x, x ∈ r <-> reach (heap s') follow_epsilon i x).
  { intros x. rewrite Hiff. split.
    - intros (u & Hu & Hux). apply list_elem_of_singleton in Hu.
      subst u. exact Hux.
    - intros Hx. exists i. split; [left|exact Hx]. }
  exists a, s', r. split; [exact (Hbuild _ _ Hrun)|]. split.
  - rewrite enclosure_visit.
    + change (follow_symbol epsilon) with follow_epsilon.
      cbn [roots]. rewrite Hvisit. reflexivity.
    + exact Hc'.
    + intros x Hx. apply list_elem_of_singleton in Hx. subst x. exact Hil.
  - rewrite Hr. split; [|exact Hreach].
    intros Hra. destruct (nullable t) eqn:Hn; [reflexivity|exfalso].
    destruct (Havoid eq_refl) as (C & HCi & HCa & HCb & HCc).
    apply HCa. revert Hra. apply rtc_ind_r; [exact HCi|].
    intros y z _ Hyz HCy. apply (HCc y z HCy Hyz).
    destruct (extends_step_any _ _ _ follow_epsilon y z He0 Hi0 Hyz)
      as [Hold|[_ Hnew]]; [|lia].
    rewrite Hh0 in Hold. apply step_new in Hold.
    apply step_source in Hold. destruct (HCb y HCy) as [[->|Hy] _].
    + subst i. lia.
    + subst i. lia.
Qed.

Lemma build_accepts_empty_iff_nullable_witness :
  exists a s' r,
    build (cat_node [star_node (text_node "a"); text_node "b"]) empty_store
    = (Ok (0, Some a), s')
    /\ enclosure (OneState 0) epsilon s' = (Ok r, s')
    /\ (a ∈ r
        <-> nullable (cat_node [star_node (text_node "a"); text_node "b"])
            = true).
Proof.
  exact (build_accepts_empty_iff_nullable
           (cat_node [star_node (text_node "a"); text_node "b"]) empty_store
           eq_refl closed_heap_nil).
Defined.

(** ** Unrecognized nodes below the root *)

Lemma generateGraph_unrecognized u i s :
  unrecognized u = true -> generateGraph u i s = (Ok None, s).
Proof.
  destruct u as [ty tx ps sb]. unfold unrecognized. cbn [type].
  intros H. apply negb_true_iff, documented_kind_false in H.
  destruct H as (H1 & H2 & H3 & H4 & H5 & H6 & H7).
  simpl. rewrite H1, H2, H3, H4, H5, H6, H7. reflexivity.
Qed.

Lemma shaped_recognized p : shaped p = true -> unrecognized p = false.
Proof.
  destruct p as [ty tx ps sb]. intros H. unfold unrecognized. cbn [type].
  rewrite (shaped_documented _ _ _ _ H). reflexivity.
Qed.

Lemma for_of_addNext_undefined sym y ls :
  None ∈ ls ->
  forall s, exists s',
    for_of ls (fun state => addNext state sym y) s
    = (Throw (TypeError "addNext"), s').
Proof.
  induction ls as [|v ls IH]; intros Hin s; [inversion Hin|].
  cbn [for_of]. destruct v as [a|].
  - apply elem_of_cons in Hin. destruct Hin as [Hin|Hin]; [discriminate|].
    rewrite (bind_Ok _ _ _ _ _ (addNext_run a sym y s)).
    apply IH. exact Hin.
  - exists s. reflexivity.
Qed.

Lemma or_loop_tolerated l :
  Forall (fun p => tolerated p = true) l ->
  forall i acc s,
    exists ls s',
      or_loop generateGraph (Some i) l acc s = (Ok ls, s')
      /\ (None ∈ acc \/ Exists (fun p => unrecognized p = true) l ->
          None ∈ ls).
Proof.
  induction 1 as [|p l Hp _ IH]; intros i acc s.
  - exists acc, s. split; [reflexivity|].
    intros [H|H]; [exact H|inversion H].
  - cbn [or_loop].
    rewrite (bind_Ok _ _ _ _ _ (new_State_next_label_run s)).
    rewrite (bind_Ok _ _ _ _ _ (addNext_run i (Some epsilon) _ _)).
    match goal with
    | |- context [bind (generateGraph p (Some ?n)) _ ?s2] =>
        set (s0 := s2); set (n0 := n)
    end.
    assert (Hn : n0 < length (heap s0)).
    { subst n0 s0. cbn [heap]. rewrite length_alter, length_app. simpl. lia. }
    clearbody s0.
    destruct (unrecognized p) eqn:Hu.
    + rewrite (bind_Ok _ _ _ _ _ (generateGraph_unrecognized p _ s0 Hu)).
      destruct (IH i (acc ++ [None]) s0) as (ls & s' & Hrun & Hnone).
      exists ls, s'. split; [exact Hrun|]. intros _. apply Hnone. left.
      apply elem_of_app. right. left.
    + assert (Hsh : shaped p = true).
      { unfold tolerated in Hp. rewrite Hu, orb_false_r in Hp. exact Hp. }
      destruct (generateGraph_built p Hsh n0 s0 Hn)
        as (v & s3 & Hrun3 & a & -> & _).
      rewrite (bind_Ok _ _ _ _ _ Hrun3).
      destruct (IH i (acc ++ [Some a]) s3) as (ls & s' & Hrun & Hnone).
      exists ls, s'. split; [exact Hrun|]. intros [Hacc|Hex]; apply Hnone.
      * left. apply elem_of_app. left. exact Hacc.
      * right. apply Exists_cons in Hex. destruct Hex as [Hex|Hex];
          [congruence|exact Hex].
Qed.

Lemma cat_loop_last_unrecognized l u :
  forallb shaped l = true -> unrecognized u = true ->
  forall j s, j < length (heap s) ->
    exists s', cat_loop generateGraph (Some j) (l ++ [u]) s = (Ok None, s').
Proof.
  intros Hsh Hu. induction l as [|p l IH]; intros j s Hj.
  - exists s. cbn [app cat_loop].
    rewrite (bind_Ok _ _ _ _ _ (generateGraph_unrecognized u _ s Hu)).
    reflexivity.
  - simpl in Hsh. apply andb_prop in Hsh. destruct Hsh as [Hshp Hshl].
    destruct (generateGraph_built p Hshp j s Hj)
      as (v & s1 & Hrun1 & a & -> & (_ & _ & Ha & _)).
    cbn [app cat_loop]. rewrite (bind_Ok _ _ _ _ _ Hrun1).
    exact (IH Hshl a s1 Ha).
Qed.

(** X15: a node of an unrecognized kind below the root.  As the sub-tree of
    a repetition, or among the parts of an alternation whose other parts are
    of the trusted shape, it makes the build end in the language's
    [TypeError] for calling [addNext] on [undefined]; as the last part of a
    concatenation whose other parts are of the trusted shape it raises
    nothing, and the build returns [undefined] as accept state. *)
Theorem unrecognized_below_root :
  (forall rep tx ps u s,
      rep ∈ ["star"; "plus"; "optional"] -> unrecognized u = true ->
      fst (build (Node rep tx ps (Some u)) s) = Throw (TypeError "addNext"))
  /\ (forall tx l sb s,
         Forall (fun p => tolerated p = true) l ->
         Exists (fun p => unrecognized p = true) l ->
         fst (build (Node "or" tx (Some l) sb) s)
         = Throw (TypeError "addNext"))
  /\ (forall tx l u sb s,
         forallb shaped l = true -> unrecognized u = true ->
         fst (build (Node "cat" tx (Some (l ++ [u])) sb) s)
         = Ok (length (heap s), None)).
Proof.
  split; [|split].
  - intros rep tx ps u s Hrep Hu. rewrite build_unfold.
    assert (Hk : rep = "star" \/ rep = "plus" \/ rep = "optional").
    { apply list_elem_of_In in Hrep. simpl in Hrep. intuition. }
    unfold bind at 1. rewrite generateGraph_repetition by exact Hk.
    unfold repetition.
    rewrite (bind_Ok _ _ _ _ _ (new_State_next_label_run _)).
    rewrite (bind_Ok _ _ _ _ _ (addNext_run _ _ _ _)).
    rewrite (bind_Ok _ _ _ _ _ (generateGraph_unrecognized u _ _ Hu)).
    destruct Hk as [-> | [-> | ->]]; reflexivity.
  - intros tx l sb s Hl Hex. rewrite build_unfold.
    unfold bind at 1. rewrite generateGraph_or.
    destruct (or_loop_tolerated l Hl (length (heap s)) []
                (mkStore (heap s ++ [mkState 0 []]) 0))
      as (ls & s1 & Hloop & Hnone).
    rewrite (bind_Ok _ _ _ _ _ Hloop).
    rewrite (bind_Ok _ _ _ _ _ (new_State_next_label_run _)).
    destruct (for_of_addNext_undefined (Some epsilon) (length (heap s1)) ls
                (Hnone (or_intror Hex))
                (mkStore (heap s1 ++ [mkState (counter s1 + 1) []])
                         (counter s1 + 1)))
      as (s2 & Hfor).
    rewrite (bind_Throw _ _ _ _ _ Hfor). reflexivity.
  - intros tx l u sb s Hl Hu. rewrite build_unfold.
    unfold bind at 1. rewrite generateGraph_cat.
    destruct (cat_loop_last_unrecognized l u Hl Hu (length (heap s))
                (mkStore (heap s ++ [mkState 0 []]) 0))
      as (s1 & Hloop).
    { cbn [heap]. rewrite length_app. simpl. lia. }
    rewrite Hloop. reflexivity.
Qed.

Lemma unrecognized_below_root_witness :
  fst (build (star_node (Node "group" None None None)) empty_store)
  = Throw (TypeError "addNext")
  /\ fst (build (or_node [text_node "a"; Node "group" None None None])
                empty_store)
     = Throw (TypeError "addNext")
  /\ fst (build (cat_node [text_node "a"; Node "group" None None None])
                empty_store)
     = Ok (0, None).
Proof.
  destruct unrecognized_below_root as (H1 & H2 & H3).
  split; [|split].
  - apply H1; [left|reflexivity].
  - apply H2.
    + repeat constructor.
    + right. left. reflexivity.
  - exact (H3 None [text_node "a"] (Node "group" None None None) None
              empty_store eq_refl eq_refl).
Defined.

(** ** A build does not depend on the states that exist *)

Section Relocation.
Variable h0 : list State.

Lemma simulates_ret {A} (f : A -> A) (a : A) :
  simulates h0 f (ret a) (ret (f a)).
Proof. intros s. reflexivity. Qed.

Lemma simulates_throw {A} (f : A -> A) e :
  simulates h0 f (throw e) (throw e).
Proof. intros s. reflexivity. Qed.

Lemma simulates_bind {A B} (f : A -> A) (g : B -> B)
      (m m' : M A) (k k' : A -> M B) :
  simulates h0 f m m' ->
  (forall a, simulates h0 g (k a) (k' (f a))) ->
  simulates h0 g (bind m k) (bind m' k').
Proof.
  intros Hm Hk s. unfold bind. rewrite (Hm s). unfold relocated.
  destruct (m s) as [[a|e|] s1]; cbn [fst snd]; [apply Hk|reflexivity..].
Qed.

Lemma simulates_new :
  simulates h0 (fun a => length h0 + a)
            new_State_next_label new_State_next_label.
Proof.
  intros s. rewrite !new_State_next_label_run.
  unfold relocated, relocate. cbn [fst snd heap counter].
  rewrite length_app, length_fmap, fmap_app, app_assoc. reflexivity.
Qed.

Lemma simulates_addNext v sym y :
  simulates h0 (fun u => u) (addNext v sym y)
            (addNext (shift_value (length h0) v) sym (length h0 + y)).
Proof.
  destruct v as [a|]; [|apply simulates_throw].
  intros s. cbn [shift_value fmap option_fmap option_map].
  rewrite !addNext_run.
  unfold relocated, relocate. cbn [fst snd heap counter].
  f_equal. f_equal. rewrite alter_app_r. f_equal.
  symmetry. apply list_fmap_alter.
  apply Forall_forall. intros st _. unfold shift_state. cbn [label next].
  rewrite fmap_app. reflexivity.
Qed.

Lemma simulates_for_of sym y ls :
  simulates h0 (fun u => u)
            (for_of ls (fun state => addNext state sym y))
            (for_of (shift_value (length h0) <$> ls)
                    (fun state => addNext state sym (length h0 + y))).
Proof.
  induction ls as [|v ls IH]; cbn [for_of fmap list_fmap].
  - apply (simulates_ret (fun u => u) tt).
  - eapply simulates_bind; [apply simulates_addNext|]. intros _. exact IH.
Qed.

Lemma simulates_or_loop gen ps :
  Forall (fun p => moves h0 (gen p)) ps ->
  forall v acc,
    simulates h0 (fmap (shift_value (length h0)))
              (or_loop gen v ps acc)
              (or_loop gen (shift_value (length h0) v) ps
                       (shift_value (length h0) <$> acc)).
Proof.
  induction 1 as [|p ps Hp _ IH]; intros v acc; cbn [or_loop].
  - apply (simulates_ret (fmap (shift_value (length h0))) acc).
  - eapply simulates_bind; [apply simulates_new|]. intros n. cbv beta.
    eapply simulates_bind; [apply simulates_addNext|]. intros _.
    eapply simulates_bind; [apply (Hp (Some n))|]. intros a. cbv beta.
    change [shift_value (length h0) a] with (shift_value (length h0) <$> [a]).
    rewrite <- fmap_app. apply IH.
Qed.

Lemma simulates_cat_loop gen ps :
  Forall (fun p => moves h0 (gen p)) ps ->
  forall v,
    simulates h0 (shift_value (length h0))
              (cat_loop gen v ps)
              (cat_loop gen (shift_value (length h0) v) ps).
Proof.
  induction 1 as [|p ps Hp _ IH]; intros v; cbn [cat_loop].
  - apply simulates_ret.
  - eapply simulates_bind; [apply Hp|]. intros a. apply IH.
Qed.

Lemma simulates_leaf v sym :
  simulates h0 (shift_value (length h0))
            (accept_state <- new_State_next_label ;;
             addNext v sym accept_state ;;; ret (Some accept_state))
            (accept_state <- new_State_next_label ;;
             addNext (shift_value (length h0) v) sym accept_state ;;;
             ret (Some accept_state)).
Proof.
  eapply simulates_bind; [apply simulates_new|]. intros f. cbv beta.
  eapply simulates_bind; [apply simulates_addNext|]. intros _.
  apply (simulates_ret (shift_value (length h0)) (Some f)).
Qed.

Lemma simulates_generateGraph t : moves h0 (generateGraph t).
Proof.
  induction t as [ty tx ps sb IHps IHsb] using node_induction.
  intros v. cbn [generateGraph].
  destruct (String.eqb ty "empty"); [apply simulates_leaf|].
  destruct (String.eqb ty "text"); [apply simulates_leaf|].
  destruct (String.eqb ty "or").
  { destruct ps as [l|]; [|apply simulates_throw]. cbn in IHps.
    eapply simulates_bind.
    - apply (simulates_or_loop generateGraph l IHps v []).
    - intros ls. cbv beta.
      eapply simulates_bind; [apply simulates_new|]. intros f. cbv beta.
      eapply simulates_bind; [apply simulates_for_of|]. intros _.
      apply (simulates_ret (shift_value (length h0)) (Some f)). }
  destruct (String.eqb ty "cat").
  { destruct ps as [l|]; [|apply simulates_throw]. cbn in IHps.
    apply simulates_cat_loop, IHps. }
  destruct (String.eqb ty "star" || String.eqb ty "plus"
            || String.eqb ty "optional");
    [|apply (simulates_ret (shift_value (length h0)) None)].
  eapply simulates_bind; [apply simulates_new|]. intros ti. cbv beta.
  eapply simulates_bind; [apply simulates_addNext|]. intros _.
  eapply simulates_bind.
  { destruct sb as [x|]; [|apply simulates_throw].
    apply (IHsb (Some ti)). }
  intros ta. cbv beta.
  eapply simulates_bind.
  { destruct (String.eqb ty "star" || String.eqb ty "plus");
      [apply simulates_addNext|apply (simulates_ret (fun u => u) tt)]. }
  intros _.
  eapply simulates_bind; [apply simulates_new|]. intros f. cbv beta.
  eapply simulates_bind; [apply simulates_addNext|]. intros _.
  eapply simulates_bind.
  { destruct (String.eqb ty "star" || String.eqb ty "optional");
      [apply simulates_addNext|apply (simulates_ret (fun u => u) tt)]. }
  intros _. apply (simulates_ret (shift_value (length h0)) (Some f)).
Qed.
End Relocation.

(** X16: a build does not depend on the states that exist already.
    Whatever the tree and the store, the build ends as the build of the same
    tree in the empty store does, with the same error if that one raises, and
    leaves the heap it found followed by the heap of that build, the targets
    of the transitions moved by the number of states that existed; labels and
    symbols are the same. *)
Theorem build_relocates t s :
  build t s
  = (match fst (build t empty_store) with
     | Ok (_, a) => Ok (length (heap s), shift_value (length (heap s)) a)
     | Throw e => Throw e
     | Diverge => Diverge
     end,
     relocate (heap s) (snd (build t empty_store))).
Proof.
  rewrite !build_unfold. cbn [empty_store heap length app].
  pose proof (simulates_generateGraph (heap s) t (Some 0)
                (mkStore [mkState 0 []] 0)) as H.
  cbn [shift_value fmap option_fmap option_map] in H.
  rewrite Nat.add_0_r in H.
  change (relocate (heap s) (mkStore [mkState 0 []] 0))
    with (mkStore (heap s ++ [mkState 0 []]) 0) in H.
  unfold bind. rewrite H. unfold relocated.
  destruct (generateGraph t (Some 0) (mkStore [mkState 0 []] 0))
    as [[a|e|] s1]; reflexivity.
Qed.

(** ** The closure of an array of states *)

Lemma enclosure_one s sym t :
  closed_heap (heap s) -> t < length (heap s) ->
  exists r1,
    enclosure (OneState t) sym s = (Ok r1, s)
    /\ forall x, x ∈ r1 <-> reach (heap s) (follow_symbol sym) t x.
Proof.
  intros Hc Ht.
  assert (Hr : forall x, x ∈ roots (OneState t) -> x < length (heap s)).
  { intros x Hx. apply list_elem_of_singleton in Hx. subst x. exact Ht. }
  destruct (visit_roots_total (heap s) (follow_symbol sym) [t] Hc Hr)
    as (r1 & Hrun & _ & _ & Hiff).
  exists r1. split.
  - rewrite enclosure_visit by assumption. cbn [roots].
    rewrite Hrun. reflexivity.
  - intros x. rewrite Hiff. split.
    + intros (u & Hu & Hux). apply list_elem_of_singleton in Hu.
      subst u. exact Hux.
    + intros Hx. exists t. split; [left|exact Hx].
Qed.

(** X17: the two forms of the argument of the closure agree.  The closure
    of a single state is the closure of the array that holds it alone, in
    every store; and on a heap whose transitions stay inside it, the closure
    of an array of states of the heap returns and holds exactly the states
    that the closures of its elements hold. *)
Theorem enclosure_of_array s sym l :
  closed_heap (heap s) ->
  (forall t, t ∈ l -> t < length (heap s)) ->
  (forall t, enclosure (OneState t) sym s = enclosure (StateArray [t]) sym s)
  /\ exists r,
      enclosure (StateArray l) sym s = (Ok r, s)
      /\ forall x,
           x ∈ r <->
           exists t r1, t ∈ l
                        /\ enclosure (OneState t) sym s = (Ok r1, s)
                        /\ x ∈ r1.
Proof.
  intros Hc Hl. split.
  - intros t. unfold enclosure. cbn [for_fold].
    rewrite !(bind_Ok budget _ s (S (length (heap s))) s eq_refl).
    unfold bind.
    destruct (Enclosure.DFS _ sym t [] s) as [[r|e|] s1]; reflexivity.
  - destruct (visit_roots_total (heap s) (follow_symbol sym) l Hc Hl)
      as (r & Hrun & _ & _ & Hiff).
    exists r. split.
    + rewrite enclosure_visit by assumption. cbn [roots].
      rewrite Hrun. reflexivity.
    + intros x. rewrite Hiff. split.
      * intros (t & Ht & Htx).
        destruct (enclosure_one s sym t Hc (Hl t Ht)) as (r1 & Hrun1 & Hr1).
        exists t, r1. split; [exact Ht|]. split; [exact Hrun1|].
        apply Hr1. exact Htx.
      * intros (t & r1 & Ht & Hrun1 & Hx).
        destruct (enclosure_one s sym t Hc (Hl t Ht)) as (r1' & Hrun1' & Hr1).
        rewrite Hrun1 in Hrun1'. inversion Hrun1'; subst r1'.
        exists t. split; [exact Ht|]. apply Hr1. exact Hx.
Qed.

Lemma enclosure_of_array_witness :
  let s := snd (build (or_node [text_node "a"; empty_node]) empty_store) in
  enclosure (OneState 0) epsilon s = enclosure (StateArray [0]) epsilon s
  /\ exists r, enclosure (StateArray [2; 3]) epsilon s = (Ok r, s).
Proof.
  intros s.
  destruct (enclosure_of_array s epsilon [2; 3]) as (H1 & r & H2 & _).
  - apply closed_heapb_closed. reflexivity.
  - intros t Ht. apply list_elem_of_In in Ht. simpl in Ht.
    destruct Ht as [<-|[<-|[]]]; vm_compute; lia.
  - split; [apply H1|]. exists r. exact H2.
Defined.
